(** * rvnmemhistwriter: chunks, slices and the database writer

    A shallow embedding of [src/chunk.h], [src/slice.h] and
    [src/db_writer.cpp], followed by the properties of the slice/chunk
    aggregation engine and of the persistence pipeline.

    Conventions of the embedding:
    - [std::uint64_t] / [std::size_t] values are [Z] with the wrap-around
      written out ([wrap64]); [std::uint32_t] likewise ([wrap32]);
    - the intrusive singly linked list of a chunk ([accesses_], [next_],
      [last_access_]) is the [list] of its nodes from head to tail; the tail
      pointer is the last element, whose [next_] is null, so the two
      [std::logic_error] guards of [Chunk::merge_in] cannot fire;
    - a node carries the heap address [self] at which it was allocated (two
      nodes with equal fields are still two nodes), and its three data fields
      are never written after construction; [SliceBuilder::insert] hands back
      the node it made, and the writer keeps only its address, as the code
      keeps a [const ChunkAccess*]: what is read through it at flush time is
      whatever node lives at that address then;
    - what the program takes from its runtime, the addresses that
      [std::make_unique] hands out and the order that [std::sort] leaves, is
      a parameter ([Runtime.t]), constrained only by what the C++ library
      promises;
    - [std::map<std::uint64_t, Chunk>] is an association list kept in
      strictly ascending key order, with an iterator being a position in it;
    - a C++ exception is a result constructor, returned together with the
      state as the throwing call left it. *)

From stdpp Require Import base list sorting gmap.
From Stdlib Require Import ZArith Lia.

Local Open Scope Z_scope.

(** ** Machine integers *)

Definition u64_max : Z := 2 ^ 64 - 1.
Definition wrap64 (z : Z) : Z := z mod 2 ^ 64.
Definition wrap32 (z : Z) : Z := z mod 2 ^ 32.
Definition is_u64 (z : Z) : Prop := 0 <= z <= u64_max.
Definition is_u32 (z : Z) : Prop := 0 <= z < 2 ^ 32.

(** Heap addresses of [ChunkAccess] nodes. *)
Definition ptr : Type := nat.

(** ** chunk.h *)

Module ChunkAccess.

Record t : Type := make {
  self : ptr;
  transition : Z;
  address : Z;
  size : Z
}.

End ChunkAccess.

Module Chunk.

Record t : Type := Build {
  address_first_ : Z;
  address_last_ : Z;
  accesses_ : list ChunkAccess.t;
  size_ : Z
}.

(** [Chunk(transition, address, size)]: one access; [size] is a
    [std::uint32_t], and [address + size - 1] is computed on 64 bits.
    [p] is where [std::make_unique<ChunkAccess>] allocates the node. *)
Definition make (p : ptr) (transition address size : Z) : t :=
  {| address_first_ := address;
     address_last_ := wrap64 (address + size - 1);
     accesses_ := [ChunkAccess.make p transition address size];
     size_ := 1 |}.

Definition address_first (c : t) : Z := address_first_ c.
Definition address_last (c : t) : Z := address_last_ c.
Definition address_size (c : t) : Z :=
  wrap64 (address_last_ c - address_first_ c + 1).

(** [accesses()] returns the head; following [next()] until [nullptr]
    visits the list below from left to right. *)
Definition accesses (c : t) : list ChunkAccess.t := accesses_ c.
Definition size (c : t) : Z := size_ c.

Definition overlaps (c other : t) : bool :=
  if (wrap64 (address_last c + 1) <=? address_first other)
     || (wrap64 (address_last other + 1) <=? address_first c)
  then false
  else true.

Definition is_contiguous (c other : t) : bool :=
  (wrap64 (address_last c + 1) =? address_first other)
  || (wrap64 (address_last other + 1) =? address_first c).

(** [merge_in(other)]: the donor's list is linked after the receiver's
    tail. *)
Definition merge_in (c other : t) : t :=
  {| address_first_ := Z.min (address_first c) (address_first other);
     address_last_ := Z.max (address_last c) (address_last other);
     accesses_ := accesses_ c ++ accesses_ other;
     size_ := wrap64 (size_ c + size other) |}.

(** The inclusive address interval of a chunk, as a set of addresses. *)
Definition covers (c : t) (x : Z) : Prop :=
  address_first c <= x <= address_last c.

End Chunk.

(** ** std::map<std::uint64_t, Chunk> *)

Module StdMap.

Definition entry : Type := Z * Chunk.t.
Definition t : Type := list entry.

Definition empty (m : t) : bool :=
  match m with [] => true | _ => false end.

(** [upper_bound(k)] is the position of the first entry whose key is
    greater than [k]: the result is the entries before that position and
    the entries from it on. *)
Fixpoint upper_bound (k : Z) (m : t) : t * t :=
  match m with
  | [] => ([], [])
  | e :: m' =>
      if k <? fst e then ([], m)
      else let '(before, after) := upper_bound k m' in (e :: before, after)
  end.

(** [erase(it)], the iterator standing for the entry of key [k]. *)
Fixpoint erase (k : Z) (m : t) : t :=
  match m with
  | [] => []
  | e :: m' => if fst e =? k then m' else e :: erase k m'
  end.

(** [insert(pair)]: no effect when the key is already present. *)
Fixpoint insert (e : entry) (m : t) : t :=
  match m with
  | [] => [e]
  | e' :: m' =>
      if fst e <? fst e' then e :: m
      else if fst e =? fst e' then m
      else e' :: insert e m'
  end.

Definition keys (m : t) : list Z := map fst m.
Definition chunks (m : t) : list Chunk.t := map snd m.

End StdMap.

(** ** slice.h *)

Module Slice.

Record t : Type := Build {
  access_chunks_ : StdMap.t;
  transition_first_ : Z;
  transition_last_ : Z
}.

Definition init : t :=
  {| access_chunks_ := []; transition_first_ := 0; transition_last_ := 0 |}.

Definition transition_first (s : t) : Z := transition_first_ s.
Definition transition_last (s : t) : Z := transition_last_ s.
Definition empty (s : t) : bool := StdMap.empty (access_chunks_ s).
Definition chunk_count (s : t) : Z := Z.of_nat (length (access_chunks_ s)).

Definition access_count (s : t) : Z :=
  foldl (fun count c => wrap64 (count + Chunk.size (snd c))) 0
        (access_chunks_ s).

(** The chunks in iteration order ([begin()] to [end()]). *)
Definition chunks (s : t) : list Chunk.t := StdMap.chunks (access_chunks_ s).

End Slice.

Inductive InsertResult : Type :=
| Inserted (access : ChunkAccess.t)   (* pointer to the inserted access *)
| Refused                             (* [nullptr] *)
| InvalidArgument.                    (* [std::invalid_argument] thrown *)

Module SliceBuilder.

Record t : Type := Build {
  slice_ : Slice.t;
  chunk_size_touch_limit_ : option Z;
  chunk_size_overlap_limit_ : option Z;
  transition_limit_ : option Z;
  access_count_limit_ : option Z;
  stop_at_next_transition_ : bool;
  access_count_ : Z
}.

(** A default-constructed builder. *)
Definition init : t :=
  {| slice_ := Slice.init;
     chunk_size_touch_limit_ := None;
     chunk_size_overlap_limit_ := None;
     transition_limit_ := None;
     access_count_limit_ := None;
     stop_at_next_transition_ := false;
     access_count_ := 0 |}.

Definition chunk_size_overlap_limit (l : Z) (b : t) : t :=
  {| slice_ := slice_ b;
     chunk_size_touch_limit_ := chunk_size_touch_limit_ b;
     chunk_size_overlap_limit_ := Some l;
     transition_limit_ := transition_limit_ b;
     access_count_limit_ := access_count_limit_ b;
     stop_at_next_transition_ := stop_at_next_transition_ b;
     access_count_ := access_count_ b |}.

Definition chunk_size_touch_limit (l : Z) (b : t) : t :=
  {| slice_ := slice_ b;
     chunk_size_touch_limit_ := Some l;
     chunk_size_overlap_limit_ := chunk_size_overlap_limit_ b;
     transition_limit_ := transition_limit_ b;
     access_count_limit_ := access_count_limit_ b;
     stop_at_next_transition_ := stop_at_next_transition_ b;
     access_count_ := access_count_ b |}.

Definition transition_limit (l : Z) (b : t) : t :=
  {| slice_ := slice_ b;
     chunk_size_touch_limit_ := chunk_size_touch_limit_ b;
     chunk_size_overlap_limit_ := chunk_size_overlap_limit_ b;
     transition_limit_ := Some l;
     access_count_limit_ := access_count_limit_ b;
     stop_at_next_transition_ := stop_at_next_transition_ b;
     access_count_ := access_count_ b |}.

Definition access_count_limit (l : Z) (b : t) : t :=
  {| slice_ := slice_ b;
     chunk_size_touch_limit_ := chunk_size_touch_limit_ b;
     chunk_size_overlap_limit_ := chunk_size_overlap_limit_ b;
     transition_limit_ := transition_limit_ b;
     access_count_limit_ := Some l;
     stop_at_next_transition_ := stop_at_next_transition_ b;
     access_count_ := access_count_ b |}.

(** Field updates used by [insert] and [build]. *)
Definition set_stop (b : t) : t :=
  {| slice_ := slice_ b;
     chunk_size_touch_limit_ := chunk_size_touch_limit_ b;
     chunk_size_overlap_limit_ := chunk_size_overlap_limit_ b;
     transition_limit_ := transition_limit_ b;
     access_count_limit_ := access_count_limit_ b;
     stop_at_next_transition_ := true;
     access_count_ := access_count_ b |}.

Definition set_slice (s : Slice.t) (b : t) : t :=
  {| slice_ := s;
     chunk_size_touch_limit_ := chunk_size_touch_limit_ b;
     chunk_size_overlap_limit_ := chunk_size_overlap_limit_ b;
     transition_limit_ := transition_limit_ b;
     access_count_limit_ := access_count_limit_ b;
     stop_at_next_transition_ := stop_at_next_transition_ b;
     access_count_ := access_count_ b |}.

Definition set_access_count (n : Z) (b : t) : t :=
  {| slice_ := slice_ b;
     chunk_size_touch_limit_ := chunk_size_touch_limit_ b;
     chunk_size_overlap_limit_ := chunk_size_overlap_limit_ b;
     transition_limit_ := transition_limit_ b;
     access_count_limit_ := access_count_limit_ b;
     stop_at_next_transition_ := stop_at_next_transition_ b;
     access_count_ := n |}.

Definition set_transition_first (icount : Z) (s : Slice.t) : Slice.t :=
  {| Slice.access_chunks_ := Slice.access_chunks_ s;
     Slice.transition_first_ := icount;
     Slice.transition_last_ := Slice.transition_last_ s |}.

(** [limit and value > *limit] on a [std::experimental::optional]. *)
Definition exceeds (limit : option Z) (value : Z) : bool :=
  match limit with
  | Some l => l <? value
  | None => false
  end.

(** [limit and value >= limit]. *)
Definition reaches (limit : option Z) (value : Z) : bool :=
  match limit with
  | Some l => l <=? value
  | None => false
  end.

(** The [while] loop of lines 163-171: from [next] on, entries are pushed
    into [overlaps] up to the first one that does not overlap. *)
Fixpoint walk_forward (access_chunk : Chunk.t) (next : StdMap.t)
    : list StdMap.entry :=
  match next with
  | [] => []
  | e :: next' =>
      if Chunk.overlaps (snd e) access_chunk
      then e :: walk_forward access_chunk next'
      else []
  end.

(** Lines 155-171: the iterators pushed into [overlaps], in push order.
    The predecessor of [upper_bound(address)] is tested first. *)
Definition find_overlaps (access_chunk : Chunk.t) (address : Z)
    (m : StdMap.t) : list StdMap.entry :=
  let '(before, next) := StdMap.upper_bound address m in
  let previous :=
    match last before with
    | Some e => if Chunk.overlaps (snd e) access_chunk then [e] else []
    | None => []
    end in
  previous ++ walk_forward access_chunk next.

(** [total_count], a [std::size_t] accumulated over [overlaps]. *)
Definition total_count (access_chunk : Chunk.t)
    (overlaps : list StdMap.entry) : Z :=
  foldl (fun n e => wrap64 (n + Chunk.size (snd e)))
        (Chunk.size access_chunk) overlaps.

(** Lines 186-189: every overlapping chunk is merged into the new chunk
    and erased from the map. *)
Definition merge_overlaps (access_chunk : Chunk.t) (m : StdMap.t)
    (overlaps : list StdMap.entry) : Chunk.t * StdMap.t :=
  foldl (fun '(c, m') it => (Chunk.merge_in c (snd it), StdMap.erase (fst it) m'))
        (access_chunk, m) overlaps.

(** [insert(icount, address, size)]; [p] is the address at which the node
    of the new access is allocated. *)
Definition insert (b : t) (p : ptr) (icount address size : Z)
    : InsertResult * t :=
  if size =? 0 then (InvalidArgument, b)
  else if (Slice.transition_last_ (slice_ b) <? icount)
          && stop_at_next_transition_ b
  then (Refused, b)
  else if reaches (access_count_limit_ b) (access_count_ b)
          && (Slice.transition_last_ (slice_ b) <? icount)
  then (Refused, b)
  else
    (* line 129: the transition is already part of the slice *)
    let b := if reaches (access_count_limit_ b) (access_count_ b)
             then set_stop b else b in
    if wrap64 (address - 1 + size) <? address then (InvalidArgument, b)
    else if negb (StdMap.empty (Slice.access_chunks_ (slice_ b)))
            && (icount <? Slice.transition_last_ (slice_ b))
    then (InvalidArgument, b)
    else if negb (StdMap.empty (Slice.access_chunks_ (slice_ b)))
            && exceeds (transition_limit_ b)
                 (wrap64 (icount - Slice.transition_first_ (slice_ b) + 1))
    then (Refused, b)
    else
      let access_chunk := Chunk.make p icount address (wrap32 size) in
      let access := ChunkAccess.make p icount address (wrap32 size) in
      let was_empty := StdMap.empty (Slice.access_chunks_ (slice_ b)) in
      (* lines 152-172 *)
      let b := if was_empty
               then set_slice (set_transition_first icount (slice_ b)) b
               else b in
      let overlaps :=
        if was_empty then []
        else find_overlaps access_chunk address
               (Slice.access_chunks_ (slice_ b)) in
      let total := total_count access_chunk overlaps in
      if exceeds (chunk_size_overlap_limit_ b) total
         && (Slice.transition_last_ (slice_ b) <? icount)
      then (Refused, b)
      else
        (* line 179 *)
        let b := if exceeds (chunk_size_overlap_limit_ b) total
                 then set_stop b else b in
        (* lines 183-184 *)
        let first := if was_empty then icount
                     else Slice.transition_first_ (slice_ b) in
        let '(merged, m) :=
          merge_overlaps access_chunk (Slice.access_chunks_ (slice_ b))
                         overlaps in
        let s := {| Slice.access_chunks_ :=
                      StdMap.insert (Chunk.address_first merged, merged) m;
                    Slice.transition_first_ := first;
                    Slice.transition_last_ := icount |} in
        (Inserted access,
         set_access_count (wrap64 (access_count_ b + 1)) (set_slice s b)).

(** The loop of [merge()]: [current] is the entry the left iterator
    stands on, [rest] the entries from [next] on. A merged right-hand
    entry is erased; the left-hand entry keeps its key. *)
Fixpoint merge_loop (touch_limit : option Z) (current : StdMap.entry)
    (rest : StdMap.t) : StdMap.t :=
  match rest with
  | [] => [current]
  | next :: rest' =>
      if Chunk.is_contiguous (snd current) (snd next)
         && negb (exceeds touch_limit
                    (wrap64 (Chunk.size (snd current) + Chunk.size (snd next))))
      then merge_loop touch_limit
             (fst current, Chunk.merge_in (snd current) (snd next)) rest'
      else current :: merge_loop touch_limit next rest'
  end.

Definition merge (b : t) : t :=
  match Slice.access_chunks_ (slice_ b) with
  | [] => b
  | current :: rest =>
      set_slice
        {| Slice.access_chunks_ :=
             merge_loop (chunk_size_touch_limit_ b) current rest;
           Slice.transition_first_ := Slice.transition_first_ (slice_ b);
           Slice.transition_last_ := Slice.transition_last_ (slice_ b) |}
        b
  end.

(** [build() &&]: the post-processing merge, then the slice is moved out. *)
Definition build (b : t) : Slice.t := slice_ (merge b).

Definition access_count (b : t) : Z := access_count_ b.
Definition chunk_count (b : t) : Z := Slice.chunk_count (slice_ b).

(** A sequence of [insert] calls on one builder; each call comes with the
    address its node would be allocated at. *)
Definition call : Type := ptr * Z * Z * Z.

Fixpoint inserts (b : t) (calls : list call) : list InsertResult * t :=
  match calls with
  | [] => ([], b)
  | (p, icount, address, size) :: calls' =>
      let '(r, b') := insert b p icount address size in
      let '(rs, b'') := inserts b' calls' in
      (r :: rs, b'')
  end.

End SliceBuilder.

(** ** db_writer.h *)

(** [enum class Operation : std::uint8_t]: the three enumerators, and
    [Unknown] for a value of the underlying type that is none of them (a
    value-initialised [MemoryAccess] has byte 0). *)
Inductive Operation : Type := Execute | Write | Read | Unknown (byte : Z).

(** [static_cast<std::uint8_t>(operation)]. *)
Definition operation_byte (op : Operation) : Z :=
  match op with
  | Execute => 1   (* 0b001 *)
  | Write => 2     (* 0b010 *)
  | Read => 4      (* 0b100 *)
  | Unknown byte => byte
  end.

Module MemoryAccess.

Record t : Type := make {
  transition_id : Z;
  physical_address : Z;
  virtual_address : Z;
  size : Z;
  has_virtual_address : bool;
  operation : Operation
}.

End MemoryAccess.

(** ** The sqlite database, as far as db_writer.cpp uses it

    rvnsqlite and sqlite are external: a table is the list of its rows in
    rowid order, a row holds the values handed to [bind_arg_throw],
    [bind_arg_cast], [bind_arg_extend] and [bind_null] (their conversion to
    sqlite's signed 64-bit integers happens inside rvnsqlite), and
    [last_insert_rowid()] after an insert is the number of rows of the table
    (rowids start at 1 and no row of [slices] or [chunks] is ever deleted).
    Errors of the store itself and the [begin]/[commit] bracket are not
    modelled. *)

Module SliceRow.
Record t : Type := make { transition_first : Z; transition_last : Z }.
End SliceRow.

Module ChunkRow.
Record t : Type := make {
  slice_id : Z; phy_first : Z; phy_last : Z; operation : Z
}.
End ChunkRow.

Module AccessRow.
Record t : Type := make {
  chunk_id : Z;
  transition : Z;
  linear : option Z;      (* [None] is SQL NULL *)
  phy_first : Z;
  size : Z;
  operation : Z
}.
End AccessRow.

Module Db.

Record t : Type := Build {
  slices : list SliceRow.t;
  chunks : list ChunkRow.t;
  accesses : list AccessRow.t
}.

(** The tables right after [create_sqlite_db]. *)
Definition create : t := {| slices := []; chunks := []; accesses := [] |}.

Definition insert_into_slices (r : SliceRow.t) (db : t) : t :=
  {| slices := slices db ++ [r]; chunks := chunks db; accesses := accesses db |}.
Definition insert_into_chunks (r : ChunkRow.t) (db : t) : t :=
  {| slices := slices db; chunks := chunks db ++ [r]; accesses := accesses db |}.
Definition insert_into_accesses (r : AccessRow.t) (db : t) : t :=
  {| slices := slices db; chunks := chunks db; accesses := accesses db ++ [r] |}.

End Db.

(** ** db_writer.cpp *)

Inductive exception : Type :=
| invalid_argument             (* thrown by [SliceBuilder::insert] *)
| runtime_error_execute        (* Execute access is not supported *)
| logic_error_empty_slices     (* You should not be writing empty slices into database *)
| logic_error_missing_access   (* access_to_chunk_id object should contain all accesses, but one is missing *)
| logic_error_insertion        (* Insertion must be possible on empty slices *)
| logic_error_unknown_access   (* Unknown access type *)
| null_builder                 (* a reset [std::unique_ptr<SliceBuilder>] is dereferenced *)
| use_after_free.              (* a freed node is read: undefined behaviour *)

Inductive outcome : Type :=
| Done
| Throw (e : exception).

Module AccessInfo.

(** [chunk_access] is the [const ChunkAccess*]: an address. *)
Record t : Type := make {
  chunk_access : ptr;
  has_virtual_address : bool;
  virtual_address : Z;
  operation : Z
}.

End AccessInfo.

Module ChunkWithDescription.
Record t : Type := make { operation : Z; chunk : Chunk.t }.
End ChunkWithDescription.

(** [std::unordered_map<const ChunkAccess*, std::uint64_t>], keyed by the
    address of the node. *)
Abbreviation ChunkAccessToRowId := (gmap ptr Z).

(** [emplace]: no effect when the key is already present. *)
Definition emplace (a : ptr) (chunk_id : Z) (m : ChunkAccessToRowId)
    : ChunkAccessToRowId :=
  match m !! a with
  | Some _ => m
  | None => <[a := chunk_id]> m
  end.

Definition insert_slice (db : Db.t) (read_slice write_slice : Slice.t)
    : exception + (Z * Db.t) :=
  let transition_first :=
    Z.min (Slice.transition_first read_slice) (Slice.transition_first write_slice) in
  let transition_last :=
    Z.max (Slice.transition_last read_slice) (Slice.transition_last write_slice) in
  if Slice.empty read_slice && Slice.empty write_slice
  then inl logic_error_empty_slices
  else
    let '(transition_first, transition_last) :=
      if Slice.empty read_slice
      then (Slice.transition_first write_slice, Slice.transition_last write_slice)
      else if Slice.empty write_slice
      then (Slice.transition_first read_slice, Slice.transition_last read_slice)
      else (transition_first, transition_last) in
    let db := Db.insert_into_slices
                (SliceRow.make transition_first transition_last) db in
    inr (Z.of_nat (length (Db.slices db)), db).

(** What the program takes from its runtime.

    [allocate clock live] is the address that [std::make_unique<ChunkAccess>]
    hands out when [clock] inserts were made before and the nodes at the
    addresses [live] are alive; the allocator may hand out again the address
    of a node that was freed. [sort comp l] is
    [std::sort(l.begin(), l.end(), comp)]. *)
Module Runtime.

Record t : Type := make {
  allocate : nat -> list ptr -> ptr;
  sort : (ChunkWithDescription.t -> ChunkWithDescription.t -> bool) ->
         list ChunkWithDescription.t -> list ChunkWithDescription.t
}.

(** An allocator never hands out the address of a live object. *)
Definition fresh_addresses (rt : t) : Prop :=
  forall clock live, allocate rt clock live ∉ live.

(** The requirement of [std::sort] on its comparator. *)
Definition strict_weak_order {A : Type} (comp : A -> A -> bool) : Prop :=
  (forall a, comp a a = false)
  /\ (forall a b c, comp a b = true -> comp b c = true -> comp a c = true)
  /\ (forall a b c, comp a b = false -> comp b c = false -> comp a c = false).

(** What [std::sort] promises: the same elements, and no element ordered
    before one that precedes it. The order of equivalent elements is open. *)
Definition sorts (rt : t) : Prop :=
  forall comp l,
    strict_weak_order comp ->
    sort rt comp l ≡ₚ l
    /\ StronglySorted (fun a b => comp b a = false) (sort rt comp l).

End Runtime.

(** The comparator of the [std::sort] call of [insert_chunks]:
    [a.chunk->address_first() > b.chunk->address_first()]. *)
Definition address_first_above (a b : ChunkWithDescription.t) : bool :=
  Chunk.address_first (ChunkWithDescription.chunk b)
  <? Chunk.address_first (ChunkWithDescription.chunk a).

Definition insert_chunks (rt : Runtime.t) (db : Db.t)
    (read_slice write_slice : Slice.t) (slice_id : Z)
    : ChunkAccessToRowId * Db.t :=
  let chunk_list :=
    map (ChunkWithDescription.make (operation_byte Read)) (Slice.chunks read_slice)
    ++ map (ChunkWithDescription.make (operation_byte Write)) (Slice.chunks write_slice) in
  foldl
    (fun '(access_to_chunk_id, db) it =>
       let c := ChunkWithDescription.chunk it in
       let db := Db.insert_into_chunks
                   (ChunkRow.make slice_id (Chunk.address_first c)
                      (Chunk.address_last c) (ChunkWithDescription.operation it))
                   db in
       let chunk_id := Z.of_nat (length (Db.chunks db)) in
       (foldl (fun m a => emplace (ChunkAccess.self a) chunk_id m)
              access_to_chunk_id (Chunk.accesses c),
        db))
    (∅, db) (Runtime.sort rt address_first_above chunk_list).

(** The nodes a slice owns: those its chunks link. They are freed when the
    slice is destroyed. *)
Definition slice_nodes (s : Slice.t) : list ChunkAccess.t :=
  concat (map Chunk.accesses (Slice.chunks s)).

(** [*p] for a [const ChunkAccess* p]: the node that lives at that address,
    if one does. *)
Definition deref (heap : list ChunkAccess.t) (p : ptr) : option ChunkAccess.t :=
  find (fun n => Nat.eqb (ChunkAccess.self n) p) heap.

(** The row bound for one logged access, once its chunk row id is known:
    transition, address and size are read through the pointer. *)
Definition access_row (chunk_id : Z) (node : ChunkAccess.t)
    (access : AccessInfo.t) : AccessRow.t :=
  AccessRow.make chunk_id
    (ChunkAccess.transition node)
    (if AccessInfo.has_virtual_address access
     then Some (AccessInfo.virtual_address access)
     else None)
    (ChunkAccess.address node)
    (ChunkAccess.size node)
    (AccessInfo.operation access).

(** [heap] holds the nodes alive during the flush, those of the two built
    slices. [find] compares addresses: it can hit with the address of a node
    that was freed, when that address now belongs to another node. *)
Fixpoint insert_accesses (db : Db.t) (heap : list ChunkAccess.t)
    (current_access_list : list AccessInfo.t)
    (access_to_chunk_id : ChunkAccessToRowId) : outcome * Db.t :=
  match current_access_list with
  | [] => (Done, db)
  | access :: rest =>
      match access_to_chunk_id !! AccessInfo.chunk_access access with
      | None => (Throw logic_error_missing_access, db)
      | Some chunk_id =>
          match deref heap (AccessInfo.chunk_access access) with
          | None => (Throw use_after_free, db)
          | Some node =>
              insert_accesses
                (Db.insert_into_accesses (access_row chunk_id node access) db)
                heap rest access_to_chunk_id
          end
      end
  end.

Module DbWriter.

(** [heap_clock] counts the inserts made so far; the allocator may answer
    by it. *)
Record t : Type := Build {
  db_ : Db.t;
  read_slice_builder_ : option SliceBuilder.t;
  write_slice_builder_ : option SliceBuilder.t;
  current_access_list_ : list AccessInfo.t;
  heap_clock : nat
}.

Definition overlap_limit : Z := 100000.
Definition touch_limit : Z := 1000.
Definition access_count_limit : Z := 10000000.

(** The builder that [create_slices] configures, twice. *)
Definition fresh_builder : SliceBuilder.t :=
  SliceBuilder.access_count_limit access_count_limit
    (SliceBuilder.chunk_size_touch_limit touch_limit
       (SliceBuilder.chunk_size_overlap_limit overlap_limit SliceBuilder.init)).

Definition create_slices (w : t) : t :=
  {| db_ := db_ w;
     read_slice_builder_ := Some fresh_builder;
     write_slice_builder_ := Some fresh_builder;
     current_access_list_ := current_access_list_ w;
     heap_clock := heap_clock w |}.

(** The constructor (and [from_memory]): schema, statements, builders. *)
Definition create : t :=
  create_slices
    {| db_ := Db.create;
       read_slice_builder_ := None;
       write_slice_builder_ := None;
       current_access_list_ := [];
       heap_clock := 0%nat |}.

(** The nodes alive between two calls: those of the chunks of the two
    builders. A node that [std::map::insert] did not take (line 192 of
    slice.h, the key being there already) was freed with the temporary
    pair, and so is not among them. *)
Definition builder_nodes (b : option SliceBuilder.t) : list ChunkAccess.t :=
  match b with
  | Some b => slice_nodes (SliceBuilder.slice_ b)
  | None => []
  end.

Definition live (w : t) : list ptr :=
  map ChunkAccess.self
    (builder_nodes (read_slice_builder_ w)
     ++ builder_nodes (write_slice_builder_ w)).

Definition insert_slices (rt : Runtime.t) (w : t) : outcome * t :=
  match current_access_list_ w with
  | [] => (Done, w)
  | _ :: _ =>
      match read_slice_builder_ w, write_slice_builder_ w with
      | Some read_builder, Some write_builder =>
          let read_slice := SliceBuilder.build read_builder in
          let write_slice := SliceBuilder.build write_builder in
          let heap := slice_nodes read_slice ++ slice_nodes write_slice in
          let reset db log :=
            {| db_ := db;
               read_slice_builder_ := None;
               write_slice_builder_ := None;
               current_access_list_ := log;
               heap_clock := heap_clock w |} in
          match insert_slice (db_ w) read_slice write_slice with
          | inl e => (Throw e, reset (db_ w) (current_access_list_ w))
          | inr (slice_id, db) =>
              let '(access_to_chunk_id, db) :=
                insert_chunks rt db read_slice write_slice slice_id in
              match insert_accesses db heap (current_access_list_ w)
                      access_to_chunk_id with
              | (Throw e, db) => (Throw e, reset db (current_access_list_ w))
              | (Done, db) => (Done, reset db [])
              end
          end
      | _, _ => (Throw null_builder, w)
      end
  end.

(** The builder [push] routes an access to: the lambda at the top of
    [push], and the write back through the reference it returns. *)
Definition builder (op : Operation) (w : t)
    : exception + option SliceBuilder.t :=
  match op with
  | Read => inr (read_slice_builder_ w)
  | Write => inr (write_slice_builder_ w)
  | Execute => inl runtime_error_execute
  | Unknown _ => inl logic_error_unknown_access
  end.

Definition set_builder (op : Operation) (b : SliceBuilder.t) (w : t) : t :=
  match op with
  | Read =>
      {| db_ := db_ w;
         read_slice_builder_ := Some b;
         write_slice_builder_ := write_slice_builder_ w;
         current_access_list_ := current_access_list_ w;
         heap_clock := heap_clock w |}
  | Write =>
      {| db_ := db_ w;
         read_slice_builder_ := read_slice_builder_ w;
         write_slice_builder_ := Some b;
         current_access_list_ := current_access_list_ w;
         heap_clock := heap_clock w |}
  | _ => w
  end.

Definition tick (w : t) : t :=
  {| db_ := db_ w;
     read_slice_builder_ := read_slice_builder_ w;
     write_slice_builder_ := write_slice_builder_ w;
     current_access_list_ := current_access_list_ w;
     heap_clock := S (heap_clock w) |}.

Definition push_back (info : AccessInfo.t) (w : t) : t :=
  {| db_ := db_ w;
     read_slice_builder_ := read_slice_builder_ w;
     write_slice_builder_ := write_slice_builder_ w;
     current_access_list_ := current_access_list_ w ++ [info];
     heap_clock := heap_clock w |}.

(** The entry pushed on the access log: the pointer [insert] returned, and
    three fields of the access. *)
Definition info_of (inserted_access : ChunkAccess.t) (access : MemoryAccess.t)
    : AccessInfo.t :=
  AccessInfo.make (ChunkAccess.self inserted_access)
    (MemoryAccess.has_virtual_address access)
    (MemoryAccess.virtual_address access)
    (operation_byte (MemoryAccess.operation access)).

(** One [builder->insert(...)] of [push]. The node that [insert] makes on
    line 146 gets an address at which no node of the two builders lives. *)
Definition builder_insert (rt : Runtime.t) (w : t) (access : MemoryAccess.t)
    : exception + (InsertResult * t) :=
  match builder (MemoryAccess.operation access) w with
  | inl e => inl e
  | inr None => inl null_builder
  | inr (Some b) =>
      let '(r, b) :=
        SliceBuilder.insert b (Runtime.allocate rt (heap_clock w) (live w))
          (MemoryAccess.transition_id access)
          (MemoryAccess.physical_address access)
          (MemoryAccess.size access) in
      inr (r, tick (set_builder (MemoryAccess.operation access) b w))
  end.

Definition push (rt : Runtime.t) (w : t) (access : MemoryAccess.t)
    : outcome * t :=
  match builder_insert rt w access with
  | inl e => (Throw e, w)
  | inr (InvalidArgument, w) => (Throw invalid_argument, w)
  | inr (Inserted inserted_access, w) =>
      (Done, push_back (info_of inserted_access access) w)
  | inr (Refused, w) =>
      match insert_slices rt w with
      | (Throw e, w) => (Throw e, w)
      | (Done, w) =>
          let w := create_slices w in
          match builder_insert rt w access with
          | inl e => (Throw e, w)
          | inr (InvalidArgument, w) => (Throw invalid_argument, w)
          | inr (Refused, w) => (Throw logic_error_insertion, w)
          | inr (Inserted inserted_access, w) =>
              (Done, push_back (info_of inserted_access access) w)
          end
      end
  end.

(** [take() &&]: a last flush, then the database is moved out. *)
Definition take (rt : Runtime.t) (w : t) : outcome * Db.t :=
  let '(o, w) := insert_slices rt w in (o, db_ w).

(** [for (const auto& a : accesses) writer.push(a);] up to the first
    exception. *)
Fixpoint pushes (rt : Runtime.t) (w : t) (accesses : list MemoryAccess.t)
    : outcome * t :=
  match accesses with
  | [] => (Done, w)
  | a :: accesses' =>
      match push rt w a with
      | (Done, w') => pushes rt w' accesses'
      | (Throw e, w') => (Throw e, w')
      end
  end.

End DbWriter.

(** ** One runtime

    The tests and the examples run on this one; the theorems hold for every
    runtime that keeps the promises of [Runtime]. Its allocator hands out
    the address after the highest live one, so the address of a freed node
    is handed out again when no node above it is alive, as a free list does;
    its sort is an insertion sort. *)

Fixpoint sort_insert {A : Type} (comp : A -> A -> bool) (x : A) (l : list A)
    : list A :=
  match l with
  | [] => [x]
  | y :: l' => if comp x y then x :: l else y :: sort_insert comp x l'
  end.

Definition insertion_sort {A : Type} (comp : A -> A -> bool) (l : list A)
    : list A :=
  foldl (fun sorted x => sort_insert comp x sorted) [] l.

Definition after_highest (clock : nat) (live : list ptr) : ptr :=
  S (max_list live).

Definition sample_runtime : Runtime.t :=
  Runtime.make after_highest insertion_sort.

(** ** Vocabulary of the properties *)

Module Props.

(** A default-constructed builder on which the four limit setters have been
    called or not, before any insert. *)
Definition configure (overlap touch transitions count : option Z)
    : SliceBuilder.t :=
  {| SliceBuilder.slice_ := Slice.init;
     SliceBuilder.chunk_size_touch_limit_ := touch;
     SliceBuilder.chunk_size_overlap_limit_ := overlap;
     SliceBuilder.transition_limit_ := transitions;
     SliceBuilder.access_count_limit_ := count;
     SliceBuilder.stop_at_next_transition_ := false;
     SliceBuilder.access_count_ := 0 |}.

(** A limit is unset or at least one. *)
Definition positive_limit (limit : option Z) : Prop :=
  forall l, limit = Some l -> 1 <= l.

(** Two inclusive address intervals share an address. *)
Definition share_address (a b : Chunk.t) : Prop :=
  exists x, Chunk.covers a x /\ Chunk.covers b x.

(** The two chunks are disjoint, as the non-overlap invariant writes it. *)
Definition disjoint (a b : Chunk.t) : Prop :=
  Chunk.address_last a < Chunk.address_first b
  \/ Chunk.address_last b < Chunk.address_first a.

(** The last byte of the access lies beyond [u64_max]. *)
Definition range_wraps (address size : Z) : Prop :=
  u64_max < address + size - 1.

(** Lines 121-126 of [insert] return [nullptr] before any argument check
    other than [size == 0]. *)
Definition early_refusal (b : SliceBuilder.t) (icount : Z) : bool :=
  (Slice.transition_last_ (SliceBuilder.slice_ b) <? icount)
  && (SliceBuilder.stop_at_next_transition_ b
      || SliceBuilder.reaches (SliceBuilder.access_count_limit_ b)
           (SliceBuilder.access_count_ b)).

(** One of the two soft caps is exceeded by the access: the tests of lines
    124 and 174. *)
Definition soft_cap_exceeded (b : SliceBuilder.t) (p : ptr)
    (icount address size : Z) : bool :=
  SliceBuilder.reaches (SliceBuilder.access_count_limit_ b)
    (SliceBuilder.access_count_ b)
  || SliceBuilder.exceeds (SliceBuilder.chunk_size_overlap_limit_ b)
       (SliceBuilder.total_count
          (Chunk.make p icount address (wrap32 size))
          (SliceBuilder.find_overlaps
             (Chunk.make p icount address (wrap32 size)) address
             (Slice.access_chunks_ (SliceBuilder.slice_ b)))).

(** The handles returned by a sequence of inserts, in arrival order. *)
Fixpoint accepted (rs : list InsertResult) : list ChunkAccess.t :=
  match rs with
  | [] => []
  | Inserted access :: rs' => access :: accepted rs'
  | _ :: rs' => accepted rs'
  end.

(** Every node reachable from the chunks of a map, chunk after chunk in
    iteration order, each chunk traversed from its head. *)
Definition traversal (m : StdMap.t) : list ChunkAccess.t :=
  concat (map Chunk.accesses (StdMap.chunks m)).

(** The arguments of an insert are 64-bit values, the size fits the 32 bits
    of [ChunkAccess::size], and the access ends below [u64_max]. *)
Definition below_max (c : SliceBuilder.call) : Prop :=
  let '(_, icount, address, size) := c in
  0 <= address /\ 0 <= size < 2 ^ 32 /\ address + size - 1 < u64_max.

Definition same_transition (icount : Z) (c : SliceBuilder.call) : Prop :=
  let '(_, icount', _, _) := c in icount' = icount.

(** The columns of the [accesses] table that come from the pushed access. *)
Definition row_attributes (r : AccessRow.t) : Z * Z * option Z * Z * Z :=
  (AccessRow.transition r, AccessRow.phy_first r, AccessRow.linear r,
   AccessRow.size r, AccessRow.operation r).

Definition access_attributes (a : MemoryAccess.t) : Z * Z * option Z * Z * Z :=
  (MemoryAccess.transition_id a, MemoryAccess.physical_address a,
   if MemoryAccess.has_virtual_address a
   then Some (MemoryAccess.virtual_address a) else None,
   MemoryAccess.size a, operation_byte (MemoryAccess.operation a)).

End Props.

(** ** Invariants used by the proofs *)

(** A chunk whose range is well formed and ends below [u64_max]. *)
Definition bounded (c : Chunk.t) : Prop :=
  0 <= Chunk.address_first c
  /\ Chunk.address_first c <= Chunk.address_last c
  /\ Chunk.address_last c < u64_max.

(** [transition_last_] is still 0 as long as the chunk map is empty. *)
Definition fresh_last (b : SliceBuilder.t) : Prop :=
  Slice.access_chunks_ (SliceBuilder.slice_ b) = [] ->
  Slice.transition_last_ (SliceBuilder.slice_ b) = 0.

(** The transitions of a non-empty slice respect the transition limit. *)
Definition within_transition_limit (b : SliceBuilder.t) : Prop :=
  Slice.access_chunks_ (SliceBuilder.slice_ b) <> [] ->
  SliceBuilder.exceeds (SliceBuilder.transition_limit_ b)
    (wrap64 (Slice.transition_last_ (SliceBuilder.slice_ b)
             - Slice.transition_first_ (SliceBuilder.slice_ b) + 1)) = false.

Definition key_lt (e e' : StdMap.entry) : Prop := fst e < fst e'.

(** Keys strictly ascending: the order of iteration of the [std::map]. *)
Definition ordered (m : StdMap.t) : Prop := StronglySorted key_lt m.

(** Every entry is keyed by the first address of its chunk, and its chunk
    ends below [u64_max]. *)
Definition keyed (m : StdMap.t) : Prop :=
  Forall (fun e => fst e = Chunk.address_first (snd e) /\ bounded (snd e)) m.

(** The chunk of [e] ends before the chunk of [e'] starts. *)
Definition ends_before (e e' : StdMap.entry) : Prop :=
  Chunk.address_last (snd e) < Chunk.address_first (snd e').

(** The chunks are pairwise disjoint, in ascending order of addresses. *)
Definition separated (m : StdMap.t) : Prop := StronglySorted ends_before m.

(** The two components of [SliceBuilder.merge_overlaps]. *)
Definition merge_all (c : Chunk.t) (overlaps : list StdMap.entry) : Chunk.t :=
  foldl (fun c it => Chunk.merge_in c (snd it)) c overlaps.

Definition erase_all (overlaps : list StdMap.entry) (m : StdMap.t) : StdMap.t :=
  foldl (fun m it => StdMap.erase (fst it) m) m overlaps.

(** The chunk map is ordered and keyed, and the nodes reachable from its
    chunks are the accesses accepted so far, each once. *)
Definition holds (accesses : list ChunkAccess.t) (b : SliceBuilder.t) : Prop :=
  ordered (Slice.access_chunks_ (SliceBuilder.slice_ b))
  /\ keyed (Slice.access_chunks_ (SliceBuilder.slice_ b))
  /\ Props.traversal (Slice.access_chunks_ (SliceBuilder.slice_ b)) ≡ₚ accesses.

(** ** Vocabulary of the further properties *)

(** The bytes of one stored access. *)
Definition access_covers (n : ChunkAccess.t) (x : Z) : Prop :=
  ChunkAccess.address n <= x <= ChunkAccess.address n + ChunkAccess.size n - 1.

(** The range of a chunk is exactly the union of the bytes of its accesses. *)
Definition tight (c : Chunk.t) : Prop :=
  forall x,
    Chunk.covers c x
    <-> exists n, n ∈ Chunk.accesses c /\ access_covers n x.

(** [size()] counts the nodes of the list, which is not empty. *)
Definition counted (c : Chunk.t) : Prop :=
  Chunk.accesses c <> []
  /\ Chunk.size c = wrap64 (Z.of_nat (length (Chunk.accesses c))).

(** Every node reachable from the map carries a transition between
    [transition_first_] and [transition_last_]. *)
Definition transitions_bounded (s : Slice.t) : Prop :=
  forall n,
    n ∈ Props.traversal (Slice.access_chunks_ s) ->
    Slice.transition_first s <= ChunkAccess.transition n
    /\ ChunkAccess.transition n <= Slice.transition_last s.

(** What the inserts keep about transitions and the access count, for the
    accesses accepted so far in arrival order. *)
Definition transitions_kept (accesses : list ChunkAccess.t)
    (b : SliceBuilder.t) : Prop :=
  (Slice.access_chunks_ (SliceBuilder.slice_ b) = [] -> accesses = [])
  /\ Forall (fun n => ChunkAccess.transition n
                      <= Slice.transition_last_ (SliceBuilder.slice_ b))
            accesses
  /\ StronglySorted Z.le (map ChunkAccess.transition accesses)
  /\ (Slice.access_chunks_ (SliceBuilder.slice_ b) <> [] ->
      Slice.transition_first_ (SliceBuilder.slice_ b)
      <= Slice.transition_last_ (SliceBuilder.slice_ b)
      /\ transitions_bounded (SliceBuilder.slice_ b))
  /\ SliceBuilder.access_count_ b = wrap64 (Z.of_nat (length accesses)).

(** Each access of the chunk lies inside the range of the chunk. *)
Definition contained (c : Chunk.t) : Prop :=
  forall n,
    n ∈ Chunk.accesses c ->
    Chunk.address_first c <= ChunkAccess.address n
    /\ ChunkAccess.address n + ChunkAccess.size n - 1 <= Chunk.address_last c.

(** The vector [chunk_list] of [insert_chunks] before it is sorted, and the
    row bound for one of its entries. *)
Definition chunk_list (read_slice write_slice : Slice.t)
    : list ChunkWithDescription.t :=
  map (ChunkWithDescription.make (operation_byte Read)) (Slice.chunks read_slice)
  ++ map (ChunkWithDescription.make (operation_byte Write))
         (Slice.chunks write_slice).

Definition chunk_row (slice_id : Z) (it : ChunkWithDescription.t) : ChunkRow.t :=
  ChunkRow.make slice_id
    (Chunk.address_first (ChunkWithDescription.chunk it))
    (Chunk.address_last (ChunkWithDescription.chunk it))
    (ChunkWithDescription.operation it).

(** The body of the loop of lines 204-216 of db_writer.cpp. *)
Definition chunk_step (slice_id : Z) (state : ChunkAccessToRowId * Db.t)
    (it : ChunkWithDescription.t) : ChunkAccessToRowId * Db.t :=
  let '(access_to_chunk_id, db) := state in
  let c := ChunkWithDescription.chunk it in
  let db := Db.insert_into_chunks
              (ChunkRow.make slice_id (Chunk.address_first c)
                 (Chunk.address_last c) (ChunkWithDescription.operation it))
              db in
  let chunk_id := Z.of_nat (length (Db.chunks db)) in
  (foldl (fun m a => emplace (ChunkAccess.self a) chunk_id m)
         access_to_chunk_id (Chunk.accesses c),
   db).

(** The row of a table with a given rowid (rowids start at 1). *)
Definition row_at {A : Type} (table : list A) (rowid : Z) : option A :=
  if rowid <? 1 then None else table !! Z.to_nat (rowid - 1).

(** An access row points to a chunk row of its operation whose range
    contains the bytes of the access, and that chunk row points to a slice
    row whose transitions bound the transition of the access. *)
Definition row_consistent (db : Db.t) (r : AccessRow.t) : Prop :=
  exists cr sr,
    row_at (Db.chunks db) (AccessRow.chunk_id r) = Some cr
    /\ row_at (Db.slices db) (ChunkRow.slice_id cr) = Some sr
    /\ ChunkRow.operation cr = AccessRow.operation r
    /\ ChunkRow.phy_first cr <= AccessRow.phy_first r
    /\ AccessRow.phy_first r + AccessRow.size r - 1 <= ChunkRow.phy_last cr
    /\ SliceRow.transition_first sr <= AccessRow.transition r
    /\ AccessRow.transition r <= SliceRow.transition_last sr.

(** The nodes a builder holds. *)
Definition nodes (b : SliceBuilder.t) : list ChunkAccess.t :=
  Props.traversal (Slice.access_chunks_ (SliceBuilder.slice_ b)).

(** The access ends below [u64_max] and its size fits 32 bits. *)
Definition access_below_max (a : MemoryAccess.t) : Prop :=
  0 <= MemoryAccess.physical_address a
  /\ 0 <= MemoryAccess.size a < 2 ^ 32
  /\ MemoryAccess.physical_address a + MemoryAccess.size a - 1 < u64_max.

(** What the inserts keep of a builder as long as every access ends below
    [u64_max]: the map is as [holds] says for some accesses, each node lies
    inside its chunk, and the transitions are as [transitions_kept] says. *)
Definition builder_sound (b : SliceBuilder.t) : Prop :=
  (exists accesses, holds accesses b)
  /\ Forall (fun e => contained (snd e))
            (Slice.access_chunks_ (SliceBuilder.slice_ b))
  /\ exists accesses, transitions_kept accesses b.

(** The entry [e] of the access log stands for the pushed access [a]: it
    holds the virtual address and the operation byte of [a], and its pointer
    is the address of a node of the builder of [a]'s operation that holds
    the transition, the address and the size of [a]. *)
Definition logged (w : DbWriter.t) (e : AccessInfo.t) (a : MemoryAccess.t)
    : Prop :=
  AccessInfo.has_virtual_address e = MemoryAccess.has_virtual_address a
  /\ AccessInfo.virtual_address e = MemoryAccess.virtual_address a
  /\ AccessInfo.operation e = operation_byte (MemoryAccess.operation a)
  /\ exists b n,
       DbWriter.builder (MemoryAccess.operation a) w = inr (Some b)
       /\ n ∈ nodes b
       /\ ChunkAccess.self n = AccessInfo.chunk_access e
       /\ ChunkAccess.transition n = MemoryAccess.transition_id a
       /\ ChunkAccess.address n = MemoryAccess.physical_address a
       /\ ChunkAccess.size n = MemoryAccess.size a.

(** The writer between two pushes, [batch] being the accesses pushed since
    the last flush: both builders are there and sound, the live nodes are
    at distinct addresses, and the access log stands for [batch], entry by
    entry. *)
Definition batch_open (w : DbWriter.t) (batch : list MemoryAccess.t) : Prop :=
  exists read_builder write_builder,
    DbWriter.read_slice_builder_ w = Some read_builder
    /\ DbWriter.write_slice_builder_ w = Some write_builder
    /\ builder_sound read_builder
    /\ builder_sound write_builder
    /\ NoDup (DbWriter.live w)
    /\ Forall2 (logged w) (DbWriter.current_access_list_ w) batch.

(** The writer after the pushes of [accesses]: the table holds the rows of
    those already flushed, in push order, every row of the table is
    consistent, and the rest is the open batch. *)
Definition persisted (w : DbWriter.t) (accesses : list MemoryAccess.t) : Prop :=
  exists flushed batch,
    accesses = flushed ++ batch
    /\ map Props.row_attributes (Db.accesses (DbWriter.db_ w))
       = map Props.access_attributes flushed
    /\ Forall (row_consistent (DbWriter.db_ w)) (Db.accesses (DbWriter.db_ w))
    /\ batch_open w batch.

(** ** Data of the unit tests *)

Definition is_inserted (r : InsertResult) : bool :=
  match r with Inserted _ => true | _ => false end.

Definition nominal_calls : list SliceBuilder.call :=
  [ (0%nat, 1, 10, 10); (1%nat, 2, 8, 10); (2%nat, 3, 12, 10);
    (3%nat, 3, 30, 10); (4%nat, 3, 18, 15);
    (5%nat, 4, 100, 10); (6%nat, 5, 100, 10); (7%nat, 6, 98, 10);
    (8%nat, 7, 108, 10); (9%nat, 8, 80, 10); (10%nat, 9, 85, 20);
    (11%nat, 10, 120, 10); (12%nat, 11, 90, 40);
    (13%nat, 12, 200, 10); (14%nat, 13, 210, 10); (15%nat, 14, 190, 10);
    (16%nat, 100, 4294967280, 1) ].

Definition nominal_accesses : list MemoryAccess.t :=
  [ MemoryAccess.make 0 10 6666 10 true Write;
    MemoryAccess.make 1 100 6666 10 true Write;
    MemoryAccess.make 2 1000 6666 10 true Write;
    MemoryAccess.make 3 1005 6666 10 true Write;
    MemoryAccess.make 4 10 6666 10 true Read;
    MemoryAccess.make 5 100 6666 10 true Read;
    MemoryAccess.make 6 1000 6666 10 true Read;
    MemoryAccess.make 7 1005 6666 10 true Read ].

(** Two reads of the byte at [u64_max], on transitions 0 and 1, then a
    write and a read elsewhere. *)
Definition read_top_0 : MemoryAccess.t :=
  MemoryAccess.make 0 u64_max 0 1 false Read.
Definition read_top_1 : MemoryAccess.t :=
  MemoryAccess.make 1 u64_max 7 1 true Read.
Definition write_low_2 : MemoryAccess.t :=
  MemoryAccess.make 2 100 0 4 false Write.

(** ** test_slice.cpp, replayed on the embedding *)

Section TestSlice.
Import SliceBuilder.

Example test_db_writer_slice_builder_nominal :
  let '(rs, b) := inserts init nominal_calls in
  let slice := build b in
  forallb is_inserted rs = true
  /\ Slice.access_count slice = access_count b
  /\ Slice.access_count slice = 17
  /\ Slice.chunk_count slice = 4
  /\ Slice.transition_first slice = 1
  /\ Slice.transition_last slice = 100.
Proof. vm_compute. repeat split. Qed.

Example test_db_writer_slice_builder_wraparound :
  fst (inserts init
         [ (0%nat, 0, u64_max, 1); (1%nat, 0, u64_max - 2, 3);
           (2%nat, 0, u64_max - 2, 4) ])
  = [ Inserted (ChunkAccess.make 0%nat 0 u64_max 1);
      Inserted (ChunkAccess.make 1%nat 0 (u64_max - 2) 3);
      InvalidArgument ].
Proof. vm_compute. reflexivity. Qed.

Example test_db_writer_slice_builder_backward :
  map is_inserted
    (fst (inserts init [ (0%nat, 0, 1, 1); (1%nat, 1, 1, 1); (2%nat, 0, 1, 1) ]))
  = [true; true; false]
  /\ last (fst (inserts init [ (0%nat, 0, 1, 1); (1%nat, 1, 1, 1); (2%nat, 0, 1, 1) ]))
     = Some InvalidArgument.
Proof. vm_compute. split; reflexivity. Qed.

Example test_db_writer_slice_builder_limit_overlap :
  map is_inserted
    (fst (inserts (chunk_size_overlap_limit 2 init)
            [ (0%nat, 1, 10, 10); (1%nat, 2, 18, 10); (2%nat, 3, 25, 10) ]))
  = [true; true; false].
Proof. vm_compute. reflexivity. Qed.

Example test_db_writer_slice_builder_limit_overlap_ignored :
  fst (inserts (chunk_size_overlap_limit 2 init)
         [ (0%nat, 1, 10, 10); (1%nat, 2, 15, 10); (2%nat, 2, 20, 10);
           (3%nat, 2, 25, 10); (4%nat, 2, 50, 10); (5%nat, 3, 250, 10) ])
  = [ Inserted (ChunkAccess.make 0%nat 1 10 10);
      Inserted (ChunkAccess.make 1%nat 2 15 10);
      Inserted (ChunkAccess.make 2%nat 2 20 10);
      Inserted (ChunkAccess.make 3%nat 2 25 10);
      Inserted (ChunkAccess.make 4%nat 2 50 10);
      Refused ].
Proof. vm_compute. reflexivity. Qed.

Example test_db_writer_slice_builder_limit_transition :
  map is_inserted
    (fst (inserts (transition_limit 2 init)
            [ (0%nat, 0, 10, 10); (1%nat, 1, 10, 10); (2%nat, 2, 10, 10) ]))
  = [true; true; false].
Proof. vm_compute. reflexivity. Qed.

Example test_db_writer_slice_builder_limit_touch :
  let '(rs, b) := inserts (chunk_size_touch_limit 2 init)
                    [ (0%nat, 0, 0, 10); (1%nat, 1, 10, 10); (2%nat, 2, 20, 10) ] in
  forallb is_inserted rs = true
  /\ chunk_count b = 3
  /\ Slice.chunk_count (build b) = 2.
Proof. vm_compute. repeat split. Qed.

Example test_db_writer_slice_builder_limit_access_count_hard :
  let '(rs, b) := inserts (access_count_limit 2 init)
                    [ (0%nat, 0, 0, 10); (1%nat, 1, 50, 10); (2%nat, 2, 200, 10) ] in
  rs = [ Inserted (ChunkAccess.make 0%nat 0 0 10);
         Inserted (ChunkAccess.make 1%nat 1 50 10); Refused ]
  /\ access_count b = 2.
Proof. vm_compute. split; reflexivity. Qed.

Example test_db_writer_slice_builder_limit_access_count_soft :
  let '(rs, b) := inserts (access_count_limit 2 init)
                    [ (0%nat, 0, 0, 10); (1%nat, 1, 50, 10); (2%nat, 1, 100, 10);
                      (3%nat, 2, 200, 10) ] in
  map is_inserted rs = [true; true; true; false]
  /\ access_count b = 3.
Proof. vm_compute. split; reflexivity. Qed.

Example test_db_writer_slice_invalid_accesses :
  fst (inserts init [ (0%nat, 0, 1, 0); (1%nat, 0, 0, 0) ])
  = [ InvalidArgument; InvalidArgument ].
Proof. vm_compute. reflexivity. Qed.

End TestSlice.

(** ** test_db_writer.cpp, replayed on the embedding *)

Section TestDbWriter.
Import DbWriter.
Import Props.

Example test_db_writer_nominal :
  let '(o, db) :=
    take sample_runtime (snd (pushes sample_runtime create nominal_accesses)) in
  o = Done
  /\ length (Db.slices db) = 1%nat
  /\ length (Db.chunks db) = 6%nat
  /\ length (Db.accesses db) = length nominal_accesses
  /\ map SliceRow.transition_first (Db.slices db) = [0]
  /\ map SliceRow.transition_last (Db.slices db) = [7]
  /\ map row_attributes (Db.accesses db) = map access_attributes nominal_accesses.
Proof. vm_compute. repeat split. Qed.

Example test_db_writer_no_virtual :
  map AccessRow.linear
    (Db.accesses
       (snd (take sample_runtime
               (snd (pushes sample_runtime create
                       [ MemoryAccess.make 0 10 6666 10 true Write;
                         MemoryAccess.make 1 100 156 10 false Write ])))))
  = [Some 6666; None].
Proof. vm_compute. reflexivity. Qed.

End TestDbWriter.

(** * Properties *)

(** ** Machine arithmetic *)

Section Wrap.

Lemma wrap64_small z : 0 <= z <= u64_max -> wrap64 z = z.
Proof. unfold wrap64, u64_max. intros H. apply Z.mod_small. lia. Qed.

Lemma wrap32_small z : 0 <= z < 2 ^ 32 -> wrap32 z = z.
Proof. unfold wrap32. intros H. apply Z.mod_small. lia. Qed.

Lemma wrap64_carry z : u64_max < z <= 2 * u64_max + 1 -> wrap64 z = z - 2 ^ 64.
Proof.
  unfold wrap64, u64_max. intros H.
  symmetry. apply (Z.mod_unique z (2 ^ 64) 1); lia.
Qed.

(** The test of line 133 of slice.h, read on the integers. *)
Lemma wrap_check address size :
  is_u64 address -> 1 <= size <= u64_max ->
  (wrap64 (address - 1 + size) <? address) = true
  <-> u64_max < address + size - 1.
Proof.
  unfold is_u64. intros Ha Hs. rewrite Z.ltb_lt.
  destruct (Z_le_gt_dec (address - 1 + size) u64_max) as [Hle | Hgt].
  - rewrite wrap64_small by lia. lia.
  - rewrite wrap64_carry by lia. unfold u64_max in *. lia.
Qed.

End Wrap.

(** ** Chunk::overlaps *)

Section Overlaps.

Lemma overlaps_below_max a b :
  bounded a -> bounded b ->
  Chunk.overlaps a b = true <-> Props.share_address a b.
Proof.
  unfold bounded, Chunk.overlaps, Props.share_address, Chunk.covers.
  intros (Ha0 & Ha1 & Ha2) (Hb0 & Hb1 & Hb2).
  rewrite !wrap64_small by lia.
  destruct (Z.leb_spec (Chunk.address_last a + 1) (Chunk.address_first b));
    destruct (Z.leb_spec (Chunk.address_last b + 1) (Chunk.address_first a));
    simpl; split; try discriminate; try (intros [x Hx]; lia).
  intros _. exists (Z.max (Chunk.address_first a) (Chunk.address_first b)). lia.
Qed.

Lemma overlaps_false_disjoint a b :
  bounded a -> bounded b ->
  Chunk.overlaps a b = false <-> Props.disjoint a b.
Proof.
  unfold bounded, Chunk.overlaps, Props.disjoint.
  intros (Ha0 & Ha1 & Ha2) (Hb0 & Hb1 & Hb2).
  rewrite !wrap64_small by lia.
  destruct (Z.leb_spec (Chunk.address_last a + 1) (Chunk.address_first b));
    destruct (Z.leb_spec (Chunk.address_last b + 1) (Chunk.address_first a));
    simpl; split; try discriminate; try reflexivity; lia.
Qed.

(** C3, at the input where the code departs from it: the one-byte chunk at
    [u64_max] and the three-byte chunk that ends at [u64_max] both contain
    the address [u64_max], each has [address_first <= address_last], and
    [overlaps] answers false in both directions, because
    [address_last() + 1] wraps to 0. *)
Theorem overlaps_wraps_at_u64_max :
  let a := Chunk.make 0%nat 0 u64_max 1 in
  let b := Chunk.make 1%nat 0 (u64_max - 2) 3 in
  Chunk.address_first a <= Chunk.address_last a
  /\ Chunk.address_first b <= Chunk.address_last b
  /\ Chunk.covers a u64_max /\ Chunk.covers b u64_max
  /\ Props.share_address a b
  /\ Chunk.overlaps a b = false /\ Chunk.overlaps b a = false.
Proof.
  cbv zeta.
  assert (Ha : Chunk.covers (Chunk.make 0%nat 0 u64_max 1) u64_max)
    by (vm_compute; split; discriminate).
  assert (Hb : Chunk.covers (Chunk.make 1%nat 0 (u64_max - 2) 3) u64_max)
    by (vm_compute; split; discriminate).
  split; [vm_compute; discriminate |].
  split; [vm_compute; discriminate |].
  split; [exact Ha |].
  split; [exact Hb |].
  split; [exists u64_max; split; assumption |].
  split; vm_compute; reflexivity.
Qed.

End Overlaps.

(** ** SliceBuilder::insert, case by case *)

Section InsertCases.
Import SliceBuilder.

Lemma set_stop_id b : stop_at_next_transition_ b = true -> set_stop b = b.
Proof. destruct b; simpl; intros ->; reflexivity. Qed.

Lemma stdmap_insert_nonempty e m : StdMap.insert e m <> [].
Proof. destruct m as [| e' m]; simpl; [discriminate |]. repeat case_match; discriminate. Qed.

Lemma find_overlaps_nil c address : find_overlaps c address [] = [].
Proof. reflexivity. Qed.

Lemma insert_inserted b p icount address size access b' :
  insert b p icount address size = (Inserted access, b') ->
  access = ChunkAccess.make p icount address (wrap32 size)
  /\ Slice.transition_last_ (slice_ b') = icount
  /\ Slice.access_chunks_ (slice_ b') <> [].
Proof.
  unfold insert. intros H.
  repeat case_match; simplify_eq; simpl.
  all: repeat split; try reflexivity; apply stdmap_insert_nonempty.
Qed.


(** The limits are never written by [insert]; the sticky flag is only ever
    raised. *)
Lemma insert_frame b p icount address size :
  let b' := snd (insert b p icount address size) in
  chunk_size_touch_limit_ b' = chunk_size_touch_limit_ b
  /\ chunk_size_overlap_limit_ b' = chunk_size_overlap_limit_ b
  /\ transition_limit_ b' = transition_limit_ b
  /\ access_count_limit_ b' = access_count_limit_ b
  /\ (stop_at_next_transition_ b = true -> stop_at_next_transition_ b' = true).
Proof.
  unfold insert. repeat case_match; simpl; repeat split; auto.
Qed.

Lemma insert_refused b p icount address size b' :
  insert b p icount address size = (Refused, b') ->
  Slice.access_chunks_ (slice_ b') = Slice.access_chunks_ (slice_ b)
  /\ access_count_ b' = access_count_ b
  /\ Slice.transition_last_ (slice_ b') = Slice.transition_last_ (slice_ b).
Proof.
  unfold insert. intros H.
  repeat case_match; simplify_eq; simpl; repeat split; reflexivity.
Qed.

Lemma insert_invalid b p icount address size b' :
  insert b p icount address size = (InvalidArgument, b') ->
  slice_ b' = slice_ b /\ access_count_ b' = access_count_ b.
Proof.
  unfold insert. intros H.
  repeat case_match; simplify_eq; simpl; repeat split; reflexivity.
Qed.

(** When [insert] throws: on [size == 0], and otherwise, past the two early
    returns, on the wrap test or on a backward transition. *)
Lemma insert_invalid_iff b p icount address size :
  fst (insert b p icount address size) = InvalidArgument
  <-> size = 0
      \/ (Props.early_refusal b icount = false
          /\ ((wrap64 (address - 1 + size) <? address) = true
              \/ (Slice.access_chunks_ (slice_ b) <> []
                  /\ icount < Slice.transition_last_ (slice_ b)))).
Proof.
  unfold insert, Props.early_refusal.
  destruct (Z.eqb_spec size 0) as [-> | Hs]; [simpl; tauto |].
  destruct (Z.ltb_spec (Slice.transition_last_ (slice_ b)) icount) as [Hlt | Hge];
    destruct (stop_at_next_transition_ b) eqn:Hstop;
    destruct (reaches (access_count_limit_ b) (access_count_ b)) eqn:Hreach;
    simpl; try (split; [discriminate | intros [? | [? _]]; congruence]).
  all: destruct (wrap64 (address - 1 + size) <? address) eqn:Hwrap; simpl;
    [tauto |].
  all: destruct (Slice.access_chunks_ (slice_ b)) as [| e m] eqn:Hm; simpl.
  all: try (destruct (Z.ltb_spec icount (Slice.transition_last_ (slice_ b)));
            simpl; [split; [intros _; right; split; [reflexivity |]; right; split; [discriminate | lia] | reflexivity] |]).
  all: repeat case_match; simpl; split; try discriminate;
    intros [? | [_ [? | [? ?]]]]; try congruence; try lia.
Qed.

End InsertCases.

(** ** Builders reached from a configured one *)

Section Reached.
Import SliceBuilder.

Lemma inserts_cons b c calls :
  inserts b (c :: calls)
  = (fst (insert b c.1.1.1 c.1.1.2 c.1.2 c.2) :: fst (inserts (snd (insert b c.1.1.1 c.1.1.2 c.1.2 c.2)) calls),
     snd (inserts (snd (insert b c.1.1.1 c.1.1.2 c.1.2 c.2)) calls)).
Proof.
  destruct c as [[[p icount] address] size]. simpl.
  destruct (insert b p icount address size) as [r b']. simpl.
  destruct (inserts b' calls) as [rs b'']. reflexivity.
Qed.

Lemma inserts_app b calls calls' :
  inserts b (calls ++ calls')
  = (fst (inserts b calls) ++ fst (inserts (snd (inserts b calls)) calls'),
     snd (inserts (snd (inserts b calls)) calls')).
Proof.
  revert b. induction calls as [| c calls IH]; intros b.
  - simpl. destruct (inserts b calls'); reflexivity.
  - rewrite <- app_comm_cons, !inserts_cons, IH. reflexivity.
Qed.

(** A property kept by every [insert] holds after any sequence of them. *)
Lemma inserts_preserve (P : t -> Prop) :
  (forall b p icount address size,
     P b -> P (snd (insert b p icount address size))) ->
  forall calls b, P b -> P (snd (inserts b calls)).
Proof.
  intros Hstep calls. induction calls as [| c calls IH]; intros b Hb.
  - exact Hb.
  - rewrite inserts_cons. simpl. apply IH, Hstep, Hb.
Qed.

Lemma insert_fresh_last b p icount address size :
  fresh_last b -> fresh_last (snd (insert b p icount address size)).
Proof.
  unfold fresh_last. intros Hb.
  destruct (insert b p icount address size) as [r b'] eqn:Hi. simpl.
  destruct r.
  - apply insert_inserted in Hi as (_ & _ & Hne). intros He. contradiction.
  - apply insert_refused in Hi as (-> & _ & ->). exact Hb.
  - apply insert_invalid in Hi as (-> & _). exact Hb.
Qed.

Lemma exceeds_one limit : Props.positive_limit limit -> exceeds limit 1 = false.
Proof.
  unfold Props.positive_limit. destruct limit as [l |]; simpl; [| reflexivity].
  intros H. specialize (H l eq_refl). apply Z.ltb_ge. lia.
Qed.

Lemma insert_within_transition_limit b p icount address size :
  Props.positive_limit (transition_limit_ b) ->
  within_transition_limit b ->
  within_transition_limit (snd (insert b p icount address size)).
Proof.
  unfold within_transition_limit. intros Hpos Hb.
  assert (H1 : wrap64 (icount - icount + 1) = 1)
    by (rewrite Z.sub_diag; reflexivity).
  unfold insert.
  repeat case_match; simpl in *; simplify_eq; simpl in *; intros Hne;
    try (apply Hb; assumption); try contradiction;
    try (rewrite H1; apply exceeds_one; assumption).
  all: repeat match goal with
       | H : _ && _ = false |- _ => apply andb_false_iff in H as [H | H]
       | H : negb _ = false |- _ => apply negb_false_iff in H
       end; simpl in *; try discriminate; try assumption.
  all: match goal with
       | H : StdMap.empty ?m = true, Hne : ?m <> [] |- _ =>
           destruct m; [contradiction | discriminate]
       end.
Qed.

Lemma reached_fresh_last overlap touch transitions count calls :
  fresh_last (snd (inserts (Props.configure overlap touch transitions count) calls)).
Proof.
  apply inserts_preserve.
  - intros. apply insert_fresh_last. assumption.
  - intros _. reflexivity.
Qed.

Lemma reached_limits overlap touch transitions count calls :
  let b := snd (inserts (Props.configure overlap touch transitions count) calls) in
  chunk_size_overlap_limit_ b = overlap /\ transition_limit_ b = transitions.
Proof.
  apply (inserts_preserve
           (fun b => chunk_size_overlap_limit_ b = overlap
                     /\ transition_limit_ b = transitions)).
  - intros b p icount address size [H1 H2].
    pose proof (insert_frame b p icount address size) as (_ & -> & -> & _).
    split; assumption.
  - split; reflexivity.
Qed.

Lemma reached_within_transition_limit overlap touch transitions count calls :
  Props.positive_limit transitions ->
  within_transition_limit
    (snd (inserts (Props.configure overlap touch transitions count) calls)).
Proof.
  intros Hpos.
  apply (inserts_preserve
           (fun b => transition_limit_ b = transitions /\ within_transition_limit b)).
  - intros b p icount address size [H1 H2]. split.
    + pose proof (insert_frame b p icount address size) as (_ & _ & -> & _).
      assumption.
    + apply insert_within_transition_limit; [rewrite H1 |]; assumption.
  - split; [reflexivity |]. intros H. contradiction.
Qed.

End Reached.

(** ** Errors of SliceBuilder::insert *)

Section InsertErrors.
Import SliceBuilder.

(** C4 as stated fails: with [access_count_limit(1)] and one access already
    in the slice, the insert of two bytes at [u64_max] on a new transition
    wraps around, yet it returns [nullptr]: the early return of line 126
    comes before the wrap test of line 133. *)
Lemma insert_wrap_refused_first :
  let b := snd (inserts (Props.configure None None None (Some 1))
                        [(0%nat, 0, 0, 1)]) in
  ~ (fst (insert b 1%nat 1 u64_max 2) = InvalidArgument
     <-> (2 = 0 \/ Props.range_wraps u64_max 2
          \/ 1 < Slice.transition_last (slice_ b))).
Proof.
  cbv zeta. intros [_ H].
  assert (Hw : Props.range_wraps u64_max 2)
    by (unfold Props.range_wraps; lia).
  specialize (H (or_intror (or_introl Hw))).
  vm_compute in H. discriminate.
Qed.

(** C4, amended: on a builder reached from a configured one by any sequence
    of inserts, [insert] throws InvalidArgument exactly when the size is 0,
    or the transition is below [transition_last], or the last byte of the
    access lies beyond [u64_max] and the call is not one that lines 121-126
    refuse first; a call that does not throw returns a handle or a
    refusal. *)
Theorem insert_invalid_argument_exactly overlap touch transitions count calls
    p icount address size :
  is_u64 icount -> is_u64 address -> is_u64 size ->
  let b := snd (inserts (Props.configure overlap touch transitions count) calls) in
  (fst (insert b p icount address size) = InvalidArgument
   <-> size = 0
       \/ icount < Slice.transition_last (slice_ b)
       \/ (Props.range_wraps address size /\ Props.early_refusal b icount = false))
  /\ (fst (insert b p icount address size) <> InvalidArgument ->
      fst (insert b p icount address size) = Refused
      \/ exists access, fst (insert b p icount address size) = Inserted access).
Proof.
  intros Ht Ha Hs b. split.
  - rewrite insert_invalid_iff. unfold Props.range_wraps, Slice.transition_last.
    pose proof (reached_fresh_last overlap touch transitions count calls) as Hfresh.
    fold b in Hfresh. unfold fresh_last in Hfresh.
    destruct (Z.eq_dec size 0) as [-> | Hnz]; [tauto |].
    assert (Hs1 : 1 <= size <= u64_max) by (unfold is_u64 in Hs; lia).
    pose proof (wrap_check address size Ha Hs1) as Hwrap.
    split.
    + intros [? | [He [Hw | [Hne Hlt]]]]; [contradiction | |].
      * right; right. split; [apply Hwrap, Hw | exact He].
      * right; left. exact Hlt.
    + intros [? | [Hlt | [Hw He]]]; [contradiction | |]; right.
      * split.
        -- unfold Props.early_refusal.
           replace (Slice.transition_last_ (slice_ b) <? icount) with false
             by (symmetry; apply Z.ltb_ge; lia).
           reflexivity.
        -- right. split; [| exact Hlt].
           intros Hempty. specialize (Hfresh Hempty).
           unfold is_u64 in Ht. lia.
      * split; [exact He |]. left. apply Hwrap, Hw.
  - destruct (fst (insert b p icount address size)) as [access | |];
      intros H; [right; eexists; reflexivity | left; reflexivity | contradiction].
Qed.

Lemma insert_invalid_argument_exactly_witness :
  fst (insert (snd (inserts (Props.configure None None None (Some 2))
                      [(0%nat, 3, 10, 4)]))
         1%nat 2 20 4) = InvalidArgument
  <-> 4 = 0
      \/ 2 < Slice.transition_last
               (slice_ (snd (inserts (Props.configure None None None (Some 2))
                               [(0%nat, 3, 10, 4)])))
      \/ (Props.range_wraps 20 4
          /\ Props.early_refusal
               (snd (inserts (Props.configure None None None (Some 2))
                       [(0%nat, 3, 10, 4)])) 2 = false).
Proof.
  apply (insert_invalid_argument_exactly None None None (Some 2)
           [(0%nat, 3, 10, 4)] 1%nat 2 20 4);
    unfold is_u64, u64_max; lia.
Defined.

(** C5 as stated fails: after the one-byte insert at [u64_max], the
    three-byte insert at [u64_max - 2] on the same transition is accepted,
    as test_db_writer_slice_builder_wraparound expects. *)
Lemma insert_three_bytes_up_to_u64_max_accepted :
  let '(r1, b1) := insert init 0%nat 0 u64_max 1 in
  r1 = Inserted (ChunkAccess.make 0%nat 0 u64_max 1)
  /\ ~ (fst (insert b1 1%nat 0 (u64_max - 2) 3) = InvalidArgument).
Proof. vm_compute. split; [reflexivity | discriminate]. Qed.

(** C5, amended: after a successful insert at [(u64_max, 1)], an insert on
    the same transition at [u64_max - 2] does not throw with size 3 (its
    last byte is [u64_max] itself) and throws InvalidArgument with size 4. *)
Theorem insert_after_u64_max b p icount access b1 p' :
  insert b p icount u64_max 1 = (Inserted access, b1) ->
  fst (insert b1 p' icount (u64_max - 2) 3) <> InvalidArgument
  /\ fst (insert b1 p' icount (u64_max - 2) 4) = InvalidArgument.
Proof.
  intros H. apply insert_inserted in H as (_ & Hlast & _).
  assert (He : Props.early_refusal b1 icount = false).
  { unfold Props.early_refusal. rewrite Hlast, Z.ltb_irrefl. reflexivity. }
  split.
  - rewrite insert_invalid_iff. intros [? | [_ [Hw | [_ Hlt]]]].
    + discriminate.
    + vm_compute in Hw. discriminate.
    + rewrite Hlast in Hlt. lia.
  - apply insert_invalid_iff. right. split; [exact He |]. left.
    vm_compute. reflexivity.
Qed.

Lemma insert_after_u64_max_witness :
  fst (insert (snd (insert init 0%nat 0 u64_max 1)) 1%nat 0 (u64_max - 2) 3)
    <> InvalidArgument
  /\ fst (insert (snd (insert init 0%nat 0 u64_max 1)) 1%nat 0 (u64_max - 2) 4)
     = InvalidArgument.
Proof.
  apply (insert_after_u64_max init 0%nat 0
           (ChunkAccess.make 0%nat 0 u64_max 1)).
  vm_compute. reflexivity.
Defined.

End InsertErrors.

(** ** Soft caps and refusals *)

Section Refusals.
Import SliceBuilder.

(** With the sticky flag up, a new transition is refused and the builder is
    left as it was. *)
Lemma insert_new_transition_refused b p icount address size :
  stop_at_next_transition_ b = true ->
  Slice.transition_last_ (slice_ b) < icount ->
  size <> 0 ->
  insert b p icount address size = (Refused, b).
Proof.
  intros Hstop Hlt Hs. unfold insert.
  destruct (Z.eqb_spec size 0); [contradiction |].
  rewrite Hstop. apply Z.ltb_lt in Hlt. rewrite Hlt. reflexivity.
Qed.

(** An accepted access that exceeds a soft cap raises the sticky flag. *)
Lemma insert_raises_flag b p icount address size access b' :
  insert b p icount address size = (Inserted access, b') ->
  Props.soft_cap_exceeded b p icount address size = true ->
  stop_at_next_transition_ b' = true.
Proof.
  unfold insert, Props.soft_cap_exceeded. intros H Hcap.
  repeat case_match; simplify_eq; simpl in *; try reflexivity; try assumption.
  all: repeat match goal with
       | H : StdMap.empty ?m = true |- _ =>
           destruct m; [clear H | discriminate H]
       end; simpl in *; rewrite ?find_overlaps_nil in *; congruence.
Qed.

(** On the transition the slice already ends on, only the transition limit
    can refuse an access. *)
Lemma insert_same_transition b p icount address size :
  within_transition_limit b ->
  icount = Slice.transition_last_ (slice_ b) ->
  fst (insert b p icount address size) <> Refused.
Proof.
  unfold within_transition_limit. intros Hb ->. unfold insert.
  rewrite Z.ltb_irrefl. simpl.
  repeat rewrite andb_false_r.
  repeat case_match; simpl in *; simplify_eq; try discriminate.
  all: repeat match goal with
       | H : _ && _ = true |- _ => apply andb_true_iff in H as [? ?]
       | H : negb _ = true |- _ => apply negb_true_iff in H
       end.
  all: try match goal with
           | H : (?x <? ?x) = true |- _ =>
               rewrite Z.ltb_irrefl in H; discriminate H
           end.
  all: match goal with
       | H : StdMap.empty ?m = false |- _ =>
           assert (m <> []) as Hne by (destruct m; [discriminate | discriminate])
       end.
  all: specialize (Hb Hne); congruence.
Qed.

Lemma insert_keeps_flag_and_last b p icount address size :
  stop_at_next_transition_ b = true ->
  icount = Slice.transition_last_ (slice_ b) ->
  let b' := snd (insert b p icount address size) in
  stop_at_next_transition_ b' = true
  /\ Slice.transition_last_ (slice_ b') = Slice.transition_last_ (slice_ b).
Proof.
  intros Hstop Ht b'. split.
  - apply insert_frame, Hstop.
  - subst b'. destruct (insert b p icount address size) as [r b1] eqn:Hi. simpl.
    destruct r.
    + apply insert_inserted in Hi as (_ & -> & _). exact Ht.
    + apply insert_refused in Hi as (_ & _ & ->). reflexivity.
    + apply insert_invalid in Hi as (-> & _). reflexivity.
Qed.

(** C6 as stated fails when the transition limit is 0: with
    [access_count_limit(0)] the first access (transition 0, equal to
    [transition_last]) exceeds the cap and is accepted, raising the flag;
    the next access on the same transition is refused, by the transition
    limit of line 142. *)
Lemma same_transition_refused_by_transition_limit :
  let b := Props.configure None None (Some 0) (Some 0) in
  let '(r1, b1) := insert b 0%nat 0 0 1 in
  r1 = Inserted (ChunkAccess.make 0%nat 0 0 1)
  /\ Props.soft_cap_exceeded b 0%nat 0 0 1 = true
  /\ Slice.transition_last (slice_ b1) = 0
  /\ insert b1 1%nat 0 10 1 = (Refused, b1).
Proof. vm_compute. repeat split. Qed.

(** C6, amended: when the transition limit is unset or at least 1, once an
    accepted access has exceeded a soft cap no further insert on that same
    transition is refused, and after any number of them an insert of
    non-zero size on a later transition is refused, leaving the builder
    unchanged. *)
Theorem sticky_saturation overlap touch transitions count calls
    p icount address size access b1 same :
  Props.positive_limit transitions ->
  let b := snd (inserts (Props.configure overlap touch transitions count) calls) in
  insert b p icount address size = (Inserted access, b1) ->
  Props.soft_cap_exceeded b p icount address size = true ->
  Forall (Props.same_transition icount) same ->
  Forall (fun r => r <> Refused) (fst (inserts b1 same))
  /\ forall p' icount' address' size',
       icount < icount' -> size' <> 0 ->
       insert (snd (inserts b1 same)) p' icount' address' size'
       = (Refused, snd (inserts b1 same)).
Proof.
  intros Hpos b Hi Hcap Hsame.
  assert (Hinv : transition_limit_ b1 = transitions
                 /\ within_transition_limit b1
                 /\ stop_at_next_transition_ b1 = true
                 /\ Slice.transition_last_ (slice_ b1) = icount).
  { pose proof (reached_limits overlap touch transitions count calls) as [_ Hl].
    pose proof (reached_within_transition_limit overlap touch transitions count
                  calls Hpos) as Hw.
    fold b in Hl, Hw.
    pose proof (insert_frame b p icount address size) as (_ & _ & Hl' & _).
    pose proof (insert_within_transition_limit b p icount address size) as Hw'.
    rewrite Hi in Hl', Hw'. simpl in Hl', Hw'.
    split; [congruence |].
    split; [apply Hw'; [rewrite Hl |]; assumption |].
    split; [eapply insert_raises_flag; eassumption |].
    apply insert_inserted in Hi as (_ & Hlast & _). exact Hlast. }
  clear Hi Hcap. revert b1 Hinv.
  induction Hsame as [| c same Hc Hsame IH]; intros b1 (Hl & Hw & Hstop & Hlast).
  - simpl. split; [constructor |].
    intros p' icount' address' size' Hlt Hs.
    apply insert_new_transition_refused; [assumption | lia | assumption].
  - rewrite inserts_cons. simpl.
    destruct c as [[[p0 t0] a0] s0]. simpl in *. subst t0.
    pose proof (insert_keeps_flag_and_last b1 p0 icount a0 s0 Hstop
                  (eq_sym Hlast)) as [Hstop' Hlast'].
    pose proof (insert_frame b1 p0 icount a0 s0) as (_ & _ & Hl' & _).
    pose proof (insert_within_transition_limit b1 p0 icount a0 s0) as Hw'.
    specialize (IH (snd (insert b1 p0 icount a0 s0))) as [IH1 IH2].
    { split; [congruence |].
      split; [apply Hw'; [rewrite Hl |]; assumption |].
      split; [assumption | congruence]. }
    split; [| exact IH2].
    constructor; [| exact IH1].
    apply insert_same_transition; [assumption | congruence].
Qed.

Lemma sticky_saturation_witness :
  Forall (fun r => r <> Refused)
    (fst (inserts
            (snd (insert
                    (snd (inserts (Props.configure None None None (Some 2))
                            [(0%nat, 0, 0, 10); (1%nat, 1, 50, 10)]))
                    2%nat 1 100 10))
            [(3%nat, 1, 150, 10)]))
  /\ forall p' icount' address' size',
       1 < icount' -> size' <> 0 ->
       insert
         (snd (inserts
                 (snd (insert
                         (snd (inserts (Props.configure None None None (Some 2))
                                 [(0%nat, 0, 0, 10); (1%nat, 1, 50, 10)]))
                         2%nat 1 100 10))
                 [(3%nat, 1, 150, 10)]))
         p' icount' address' size'
       = (Refused,
          snd (inserts
                 (snd (insert
                         (snd (inserts (Props.configure None None None (Some 2))
                                 [(0%nat, 0, 0, 10); (1%nat, 1, 50, 10)]))
                         2%nat 1 100 10))
                 [(3%nat, 1, 150, 10)])).
Proof.
  apply (sticky_saturation None None None (Some 2)
           [(0%nat, 0, 0, 10); (1%nat, 1, 50, 10)]
           2%nat 1 100 10 (ChunkAccess.make 2%nat 1 100 10)).
  - intros l Hl. discriminate Hl.
  - vm_compute. reflexivity.
  - vm_compute. reflexivity.
  - repeat constructor.
Defined.

End Refusals.

(** ** What a refusal leaves behind *)

Section RefusalFrame.
Import SliceBuilder.

(** C10 as stated fails: with [chunk_size_overlap_limit(0)] the first
    insert on an empty builder is refused at line 176, after line 153 has
    already written [transition_first_]. *)
Lemma refusal_writes_transition_first :
  let b := Props.configure (Some 0) None None None in
  let '(r, b') := insert b 0%nat 5 0 1 in
  r = Refused
  /\ Slice.transition_first_ (slice_ b) = 0
  /\ Slice.transition_first_ (slice_ b') = 5
  /\ b' <> b.
Proof. vm_compute. repeat split; discriminate. Qed.

(** The same with the sticky flag: with [transition_limit(0)] and
    [access_count_limit(1)], the second insert on the transition of the first
    raises the flag at line 129 and is then refused at line 144. *)
Lemma refusal_raises_flag :
  let b := snd (insert (Props.configure None None (Some 0) (Some 1))
                       0%nat 5 0 1) in
  let '(r, b') := insert b 1%nat 5 10 1 in
  r = Refused
  /\ stop_at_next_transition_ b = false
  /\ stop_at_next_transition_ b' = true.
Proof. vm_compute. repeat split. Qed.

(** C10, amended: on a builder reached from one configured with an overlap
    limit and a transition limit that are each unset or at least 1, a
    refused insert leaves the whole builder as it was: chunk map,
    [access_count_], [transition_first_], [transition_last_] and the sticky
    flag. (Whatever the limits, it leaves the chunk map, [access_count_] and
    [transition_last_] as they were: [insert_refused].) *)
Theorem refusal_leaves_builder overlap touch transitions count calls
    p icount address size b' :
  Props.positive_limit overlap -> Props.positive_limit transitions ->
  let b := snd (inserts (Props.configure overlap touch transitions count) calls) in
  insert b p icount address size = (Refused, b') ->
  b' = b.
Proof.
  intros Hpo Hpt b.
  pose proof (reached_limits overlap touch transitions count calls) as [Hlo Hlt].
  pose proof (reached_within_transition_limit overlap touch transitions count
                calls Hpt) as Hw.
  fold b in Hlo, Hlt, Hw. unfold within_transition_limit in Hw.
  pose proof (exceeds_one _ Hpo) as Hone. rewrite <- Hlo in Hone.
  unfold insert.
  repeat case_match; intros Hi; simplify_eq; try reflexivity.
  all: repeat match goal with
       | H : _ && _ = true |- _ => apply andb_true_iff in H as [? ?]
       | H : _ && _ = false |- _ => apply andb_false_iff in H as [H | H]
       | H : negb _ = true |- _ => apply negb_true_iff in H
       | H : negb _ = false |- _ => apply negb_false_iff in H
       end; simpl in *; try congruence.
  all: try match goal with
           | H : StdMap.empty ?m = false |- _ =>
               assert (m <> []) as Hne
                 by (destruct m; [discriminate | discriminate])
           end.
  all: try (specialize (Hw Hne)).
  all: repeat match goal with
       | H : (_ <? _) = true |- _ => apply Z.ltb_lt in H
       | H : (_ <? _) = false |- _ => apply Z.ltb_ge in H
       end.
  all: try (assert (icount = Slice.transition_last_ (slice_ b)) as -> by lia;
            congruence).
  all: try lia.
  all: match goal with
       | H : exceeds _ (total_count (Chunk.make _ _ _ _) []) = true |- _ =>
           change (total_count (Chunk.make p icount address (wrap32 size)) [])
             with 1 in H; congruence
       end.
Qed.

Lemma refusal_leaves_builder_witness :
  snd (insert
         (snd (inserts (Props.configure (Some 2) None (Some 2) (Some 2))
                 [(0%nat, 0, 0, 10); (1%nat, 1, 50, 10)]))
         2%nat 2 200 10)
  = snd (inserts (Props.configure (Some 2) None (Some 2) (Some 2))
           [(0%nat, 0, 0, 10); (1%nat, 1, 50, 10)]).
Proof.
  apply (refusal_leaves_builder (Some 2) None (Some 2) (Some 2)
           [(0%nat, 0, 0, 10); (1%nat, 1, 50, 10)] 2%nat 2 200 10).
  - intros l Hl. injection Hl as <-. lia.
  - intros l Hl. injection Hl as <-. lia.
  - vm_compute. reflexivity.
Defined.

End RefusalFrame.

(** ** Non-overlap at the top of the address space *)

Section NonOverlap.
Import SliceBuilder.

(** C1, at the input where the code departs from it: the two accepted
    inserts of test_db_writer_slice_builder_wraparound. The chunk map holds
    two chunks that both contain [u64_max], before [build()] and in the
    slice it returns: [Chunk::overlaps] answers false on them, because
    [address_last() + 1] wraps to 0, so line 187 never merges them. *)
Theorem overlapping_chunks_at_u64_max :
  let '(rs, b) := inserts init [(0%nat, 0, u64_max, 1);
                                (1%nat, 0, u64_max - 2, 3)] in
  let a := Chunk.Build (u64_max - 2) u64_max
             [ChunkAccess.make 1%nat 0 (u64_max - 2) 3] 1 in
  let c := Chunk.Build u64_max u64_max
             [ChunkAccess.make 0%nat 0 u64_max 1] 1 in
  rs = [Inserted (ChunkAccess.make 0%nat 0 u64_max 1);
        Inserted (ChunkAccess.make 1%nat 0 (u64_max - 2) 3)]
  /\ Slice.chunks (slice_ b) = [a; c]
  /\ Slice.chunks (build b) = [a; c]
  /\ a <> c
  /\ Props.share_address a c
  /\ ~ Props.disjoint a c.
Proof.
  assert (Hrun :
    inserts init [(0%nat, 0, u64_max, 1); (1%nat, 0, u64_max - 2, 3)]
    = ([Inserted (ChunkAccess.make 0%nat 0 u64_max 1);
        Inserted (ChunkAccess.make 1%nat 0 (u64_max - 2) 3)],
       set_access_count 2
         (set_slice
            {| Slice.access_chunks_ :=
                 [(u64_max - 2,
                   Chunk.Build (u64_max - 2) u64_max
                     [ChunkAccess.make 1%nat 0 (u64_max - 2) 3] 1);
                  (u64_max,
                   Chunk.Build u64_max u64_max
                     [ChunkAccess.make 0%nat 0 u64_max 1] 1)];
               Slice.transition_first_ := 0;
               Slice.transition_last_ := 0 |}
            init)))
    by (vm_compute; reflexivity).
  rewrite Hrun. cbv zeta.
  split; [reflexivity |].
  split; [reflexivity |].
  split; [vm_compute; reflexivity |].
  split; [vm_compute; discriminate |].
  split.
  - exists u64_max. unfold Chunk.covers. vm_compute.
    repeat split; discriminate.
  - unfold Props.disjoint. vm_compute. intros [H | H]; discriminate H.
Qed.

End NonOverlap.

(** ** The retry of DbWriter::push *)

Section Retry.

Lemma fresh_builder_insert p icount address size :
  fst (SliceBuilder.insert DbWriter.fresh_builder p icount address size)
    = InvalidArgument
  \/ fst (SliceBuilder.insert DbWriter.fresh_builder p icount address size)
     = Inserted (ChunkAccess.make p icount address (wrap32 size)).
Proof.
  unfold SliceBuilder.insert. simpl.
  rewrite andb_false_r. simpl.
  destruct (size =? 0); [left; reflexivity |].
  destruct (wrap64 (address - 1 + size) <? address); [left; reflexivity |].
  right. reflexivity.
Qed.

Lemma builder_insert_create_slices rt w access r w' :
  DbWriter.builder_insert rt (DbWriter.create_slices w) access = inr (r, w') ->
  exists p,
    r = fst (SliceBuilder.insert DbWriter.fresh_builder p
               (MemoryAccess.transition_id access)
               (MemoryAccess.physical_address access)
               (MemoryAccess.size access)).
Proof.
  unfold DbWriter.builder_insert, DbWriter.builder.
  destruct (MemoryAccess.operation access); simpl; try discriminate.
  all: destruct (SliceBuilder.insert _ _ _ _ _) as [r0 b0] eqn:Hi; simpl;
    intros H; injection H as <- _; eexists; rewrite Hi; reflexivity.
Qed.

Lemma insert_accesses_throw db heap log m e db' :
  insert_accesses db heap log m = (Throw e, db') ->
  e = logic_error_missing_access \/ e = use_after_free.
Proof.
  revert db. induction log as [| access log IH]; intros db; simpl.
  - discriminate.
  - destruct (m !! AccessInfo.chunk_access access).
    + destruct (deref heap (AccessInfo.chunk_access access)).
      * apply IH.
      * intros H. injection H as <- _. right. reflexivity.
    + intros H. injection H as <- _. left. reflexivity.
Qed.

Lemma insert_slices_throw rt w e w' :
  DbWriter.insert_slices rt w = (Throw e, w') ->
  e = logic_error_empty_slices \/ e = logic_error_missing_access
  \/ e = use_after_free \/ e = null_builder.
Proof.
  unfold DbWriter.insert_slices.
  destruct (DbWriter.current_access_list_ w) as [| i log]; [discriminate |].
  destruct (DbWriter.read_slice_builder_ w) as [read_builder |];
    [| intros Heq; injection Heq as <- _; auto].
  destruct (DbWriter.write_slice_builder_ w) as [write_builder |];
    [| intros Heq; injection Heq as <- _; auto].
  destruct (insert_slice _ _ _) as [e0 | [slice_id db1]] eqn:H1.
  - intros Heq. injection Heq as <- _. left.
    unfold insert_slice in H1. repeat case_match; simplify_eq. reflexivity.
  - destruct (insert_chunks _ _ _ _ _) as [m db2].
    destruct (insert_accesses db2 _ (i :: log) m) as [[| e0] db3] eqn:H3;
      [discriminate |].
    intros Heq. injection Heq as <- _.
    apply insert_accesses_throw in H3 as [-> | ->]; auto.
Qed.



End Retry.

(** ** The chunk map as an ordered association list *)

Section StdMapFacts.

Lemma ordered_cons e m : ordered (e :: m) <-> Forall (key_lt e) m /\ ordered m.
Proof.
  split.
  - intros H. apply StronglySorted_inv in H as [H1 H2]. split; assumption.
  - intros [H1 H2]. constructor; assumption.
Qed.

Lemma erase_elem k m x : x ∈ StdMap.erase k m -> x ∈ m.
Proof.
  induction m as [| e m IH]; simpl; [intros H; exact H |].
  destruct (fst e =? k).
  - intros H. right. exact H.
  - intros H. apply elem_of_cons in H as [-> | H]; [left | right; auto].
Qed.

Lemma erase_elem_ne k m x : x ∈ m -> fst x <> k -> x ∈ StdMap.erase k m.
Proof.
  induction m as [| e m IH]; simpl; [intros H _; exact H |].
  intros H Hne. apply elem_of_cons in H as [-> | H].
  - destruct (Z.eqb_spec (fst e) k); [contradiction | left].
  - destruct (fst e =? k); [exact H | right; auto].
Qed.

Lemma erase_Forall (P : StdMap.entry -> Prop) k m :
  Forall P m -> Forall P (StdMap.erase k m).
Proof.
  rewrite !Forall_forall. intros H x Hx. apply H. eapply erase_elem, Hx.
Qed.

Lemma erase_ordered k m : ordered m -> ordered (StdMap.erase k m).
Proof.
  induction m as [| e m IH]; simpl; [intros H; exact H |].
  rewrite ordered_cons. intros [H1 H2].
  destruct (fst e =? k); [exact H2 |].
  apply ordered_cons. split; [apply erase_Forall, H1 | apply IH, H2].
Qed.

Lemma erase_no_key k m x : ordered m -> x ∈ StdMap.erase k m -> fst x <> k.
Proof.
  induction m as [| e m IH]; simpl.
  - intros _ H. apply elem_of_nil in H. contradiction.
  - rewrite ordered_cons. intros [H1 H2].
    destruct (Z.eqb_spec (fst e) k) as [<- | Hne].
    + intros Hx. rewrite Forall_forall in H1. specialize (H1 x Hx).
      unfold key_lt in H1. lia.
    + intros Hx. apply elem_of_cons in Hx as [-> | Hx]; [exact Hne | auto].
Qed.

Lemma erase_perm m e : ordered m -> e ∈ m -> m ≡ₚ e :: StdMap.erase (fst e) m.
Proof.
  induction m as [| e0 m IH]; simpl.
  - intros _ H. apply elem_of_nil in H. contradiction.
  - rewrite ordered_cons. intros [H1 H2] He.
    destruct (Z.eqb_spec (fst e0) (fst e)) as [Heq | Hne].
    + apply elem_of_cons in He as [-> | He]; [reflexivity |].
      rewrite Forall_forall in H1. specialize (H1 e He).
      unfold key_lt in H1. lia.
    + apply elem_of_cons in He as [-> | He]; [contradiction |].
      rewrite (IH H2 He) at 1. apply perm_swap.
Qed.

Lemma insert_elem e m x : x ∈ StdMap.insert e m -> x = e \/ x ∈ m.
Proof.
  induction m as [| e0 m IH]; simpl.
  - intros H. apply list_elem_of_singleton in H. left. exact H.
  - destruct (fst e <? fst e0).
    + intros H. apply elem_of_cons in H as [-> | H]; [left | right]; auto.
    + destruct (fst e =? fst e0); [intros H; right; exact H |].
      intros H. apply elem_of_cons in H as [-> | H]; [right; left |].
      destruct (IH H) as [-> | H']; [left; reflexivity | right; right; exact H'].
Qed.

Lemma insert_Forall (P : StdMap.entry -> Prop) e m :
  P e -> Forall P m -> Forall P (StdMap.insert e m).
Proof.
  rewrite !Forall_forall. intros He H x Hx.
  apply insert_elem in Hx as [-> | Hx]; auto.
Qed.

Lemma insert_ordered e m : ordered m -> ordered (StdMap.insert e m).
Proof.
  induction m as [| e0 m IH]; simpl.
  - intros _. apply ordered_cons. split; constructor.
  - intros H. pose proof H as H'. apply ordered_cons in H' as [H1 H2].
    destruct (Z.ltb_spec (fst e) (fst e0)) as [Hlt | Hge].
    + apply ordered_cons. split; [| exact H].
      constructor; [exact Hlt |].
      eapply Forall_impl; [exact H1 |]. unfold key_lt. intros x Hx. lia.
    + destruct (Z.eqb_spec (fst e) (fst e0)) as [Heq | Hne]; [exact H |].
      apply ordered_cons. split; [| apply IH, H2].
      apply insert_Forall; [unfold key_lt; lia | exact H1].
Qed.

Lemma insert_perm e m :
  Forall (fun x => fst x <> fst e) m -> StdMap.insert e m ≡ₚ e :: m.
Proof.
  induction m as [| e0 m IH]; simpl; [reflexivity |].
  intros H. apply Forall_cons in H as [H0 H].
  destruct (fst e <? fst e0); [reflexivity |].
  destruct (Z.eqb_spec (fst e) (fst e0)) as [Heq | Hne]; [congruence |].
  rewrite (IH H). apply perm_swap.
Qed.

Lemma upper_bound_app k m :
  m = fst (StdMap.upper_bound k m) ++ snd (StdMap.upper_bound k m).
Proof.
  induction m as [| e m IH]; simpl; [reflexivity |].
  destruct (k <? fst e); [reflexivity |].
  destruct (StdMap.upper_bound k m) as [before after]. simpl in *.
  rewrite <- IH. reflexivity.
Qed.

Lemma upper_bound_before k m :
  Forall (fun e => fst e <= k) (fst (StdMap.upper_bound k m)).
Proof.
  induction m as [| e m IH]; simpl; [constructor |].
  destruct (Z.ltb_spec k (fst e)); [constructor |].
  destruct (StdMap.upper_bound k m) as [before after]. simpl in *.
  constructor; assumption.
Qed.

Lemma upper_bound_after k m :
  ordered m -> Forall (fun e => k < fst e) (snd (StdMap.upper_bound k m)).
Proof.
  induction m as [| e m IH]; simpl; [constructor |].
  rewrite ordered_cons. intros [H1 H2].
  destruct (Z.ltb_spec k (fst e)) as [Hlt | Hge].
  - simpl. constructor; [exact Hlt |].
    eapply Forall_impl; [exact H1 |]. unfold key_lt. intros x Hx. lia.
  - specialize (IH H2).
    destruct (StdMap.upper_bound k m) as [before after]. exact IH.
Qed.

(** In an ordered map, the entry of key [k], if any, is the predecessor of
    [upper_bound(k)]. *)
Lemma upper_bound_previous k m e :
  ordered m -> e ∈ m -> fst e = k ->
  last (fst (StdMap.upper_bound k m)) = Some e.
Proof.
  intros Hord He Hk.
  pose proof (upper_bound_app k m) as Happ.
  pose proof (upper_bound_before k m) as Hbefore.
  pose proof (upper_bound_after k m Hord) as Hafter.
  destruct (StdMap.upper_bound k m) as [before after]. simpl in *.
  subst m. apply elem_of_app in He as [He | He].
  - unfold ordered in Hord. apply StronglySorted_app_1_l in Hord.
    clear Hafter. induction before as [| x before _] using rev_ind.
    + apply elem_of_nil in He. contradiction.
    + rewrite last_snoc. f_equal.
      apply elem_of_app in He as [He | He].
      * assert (Hlt : key_lt e x).
        { eapply StronglySorted_app_1_elem_of; [exact Hord | exact He |].
          apply list_elem_of_singleton. reflexivity. }
        rewrite Forall_app in Hbefore. destruct Hbefore as [_ Hx].
        apply Forall_inv in Hx. unfold key_lt in Hlt. lia.
      * apply list_elem_of_singleton in He. congruence.
  - rewrite Forall_forall in Hafter. specialize (Hafter e He). lia.
Qed.

End StdMapFacts.

(** ** The accesses of the chunks *)

Section Traversal.
Import SliceBuilder.

Lemma merge_overlaps_split c m overlaps :
  merge_overlaps c m overlaps = (merge_all c overlaps, erase_all overlaps m).
Proof.
  unfold merge_overlaps, merge_all, erase_all.
  revert c m. induction overlaps as [| o overlaps IH]; intros c m; simpl.
  - reflexivity.
  - apply IH.
Qed.

Lemma traversal_cons e m :
  Props.traversal (e :: m) = Chunk.accesses (snd e) ++ Props.traversal m.
Proof. reflexivity. Qed.

Lemma traversal_app m m' :
  Props.traversal (m ++ m') = Props.traversal m ++ Props.traversal m'.
Proof.
  unfold Props.traversal, StdMap.chunks. rewrite !map_app, concat_app.
  reflexivity.
Qed.

Lemma traversal_perm m m' : m ≡ₚ m' -> Props.traversal m ≡ₚ Props.traversal m'.
Proof.
  induction 1 as [| e m m' _ IH | e e' m | m m' m'' _ IH1 _ IH2].
  - reflexivity.
  - rewrite !traversal_cons, IH. reflexivity.
  - rewrite !traversal_cons, !List.app_assoc.
    apply Permutation_app_tail, Permutation_app_comm.
  - etransitivity; eassumption.
Qed.

Lemma merge_all_accesses c overlaps :
  Chunk.accesses (merge_all c overlaps)
  = Chunk.accesses c ++ Props.traversal overlaps.
Proof.
  unfold merge_all. revert c.
  induction overlaps as [| o overlaps IH]; intros c; simpl.
  - rewrite app_nil_r. reflexivity.
  - rewrite IH, traversal_cons. simpl. unfold Chunk.accesses. simpl.
    rewrite <- List.app_assoc. reflexivity.
Qed.

Lemma merge_in_bounded c other :
  bounded c -> bounded other -> bounded (Chunk.merge_in c other).
Proof.
  unfold bounded, Chunk.merge_in, Chunk.address_first, Chunk.address_last.
  simpl. lia.
Qed.

Lemma merge_all_bounded c overlaps :
  bounded c -> Forall (fun e => bounded (snd e)) overlaps ->
  bounded (merge_all c overlaps).
Proof.
  unfold merge_all. revert c.
  induction overlaps as [| o overlaps IH]; intros c Hc Ho; simpl.
  - exact Hc.
  - apply Forall_cons in Ho as [Ho1 Ho2].
    apply IH; [apply merge_in_bounded; assumption | exact Ho2].
Qed.

Lemma merge_all_first c overlaps :
  Chunk.address_first (merge_all c overlaps) = Chunk.address_first c
  \/ exists o, o ∈ overlaps
       /\ Chunk.address_first (merge_all c overlaps)
          = Chunk.address_first (snd o).
Proof.
  unfold merge_all. revert c.
  induction overlaps as [| o overlaps IH]; intros c; simpl.
  - left. reflexivity.
  - destruct (IH (Chunk.merge_in c (snd o))) as [H | (o' & Ho' & H)].
    + rewrite H. unfold Chunk.merge_in, Chunk.address_first at 1 4. simpl.
      destruct (Z.min_spec (Chunk.address_first c) (Chunk.address_first (snd o)))
        as [[_ ->] | [_ ->]].
      * left. reflexivity.
      * right. exists o. split; [left | reflexivity].
    + right. exists o'. split; [right; exact Ho' | exact H].
Qed.

Lemma erase_all_ordered overlaps m : ordered m -> ordered (erase_all overlaps m).
Proof.
  unfold erase_all. revert m.
  induction overlaps as [| o overlaps IH]; intros m H; simpl.
  - exact H.
  - apply IH, erase_ordered, H.
Qed.

Lemma erase_all_elem overlaps m x :
  ordered m -> x ∈ erase_all overlaps m ->
  x ∈ m /\ forall o, o ∈ overlaps -> fst x <> fst o.
Proof.
  unfold erase_all. revert m.
  induction overlaps as [| o overlaps IH]; intros m Hord Hx; simpl in *.
  - split; [exact Hx |]. intros o Ho. apply elem_of_nil in Ho. contradiction.
  - apply IH in Hx as [Hx Hne]; [| apply erase_ordered, Hord].
    split; [eapply erase_elem, Hx |].
    intros o' Ho'. apply elem_of_cons in Ho' as [-> | Ho'].
    + eapply erase_no_key; eassumption.
    + apply Hne, Ho'.
Qed.

Lemma erase_all_Forall (P : StdMap.entry -> Prop) overlaps m :
  Forall P m -> Forall P (erase_all overlaps m).
Proof.
  unfold erase_all. revert m.
  induction overlaps as [| o overlaps IH]; intros m H; simpl.
  - exact H.
  - apply IH, erase_Forall, H.
Qed.

Lemma erase_all_perm overlaps m :
  ordered m -> ordered overlaps -> (forall o, o ∈ overlaps -> o ∈ m) ->
  m ≡ₚ overlaps ++ erase_all overlaps m.
Proof.
  revert m. induction overlaps as [| o overlaps IH]; intros m Hm Ho Hin.
  - reflexivity.
  - apply ordered_cons in Ho as [Ho1 Ho2].
    change (erase_all (o :: overlaps) m)
      with (erase_all overlaps (StdMap.erase (fst o) m)).
    rewrite (erase_perm m o Hm) at 1 by (apply Hin; left).
    simpl. apply perm_skip. apply IH.
    + apply erase_ordered, Hm.
    + exact Ho2.
    + intros o' Ho'. apply erase_elem_ne; [apply Hin; right; exact Ho' |].
      rewrite Forall_forall in Ho1. specialize (Ho1 o' Ho').
      unfold key_lt in Ho1. lia.
Qed.

Lemma walk_forward_prefix c next :
  exists rest, next = walk_forward c next ++ rest.
Proof.
  induction next as [| e next [rest IH]]; simpl.
  - exists []. reflexivity.
  - destruct (Chunk.overlaps (snd e) c).
    + exists rest. simpl. rewrite <- IH. reflexivity.
    + exists (e :: next). reflexivity.
Qed.

(** What [find_overlaps] returns: at most the last entry before
    [upper_bound(address)], then a prefix of the entries from it on. *)
Lemma find_overlaps_shape c address m :
  exists previous rest,
    find_overlaps c address m
    = previous ++ walk_forward c (snd (StdMap.upper_bound address m))
    /\ snd (StdMap.upper_bound address m)
       = walk_forward c (snd (StdMap.upper_bound address m)) ++ rest
    /\ (previous = []
        \/ exists e, previous = [e]
             /\ last (fst (StdMap.upper_bound address m)) = Some e
             /\ Chunk.overlaps (snd e) c = true).
Proof.
  unfold find_overlaps.
  destruct (StdMap.upper_bound address m) as [before next]. simpl.
  destruct (walk_forward_prefix c next) as [rest Hrest].
  destruct (last before) as [e |] eqn:Hlast.
  - destruct (Chunk.overlaps (snd e) c) eqn:Ho.
    + exists [e], rest. split; [reflexivity |]. split; [exact Hrest |].
      right. exists e. repeat split; reflexivity || assumption.
    + exists [], rest. split; [reflexivity |]. split; [exact Hrest |].
      left. reflexivity.
  - exists [], rest. split; [reflexivity |]. split; [exact Hrest |].
    left. reflexivity.
Qed.

Lemma last_elem {A} (l : list A) (x : A) : last l = Some x -> x ∈ l.
Proof.
  induction l as [| y l _] using rev_ind; [discriminate |].
  rewrite last_snoc. intros H. injection H as ->.
  apply elem_of_app. right. left.
Qed.

Lemma find_overlaps_elem c address m o :
  o ∈ find_overlaps c address m -> o ∈ m.
Proof.
  destruct (find_overlaps_shape c address m)
    as (previous & rest & -> & Hrest & Hprev).
  rewrite (upper_bound_app address m) at 2.
  intros Ho. apply elem_of_app in Ho as [Ho | Ho]; apply elem_of_app.
  - left. destruct Hprev as [-> | (e & -> & Hlast & _)].
    + apply elem_of_nil in Ho. contradiction.
    + apply list_elem_of_singleton in Ho as ->. apply last_elem, Hlast.
  - right. rewrite Hrest. apply elem_of_app. left. exact Ho.
Qed.

Lemma find_overlaps_ordered c address m :
  ordered m -> ordered (find_overlaps c address m).
Proof.
  intros Hord.
  destruct (find_overlaps_shape c address m)
    as (previous & rest & -> & Hrest & Hprev).
  unfold ordered in *. rewrite (upper_bound_app address m) in Hord.
  apply StronglySorted_app_2.
  - intros x1 x2 H1 H2.
    eapply StronglySorted_app_1_elem_of; [exact Hord | |].
    + destruct Hprev as [-> | (e & -> & Hlast & _)].
      * apply elem_of_nil in H1. contradiction.
      * apply list_elem_of_singleton in H1 as ->. apply last_elem, Hlast.
    + rewrite Hrest. apply elem_of_app. left. exact H2.
  - destruct Hprev as [-> | (e & -> & _)]; repeat constructor.
  - apply StronglySorted_app_1_r in Hord. rewrite Hrest in Hord.
    apply StronglySorted_app_1_l in Hord. exact Hord.
Qed.

(** No key collision at line 192: an entry keyed by the address of the new
    access overlaps it, so it is among the entries merged and erased. *)
Lemma find_overlaps_same_key c address m e :
  ordered m -> keyed m -> bounded c -> Chunk.address_first c = address ->
  e ∈ m -> fst e = address ->
  e ∈ find_overlaps c address m.
Proof.
  intros Hord Hkeyed Hc Hfirst He Hk.
  pose proof (upper_bound_previous address m e Hord He Hk) as Hlast.
  unfold find_overlaps.
  destruct (StdMap.upper_bound address m) as [before next]. simpl in Hlast.
  rewrite Hlast.
  unfold keyed in Hkeyed. rewrite Forall_forall in Hkeyed.
  destruct (Hkeyed e He) as [Hkey Hb].
  assert (Ho : Chunk.overlaps (snd e) c = true).
  { apply overlaps_below_max; [exact Hb | exact Hc |].
    exists address. unfold Chunk.covers, bounded in *.
    rewrite <- Hkey, Hk, Hfirst. lia. }
  rewrite Ho. left.
Qed.

Lemma merged_key_free c address m :
  ordered m -> keyed m -> bounded c -> Chunk.address_first c = address ->
  Forall (fun x => fst x <> Chunk.address_first
                              (merge_all c (find_overlaps c address m)))
         (erase_all (find_overlaps c address m) m).
Proof.
  intros Hord Hkeyed Hc Hfirst. apply Forall_forall. intros x Hx Heq.
  apply erase_all_elem in Hx as [Hxm Hne]; [| exact Hord].
  destruct (merge_all_first c (find_overlaps c address m))
    as [H | (o & Ho & H)].
  - apply (Hne x); [| reflexivity].
    eapply find_overlaps_same_key; try eassumption. congruence.
  - apply (Hne o Ho). rewrite Heq, H.
    unfold keyed in Hkeyed. rewrite Forall_forall in Hkeyed.
    destruct (Hkeyed o (find_overlaps_elem _ _ _ _ Ho)) as [<- _]. reflexivity.
Qed.

End Traversal.

(** ** Arrival order and the order inside a chunk *)

Section ArrivalOrder.
Import SliceBuilder.

Lemma find_overlaps_if_empty c address m :
  (if StdMap.empty m then [] else find_overlaps c address m)
  = find_overlaps c address m.
Proof. destruct m; reflexivity. Qed.

(** The chunk map an accepted insert leaves: the overlapping entries are
    erased and the merged chunk is inserted under its first address. *)
Lemma insert_inserted_map b p icount address size access b' :
  insert b p icount address size = (Inserted access, b') ->
  let m := Slice.access_chunks_ (slice_ b) in
  let c := Chunk.make p icount address (wrap32 size) in
  let overlaps := find_overlaps c address m in
  size <> 0
  /\ (wrap64 (address - 1 + size) <? address) = false
  /\ Slice.access_chunks_ (slice_ b')
     = StdMap.insert (Chunk.address_first (merge_all c overlaps),
                      merge_all c overlaps)
         (erase_all overlaps m).
Proof.
  unfold insert. intros H.
  destruct (Z.eqb_spec size 0) as [| Hs]; [discriminate |].
  cbv zeta in H.
  repeat match type of H with
         | context [if ?x then _ else _] => destruct x eqn:?
         end; try discriminate.
  all: cbn -[merge_overlaps find_overlaps] in *.
  all: rewrite merge_overlaps_split in H.
  all: injection H as _ <-; cbn -[find_overlaps merge_all erase_all].
  all: repeat split; try assumption.
  all: repeat match goal with
       | H : StdMap.empty ?m = true |- _ =>
           destruct m; [clear H | discriminate H]
       end; try reflexivity.
Qed.

Lemma make_bounded p icount address size :
  0 <= address -> 1 <= size < 2 ^ 32 -> address + size - 1 < u64_max ->
  bounded (Chunk.make p icount address (wrap32 size))
  /\ Chunk.address_first (Chunk.make p icount address (wrap32 size)) = address.
Proof.
  intros Ha Hs Hlast. split; [| reflexivity].
  unfold bounded, Chunk.make, Chunk.address_first, Chunk.address_last. simpl.
  rewrite wrap32_small by lia. rewrite wrap64_small by lia. lia.
Qed.

Lemma insert_holds accesses b p icount address size :
  Props.below_max (p, icount, address, size) ->
  holds accesses b ->
  holds (accesses ++ Props.accepted [fst (insert b p icount address size)])
        (snd (insert b p icount address size)).
Proof.
  intros (Ha & Hs & Hlast) (Hord & Hkeyed & Hperm).
  destruct (insert b p icount address size) as [r b'] eqn:Hi. simpl.
  destruct r as [access | |].
  - pose proof (insert_inserted _ _ _ _ _ _ _ Hi) as (-> & _).
    apply insert_inserted_map in Hi as (Hnz & _ & Hm).
    destruct (make_bounded p icount address size Ha ltac:(lia) Hlast)
      as [Hc Hfirst].
    set (c := Chunk.make p icount address (wrap32 size)) in *.
    set (m := Slice.access_chunks_ (slice_ b)) in *.
    set (overlaps := find_overlaps c address m) in *.
    assert (Hin : forall o, o ∈ overlaps -> o ∈ m)
      by (intros o; apply find_overlaps_elem).
    assert (Hob : Forall (fun e => bounded (snd e)) overlaps).
    { apply Forall_forall. intros o Ho.
      unfold keyed in Hkeyed. rewrite Forall_forall in Hkeyed.
      apply (Hkeyed o (Hin o Ho)). }
    unfold holds. rewrite Hm. split; [| split].
    + apply insert_ordered, erase_all_ordered, Hord.
    + apply insert_Forall.
      * split; [reflexivity | apply merge_all_bounded; assumption].
      * apply erase_all_Forall, Hkeyed.
    + rewrite (traversal_perm _ _
                 (insert_perm
                    (Chunk.address_first (merge_all c overlaps),
                     merge_all c overlaps)
                    (erase_all overlaps m)
                    (merged_key_free c address m Hord Hkeyed Hc Hfirst))).
      rewrite traversal_cons. simpl snd. rewrite merge_all_accesses.
      rewrite <- List.app_assoc, <- traversal_app.
      rewrite <- (traversal_perm _ _
                    (erase_all_perm overlaps m Hord
                       (find_overlaps_ordered c address m Hord) Hin)).
      rewrite Hperm. simpl. apply Permutation_cons_append.
  - apply insert_refused in Hi as (Hm & _). unfold holds.
    rewrite Hm, app_nil_r. repeat split; assumption.
  - apply insert_invalid in Hi as (Hm & _). unfold holds.
    rewrite Hm, app_nil_r. repeat split; assumption.
Qed.

Lemma accepted_app rs rs' :
  Props.accepted (rs ++ rs') = Props.accepted rs ++ Props.accepted rs'.
Proof.
  induction rs as [| r rs IH]; simpl; [reflexivity |].
  destruct r; simpl; rewrite ?IH; reflexivity.
Qed.

Lemma inserts_holds calls :
  forall accesses b,
    Forall Props.below_max calls ->
    holds accesses b ->
    holds (accesses ++ Props.accepted (fst (inserts b calls)))
          (snd (inserts b calls)).
Proof.
  induction calls as [| c calls IH]; intros accesses b Hcalls Hb.
  - simpl. rewrite app_nil_r. exact Hb.
  - apply Forall_cons in Hcalls as [Hc Hcalls].
    destruct c as [[[p icount] address] size].
    rewrite inserts_cons. cbn [fst snd].
    match goal with
    | |- context [Props.accepted (?r :: ?rs)] =>
        change (Props.accepted (r :: rs)) with (Props.accepted ([r] ++ rs))
    end.
    rewrite accepted_app, List.app_assoc.
    apply IH; [exact Hcalls |].
    apply insert_holds; assumption.
Qed.

(** The post-processing merge links the nodes of the right-hand chunk after
    those of the left-hand one: the traversal of the map does not change. *)
Lemma merge_loop_traversal touch_limit current rest :
  Props.traversal (merge_loop touch_limit current rest)
  = Props.traversal (current :: rest).
Proof.
  revert current. induction rest as [| next rest IH]; intros current; simpl.
  - reflexivity.
  - destruct (_ && _).
    + rewrite IH, !traversal_cons. simpl.
      unfold Chunk.accesses. simpl. rewrite <- List.app_assoc. reflexivity.
    + rewrite traversal_cons, IH. reflexivity.
Qed.

Lemma build_traversal b :
  Props.traversal (Slice.access_chunks_ (build b))
  = Props.traversal (Slice.access_chunks_ (slice_ b)).
Proof.
  unfold build, merge.
  destruct (Slice.access_chunks_ (slice_ b)) as [| current rest] eqn:Hm.
  - rewrite Hm. reflexivity.
  - simpl. apply merge_loop_traversal.
Qed.

(** C2 as stated fails: two overlapping accesses on transitions 0 and 1
    end in one chunk whose list starts with the access of transition 1:
    line 187 merges the existing chunk into the chunk of the new access, so
    the new node is the head. *)
Lemma chunk_list_not_in_arrival_order :
  let '(rs, b) := inserts init [(0%nat, 0, 10, 5); (1%nat, 1, 12, 5)] in
  exists c,
    Slice.chunks (build b) = [c]
    /\ Props.accepted rs = [ChunkAccess.make 0%nat 0 10 5;
                            ChunkAccess.make 1%nat 1 12 5]
    /\ Chunk.accesses c = [ChunkAccess.make 1%nat 1 12 5;
                           ChunkAccess.make 0%nat 0 10 5]
    /\ Chunk.accesses c <> Props.accepted rs
    /\ map ChunkAccess.transition (Chunk.accesses c) = [1; 0].
Proof.
  vm_compute. eexists. repeat split; try reflexivity. discriminate.
Qed.

(** C2, amended: for inserts whose accesses end below [u64_max] and whose
    sizes fit 32 bits, traversing the chunks of the built slice, each from
    its head via [next()], visits exactly the accepted accesses, each once:
    the visit is a permutation of the arrival order, not the arrival order
    itself. *)
Theorem chunk_lists_permute_arrival_order overlap touch transitions count calls :
  Forall Props.below_max calls ->
  let '(rs, b) := inserts (Props.configure overlap touch transitions count) calls in
  Props.traversal (Slice.access_chunks_ (build b)) ≡ₚ Props.accepted rs.
Proof.
  intros Hcalls.
  pose proof (inserts_holds calls []
                (Props.configure overlap touch transitions count) Hcalls)
    as (_ & _ & H).
  { repeat split; constructor. }
  destruct (inserts _ calls) as [rs b]. simpl in H.
  rewrite build_traversal. exact H.
Qed.

Lemma chunk_lists_permute_arrival_order_witness :
  Props.traversal
    (Slice.access_chunks_
       (build (snd (inserts (Props.configure None None None None)
                      [(0%nat, 0, 10, 5); (1%nat, 1, 12, 5); (2%nat, 2, 100, 4)]))))
  ≡ₚ Props.accepted
       (fst (inserts (Props.configure None None None None)
               [(0%nat, 0, 10, 5); (1%nat, 1, 12, 5); (2%nat, 2, 100, 4)])).
Proof.
  apply (chunk_lists_permute_arrival_order None None None None
           [(0%nat, 0, 10, 5); (1%nat, 1, 12, 5); (2%nat, 2, 100, 4)]).
  repeat (constructor; [unfold Props.below_max, u64_max; lia |]).
  constructor.
Defined.

End ArrivalOrder.

(** ** Non-overlap below the top of the address space *)

Section Separation.
Import SliceBuilder.

Lemma erase_separated k m : separated m -> separated (StdMap.erase k m).
Proof.
  unfold separated.
  induction m as [| e m IH]; simpl; [intros H; exact H |].
  rewrite StronglySorted_cons. intros [H1 H2].
  destruct (fst e =? k); [exact H2 |].
  apply StronglySorted_cons. split; [apply erase_Forall, H1 | apply IH, H2].
Qed.

Lemma erase_all_separated overlaps m :
  separated m -> separated (erase_all overlaps m).
Proof.
  unfold erase_all. revert m.
  induction overlaps as [| o overlaps IH]; intros m H; simpl.
  - exact H.
  - apply IH, erase_separated, H.
Qed.

(** With keys that are the first addresses, separated chunks are in key
    order. *)
Lemma separated_ordered m : keyed m -> separated m -> ordered m.
Proof.
  unfold keyed, separated, ordered.
  induction m as [| e m IH]; [constructor |].
  rewrite Forall_cons, !StronglySorted_cons. intros [[Hk Hb] Hm] [H1 H2].
  split; [| apply IH; assumption].
  rewrite Forall_forall in *. intros x Hx.
  specialize (H1 x Hx). destruct (Hm x Hx) as [Hkx Hbx].
  unfold key_lt, ends_before, bounded in *. lia.
Qed.

Lemma separated_pairwise m x y :
  separated m -> x ∈ m -> y ∈ m ->
  x = y \/ ends_before x y \/ ends_before y x.
Proof.
  unfold separated.
  induction m as [| e m IH]; intros Hm Hx Hy.
  - apply elem_of_nil in Hx. contradiction.
  - apply StronglySorted_cons in Hm as [H1 H2]. rewrite Forall_forall in H1.
    apply elem_of_cons in Hx as [-> | Hx]; apply elem_of_cons in Hy as [-> | Hy].
    + left. reflexivity.
    + right. left. apply H1, Hy.
    + right. right. apply H1, Hx.
    + apply IH; assumption.
Qed.

Lemma walk_forward_stop c next :
  exists rest,
    next = walk_forward c next ++ rest
    /\ match rest with
       | [] => True
       | y :: _ => Chunk.overlaps (snd y) c = false
       end.
Proof.
  induction next as [| e next (rest & IH1 & IH2)]; simpl.
  - exists []. split; [reflexivity | exact I].
  - destruct (Chunk.overlaps (snd e) c) eqn:Ho.
    + exists rest. split; [simpl; rewrite <- IH1; reflexivity | exact IH2].
    + exists (e :: next). split; [reflexivity | exact Ho].
Qed.

Lemma find_overlaps_overlap c address m o :
  o ∈ find_overlaps c address m -> Chunk.overlaps (snd o) c = true.
Proof.
  unfold find_overlaps.
  destruct (StdMap.upper_bound address m) as [previous next].
  intros Ho. apply elem_of_app in Ho as [Ho | Ho].
  - destruct (last previous) as [e |]; [| apply elem_of_nil in Ho; contradiction].
    destruct (Chunk.overlaps (snd e) c) eqn:He.
    + apply list_elem_of_singleton in Ho as ->. exact He.
    + apply elem_of_nil in Ho. contradiction.
  - clear previous. induction next as [| e next IH]; simpl in Ho.
    + apply elem_of_nil in Ho. contradiction.
    + destruct (Chunk.overlaps (snd e) c) eqn:He.
      * apply elem_of_cons in Ho as [-> | Ho]; [exact He | apply IH, Ho].
      * apply elem_of_nil in Ho. contradiction.
Qed.

(** The search of lines 155-171 is complete: an entry it leaves out is
    disjoint from the new chunk. *)
Lemma find_overlaps_complete c address m x :
  keyed m -> separated m -> bounded c -> Chunk.address_first c = address ->
  x ∈ m -> x ∉ find_overlaps c address m ->
  Props.disjoint (snd x) c.
Proof.
  intros Hkeyed Hsep Hc Hfirst Hx Hnot.
  pose proof (upper_bound_app address m) as Happ.
  pose proof (upper_bound_before address m) as Hbefore.
  pose proof (upper_bound_after address m (separated_ordered m Hkeyed Hsep))
    as Hafter.
  unfold find_overlaps in Hnot.
  destruct (StdMap.upper_bound address m) as [previous next]. simpl in *.
  unfold keyed in Hkeyed. rewrite Forall_forall in Hkeyed.
  destruct (Hkeyed x Hx) as [Hkx Hbx].
  rewrite elem_of_app in Hnot.
  unfold separated in Hsep. rewrite Happ in Hsep, Hx.
  apply elem_of_app in Hx as [Hx | Hx].
  - induction previous as [| e previous _] using rev_ind.
    + apply elem_of_nil in Hx. contradiction.
    + rewrite last_snoc in Hnot.
      assert (He : e ∈ m)
        by (rewrite Happ; apply elem_of_app; left; apply elem_of_app; right; left).
      destruct (Hkeyed e He) as [Hke Hbe].
      rewrite Forall_app in Hbefore. destruct Hbefore as [_ Hle].
      apply Forall_inv in Hle.
      apply elem_of_app in Hx as [Hx | Hx].
      * apply StronglySorted_app_1_l in Hsep.
        assert (Hlt : ends_before x e).
        { eapply StronglySorted_app_1_elem_of; [exact Hsep | exact Hx | left]. }
        left. unfold ends_before, bounded in *. lia.
      * apply list_elem_of_singleton in Hx as ->.
        destruct (Chunk.overlaps (snd e) c) eqn:Ho.
        -- exfalso. apply Hnot. left. left.
        -- apply overlaps_false_disjoint; assumption.
  - destruct (walk_forward_stop c next) as (rest & Hrest & Hstop).
    rewrite Hrest in Hx. apply elem_of_app in Hx as [Hx | Hx];
      [exfalso; apply Hnot; right; exact Hx |].
    destruct rest as [| y rest]; [apply elem_of_nil in Hx; contradiction |].
    assert (Hy : y ∈ next)
      by (rewrite Hrest; apply elem_of_app; right; left).
    assert (Hym : y ∈ m)
      by (rewrite Happ; apply elem_of_app; right; exact Hy).
    destruct (Hkeyed y Hym) as [Hky Hby].
    rewrite Forall_forall in Hafter. specialize (Hafter y Hy).
    apply overlaps_false_disjoint in Hstop; [| assumption | assumption].
    apply elem_of_cons in Hx as [-> | Hx]; [exact Hstop |].
    apply StronglySorted_app_1_r in Hsep. rewrite Hrest in Hsep.
    apply StronglySorted_app_1_r in Hsep.
    apply StronglySorted_cons in Hsep as [Hsep _].
    rewrite Forall_forall in Hsep. specialize (Hsep x Hx).
    right. unfold Props.disjoint, ends_before, bounded in *. lia.
Qed.

Lemma merge_all_above z c overlaps :
  z < Chunk.address_first c ->
  Forall (fun o => z < Chunk.address_first (snd o)) overlaps ->
  z < Chunk.address_first (merge_all c overlaps).
Proof.
  unfold merge_all. revert c.
  induction overlaps as [| o overlaps IH]; intros c Hc Ho; simpl.
  - exact Hc.
  - apply Forall_cons in Ho as [Ho1 Ho2]. apply IH; [| exact Ho2].
    unfold Chunk.merge_in, Chunk.address_first in *. simpl. lia.
Qed.

Lemma merge_all_below z c overlaps :
  Chunk.address_last c < z ->
  Forall (fun o => Chunk.address_last (snd o) < z) overlaps ->
  Chunk.address_last (merge_all c overlaps) < z.
Proof.
  unfold merge_all. revert c.
  induction overlaps as [| o overlaps IH]; intros c Hc Ho; simpl.
  - exact Hc.
  - apply Forall_cons in Ho as [Ho1 Ho2]. apply IH; [| exact Ho2].
    unfold Chunk.merge_in, Chunk.address_last in *. simpl. lia.
Qed.

(** An entry left in the map is disjoint from the merged chunk. *)
Lemma merged_disjoint c address m x :
  keyed m -> separated m -> bounded c -> Chunk.address_first c = address ->
  x ∈ erase_all (find_overlaps c address m) m ->
  Props.disjoint (snd x) (merge_all c (find_overlaps c address m)).
Proof.
  intros Hkeyed Hsep Hc Hfirst Hx.
  pose proof (separated_ordered m Hkeyed Hsep) as Hord.
  apply erase_all_elem in Hx as [Hx Hne]; [| exact Hord].
  assert (Hnot : x ∉ find_overlaps c address m).
  { intros Hin. apply (Hne x Hin). reflexivity. }
  pose proof (find_overlaps_complete c address m x Hkeyed Hsep Hc Hfirst Hx Hnot)
    as Hdis.
  pose proof Hkeyed as Hk. unfold keyed in Hk. rewrite Forall_forall in Hk.
  destruct (Hk x Hx) as [_ Hbx].
  assert (Hall : forall o, o ∈ find_overlaps c address m ->
                   bounded (snd o) /\ Props.share_address (snd o) c
                   /\ Props.disjoint (snd x) (snd o)).
  { intros o Ho. pose proof (find_overlaps_elem _ _ _ _ Ho) as Hom.
    destruct (Hk o Hom) as [_ Hbo].
    split; [exact Hbo |]. split.
    - apply overlaps_below_max; [exact Hbo | exact Hc |].
      eapply find_overlaps_overlap, Ho.
    - destruct (separated_pairwise m x o Hsep Hx Hom) as [-> | [H | H]].
      + contradiction.
      + left. exact H.
      + right. exact H. }
  destruct Hdis as [Hleft | Hright].
  - left. apply merge_all_above; [exact Hleft |].
    apply Forall_forall. intros o Ho.
    destruct (Hall o Ho) as (Hbo & (y & Hy1 & Hy2) & Hd).
    unfold Props.disjoint, Chunk.covers, bounded in *. lia.
  - right. apply merge_all_below; [exact Hright |].
    apply Forall_forall. intros o Ho.
    destruct (Hall o Ho) as (Hbo & (y & Hy1 & Hy2) & Hd).
    unfold Props.disjoint, Chunk.covers, bounded in *. lia.
Qed.

Lemma insert_separated e m :
  ordered m -> separated m ->
  Forall (fun x => (fst x < fst e -> ends_before x e)
                   /\ (fst e < fst x -> ends_before e x)
                   /\ fst x <> fst e) m ->
  separated (StdMap.insert e m).
Proof.
  unfold ordered, separated.
  induction m as [| e0 m IH]; simpl; intros Hord Hsep Hall.
  - repeat constructor.
  - apply StronglySorted_cons in Hord as [Ho1 Ho2].
    pose proof Hsep as Hsep'. apply StronglySorted_cons in Hsep' as [Hs1 Hs2].
    apply Forall_cons in Hall as [(Hlt0 & Hgt0 & Hne0) Hall].
    destruct (Z.ltb_spec (fst e) (fst e0)) as [Hlt | Hge].
    + apply StronglySorted_cons. split; [| exact Hsep].
      constructor; [apply Hgt0, Hlt |].
      rewrite Forall_forall in *. intros x Hx.
      destruct (Hall x Hx) as (_ & Hgt & _). apply Hgt.
      specialize (Ho1 x Hx). unfold key_lt in Ho1. lia.
    + destruct (Z.eqb_spec (fst e) (fst e0)) as [Heq | Hne]; [congruence |].
      apply StronglySorted_cons. split; [| apply IH; assumption].
      apply insert_Forall; [apply Hlt0; lia | exact Hs1].
Qed.

(** The chunk map is keyed by first addresses and its chunks are pairwise
    disjoint, in ascending order. *)
Lemma insert_keeps_separated b p icount address size :
  Props.below_max (p, icount, address, size) ->
  keyed (Slice.access_chunks_ (slice_ b)) ->
  separated (Slice.access_chunks_ (slice_ b)) ->
  keyed (Slice.access_chunks_ (slice_ (snd (insert b p icount address size))))
  /\ separated (Slice.access_chunks_
                  (slice_ (snd (insert b p icount address size)))).
Proof.
  intros (Ha & Hs & Hlast) Hkeyed Hsep.
  destruct (insert b p icount address size) as [r b'] eqn:Hi. simpl.
  destruct r as [access | |].
  - apply insert_inserted_map in Hi as (Hnz & _ & Hm).
    destruct (make_bounded p icount address size Ha ltac:(lia) Hlast)
      as [Hc Hfirst].
    set (c := Chunk.make p icount address (wrap32 size)) in *.
    set (m := Slice.access_chunks_ (slice_ b)) in *.
    set (overlaps := find_overlaps c address m) in *.
    pose proof (separated_ordered m Hkeyed Hsep) as Hord.
    assert (Hob : Forall (fun e => bounded (snd e)) overlaps).
    { apply Forall_forall. intros o Ho.
      unfold keyed in Hkeyed. rewrite Forall_forall in Hkeyed.
      apply (Hkeyed o (find_overlaps_elem _ _ _ _ Ho)). }
    pose proof (merge_all_bounded c overlaps Hc Hob) as Hmb.
    rewrite Hm. split.
    + apply insert_Forall.
      * split; [reflexivity | exact Hmb].
      * apply erase_all_Forall, Hkeyed.
    + apply insert_separated.
      * apply erase_all_ordered, Hord.
      * apply erase_all_separated, Hsep.
      * pose proof (merged_key_free c address m Hord Hkeyed Hc Hfirst) as Hfree.
        fold overlaps in Hfree.
        pose proof (erase_all_Forall _ overlaps m Hkeyed) as Hk'.
        rewrite Forall_forall in *. intros x Hx. simpl.
        pose proof (merged_disjoint c address m x Hkeyed Hsep Hc Hfirst Hx) as Hd.
        fold overlaps in Hd. destruct (Hk' x Hx) as [Hkx Hbx].
        specialize (Hfree x Hx). simpl in Hfree.
        unfold ends_before, Props.disjoint, bounded in *. simpl.
        repeat split; try assumption; intros; lia.
  - apply insert_refused in Hi as (-> & _). split; assumption.
  - apply insert_invalid in Hi as (-> & _). split; assumption.
Qed.

Lemma merge_loop_above z touch_limit current rest :
  Forall (fun x => z < Chunk.address_first (snd x)) (current :: rest) ->
  Forall (fun x => z < Chunk.address_first (snd x))
         (merge_loop touch_limit current rest).
Proof.
  revert current. induction rest as [| next rest IH]; intros current H; simpl.
  - exact H.
  - apply Forall_cons in H as [Hc H]. pose proof H as H'.
    apply Forall_cons in H' as [Hn Hr].
    destruct (_ && _).
    + apply IH. constructor; [| exact Hr].
      unfold Chunk.merge_in, Chunk.address_first in *. simpl. lia.
    + constructor; [exact Hc | apply IH, H].
Qed.

Lemma merge_loop_separated touch_limit current rest :
  separated (current :: rest) ->
  separated (merge_loop touch_limit current rest).
Proof.
  unfold separated. revert current.
  induction rest as [| next rest IH]; intros current H; simpl.
  - exact H.
  - apply StronglySorted_cons in H as [H1 H2]. pose proof H2 as H2'.
    apply StronglySorted_cons in H2' as [H3 H4].
    apply Forall_cons in H1 as [Hcn H1].
    destruct (_ && _).
    + apply IH. apply StronglySorted_cons. split; [| exact H4].
      rewrite Forall_forall in *. intros x Hx.
      specialize (H1 x Hx). specialize (H3 x Hx).
      unfold ends_before, Chunk.merge_in, Chunk.address_last in *.
      simpl in *. lia.
    + apply StronglySorted_cons. split; [| apply IH, H2].
      apply (merge_loop_above (Chunk.address_last (snd current))).
      constructor; [exact Hcn | exact H1].
Qed.

Lemma build_separated b :
  separated (Slice.access_chunks_ (slice_ b)) ->
  separated (Slice.access_chunks_ (build b)).
Proof.
  unfold build, merge.
  destruct (Slice.access_chunks_ (slice_ b)) as [| current rest] eqn:Hm.
  - rewrite Hm. intros H. exact H.
  - simpl. apply merge_loop_separated.
Qed.

Lemma separated_lookup m i j x y :
  separated m -> (i < j)%nat -> m !! i = Some x -> m !! j = Some y ->
  ends_before x y.
Proof.
  unfold separated. revert i j.
  induction m as [| e m IH]; intros i j Hm Hij Hx Hy.
  - discriminate Hx.
  - apply StronglySorted_cons in Hm as [H1 H2].
    destruct j as [| j]; [lia |]. simpl in Hy.
    destruct i as [| i]; simpl in Hx.
    + injection Hx as <-. rewrite Forall_forall in H1.
      apply H1. eapply list_elem_of_lookup_2, Hy.
    + eapply (IH i j); [exact H2 | lia | exact Hx | exact Hy].
Qed.

Lemma inserts_keep_separated calls :
  forall b,
    Forall Props.below_max calls ->
    keyed (Slice.access_chunks_ (slice_ b))
    /\ separated (Slice.access_chunks_ (slice_ b)) ->
    keyed (Slice.access_chunks_ (slice_ (snd (inserts b calls))))
    /\ separated (Slice.access_chunks_ (slice_ (snd (inserts b calls)))).
Proof.
  induction calls as [| call calls IH]; intros b Hcalls Hb.
  - exact Hb.
  - apply Forall_cons in Hcalls as [Hcall Hcalls].
    destruct call as [[[p icount] address] size].
    rewrite inserts_cons. cbn [fst snd]. apply IH; [exact Hcalls |].
    destruct Hb. apply insert_keeps_separated; assumption.
Qed.

(** X4: the non-overlap invariant, where the code keeps it: when every access
    ends below [u64_max] (and sizes fit 32 bits), any two distinct chunks of
    the chunk map are disjoint, after any number of inserts and in the slice
    that [build()] returns. *)
Theorem chunks_disjoint_below_u64_max overlap touch transitions count calls :
  Forall Props.below_max calls ->
  let b := snd (inserts (Props.configure overlap touch transitions count) calls) in
  forall chunks,
    chunks = Slice.chunks (slice_ b) \/ chunks = Slice.chunks (build b) ->
    forall i j a c,
      i <> j -> chunks !! i = Some a -> chunks !! j = Some c ->
      Props.disjoint a c.
Proof.
  intros Hcalls b.
  assert (Hinv : keyed (Slice.access_chunks_ (slice_ b))
                 /\ separated (Slice.access_chunks_ (slice_ b))).
  { apply inserts_keep_separated; [exact Hcalls |]. split; constructor. }
  destruct Hinv as [_ Hsep].
  assert (Hgen : forall m, separated m ->
            forall i j a c, i <> j ->
              StdMap.chunks m !! i = Some a -> StdMap.chunks m !! j = Some c ->
              Props.disjoint a c).
  { intros m Hm i j a c Hij Ha Hc.
    unfold StdMap.chunks in Ha, Hc.
    change (map snd m) with (snd <$> m) in Ha, Hc.
    rewrite list_lookup_fmap in Ha, Hc.
    apply fmap_Some in Ha as (x & Hx & ->).
    apply fmap_Some in Hc as (y & Hy & ->).
    destruct (Nat.lt_total i j) as [Hlt | [? | Hgt]]; [| contradiction |].
    - left. exact (separated_lookup m i j x y Hm Hlt Hx Hy).
    - right. exact (separated_lookup m j i y x Hm Hgt Hy Hx). }
  intros chunks [-> | ->]; unfold Slice.chunks.
  - apply Hgen, Hsep.
  - apply Hgen, build_separated, Hsep.
Qed.

Lemma chunks_disjoint_below_u64_max_witness :
  exists a c,
    Slice.chunks
      (build (snd (inserts (Props.configure None None None None)
                     [(0%nat, 0, 10, 5); (1%nat, 1, 12, 5); (2%nat, 2, 100, 4)])))
    !! 0%nat = Some a
    /\ Slice.chunks
         (build (snd (inserts (Props.configure None None None None)
                        [(0%nat, 0, 10, 5); (1%nat, 1, 12, 5);
                         (2%nat, 2, 100, 4)])))
       !! 1%nat = Some c
    /\ Props.disjoint a c.
Proof.
  eexists. eexists.
  split; [vm_compute; reflexivity |].
  split; [vm_compute; reflexivity |].
  refine (chunks_disjoint_below_u64_max None None None None
            [(0%nat, 0, 10, 5); (1%nat, 1, 12, 5); (2%nat, 2, 100, 4)]
            _ _ (or_intror eq_refl) 0%nat 1%nat _ _ _ _ _).
  - repeat (constructor; [unfold Props.below_max, u64_max; lia |]).
    constructor.
  - discriminate.
  - vm_compute. reflexivity.
  - vm_compute. reflexivity.
Defined.

End Separation.

(** * Further properties *)

(** ** Chunk predicates and merging *)

Section ChunkFacts.

(** X1: for two chunks whose ranges are well formed and end below
    [u64_max], [overlaps] answers true exactly when the two inclusive
    ranges have an address in common. *)
Theorem overlaps_iff_common_address a b :
  bounded a -> bounded b ->
  Chunk.overlaps a b = true <-> Props.share_address a b.
Proof. apply overlaps_below_max. Qed.

Lemma overlaps_iff_common_address_witness :
  Chunk.overlaps (Chunk.make 0%nat 0 10 10) (Chunk.make 1%nat 2 12 10) = true
  <-> Props.share_address (Chunk.make 0%nat 0 10 10) (Chunk.make 1%nat 2 12 10).
Proof.
  apply (overlaps_iff_common_address
           (Chunk.make 0%nat 0 10 10) (Chunk.make 1%nat 2 12 10)).
  - unfold bounded. vm_compute. repeat split; discriminate.
  - unfold bounded. vm_compute. repeat split; discriminate.
Defined.

(** X2: two chunks that [is_contiguous] calls touching are never reported
    as overlapping, in either direction and whatever their ranges. *)
Theorem contiguous_never_overlaps a b :
  Chunk.is_contiguous a b = true ->
  Chunk.overlaps a b = false /\ Chunk.overlaps b a = false.
Proof.
  unfold Chunk.is_contiguous, Chunk.overlaps. intros H.
  apply orb_true_iff in H as [H | H]; apply Z.eqb_eq in H.
  - assert (Hle : (wrap64 (Chunk.address_last a + 1)
                   <=? Chunk.address_first b) = true)
      by (apply Z.leb_le; lia).
    rewrite Hle, orb_true_r. simpl. split; reflexivity.
  - assert (Hle : (wrap64 (Chunk.address_last b + 1)
                   <=? Chunk.address_first a) = true)
      by (apply Z.leb_le; lia).
    rewrite Hle, orb_true_r. simpl. split; reflexivity.
Qed.

Lemma contiguous_never_overlaps_witness :
  Chunk.overlaps (Chunk.make 0%nat 0 10 10) (Chunk.make 1%nat 0 20 10) = false
  /\ Chunk.overlaps (Chunk.make 1%nat 0 20 10) (Chunk.make 0%nat 0 10 10) = false.
Proof.
  apply (contiguous_never_overlaps
           (Chunk.make 0%nat 0 10 10) (Chunk.make 1%nat 0 20 10)).
  vm_compute. reflexivity.
Defined.

Lemma merge_in_covers a b x :
  bounded a -> bounded b ->
  Props.share_address a b \/ Chunk.is_contiguous a b = true ->
  Chunk.covers (Chunk.merge_in a b) x <-> Chunk.covers a x \/ Chunk.covers b x.
Proof.
  unfold bounded, Props.share_address, Chunk.is_contiguous, Chunk.covers,
    Chunk.merge_in, Chunk.address_first, Chunk.address_last.
  simpl. intros (Ha0 & Ha1 & Ha2) (Hb0 & Hb1 & Hb2) H.
  destruct H as [(y & Hy1 & Hy2) | H].
  - lia.
  - rewrite !wrap64_small in H by lia.
    apply orb_true_iff in H as [H | H]; apply Z.eqb_eq in H; lia.
Qed.

(** X3: merging a chunk into one it overlaps or touches (both ending below
    [u64_max]) gives the chunk whose range is exactly the union of the two
    ranges, whose list is the receiver's followed by the donor's, and whose
    size is the sum of the two sizes on 64 bits. *)
Theorem merge_in_is_union a b :
  bounded a -> bounded b ->
  Chunk.overlaps a b = true \/ Chunk.is_contiguous a b = true ->
  (forall x,
     Chunk.covers (Chunk.merge_in a b) x
     <-> Chunk.covers a x \/ Chunk.covers b x)
  /\ Chunk.accesses (Chunk.merge_in a b) = Chunk.accesses a ++ Chunk.accesses b
  /\ Chunk.size (Chunk.merge_in a b) = wrap64 (Chunk.size a + Chunk.size b)
  /\ bounded (Chunk.merge_in a b).
Proof.
  intros Ha Hb H. split; [| split; [reflexivity | split; [reflexivity |]]].
  - intros x. apply merge_in_covers; [exact Ha | exact Hb |].
    destruct H as [H | H]; [left | right; exact H].
    apply overlaps_below_max; assumption.
  - apply merge_in_bounded; assumption.
Qed.

Lemma merge_in_is_union_witness :
  (forall x,
     Chunk.covers (Chunk.merge_in (Chunk.make 0%nat 0 10 10)
                                  (Chunk.make 1%nat 2 4 20)) x
     <-> Chunk.covers (Chunk.make 0%nat 0 10 10) x
         \/ Chunk.covers (Chunk.make 1%nat 2 4 20) x)
  /\ Chunk.accesses (Chunk.merge_in (Chunk.make 0%nat 0 10 10)
                                    (Chunk.make 1%nat 2 4 20))
     = Chunk.accesses (Chunk.make 0%nat 0 10 10)
       ++ Chunk.accesses (Chunk.make 1%nat 2 4 20)
  /\ Chunk.size (Chunk.merge_in (Chunk.make 0%nat 0 10 10)
                                (Chunk.make 1%nat 2 4 20))
     = wrap64 (Chunk.size (Chunk.make 0%nat 0 10 10)
               + Chunk.size (Chunk.make 1%nat 2 4 20))
  /\ bounded (Chunk.merge_in (Chunk.make 0%nat 0 10 10)
                             (Chunk.make 1%nat 2 4 20)).
Proof.
  apply (merge_in_is_union (Chunk.make 0%nat 0 10 10) (Chunk.make 1%nat 2 4 20)).
  - unfold bounded. vm_compute. repeat split; discriminate.
  - unfold bounded. vm_compute. repeat split; discriminate.
  - left. vm_compute. reflexivity.
Defined.

End ChunkFacts.


(** ** What every sequence of inserts keeps *)

Section BuilderFacts.
Import SliceBuilder.

(** A property of the accepted accesses and of the builder that every
    [insert] keeps holds after any sequence of them. *)
Lemma inserts_preserve_accepted
    (P : list ChunkAccess.t -> t -> Prop) (Q : call -> Prop) :
  (forall accesses b p icount address size,
     Q (p, icount, address, size) ->
     P accesses b ->
     P (accesses ++ Props.accepted [fst (insert b p icount address size)])
       (snd (insert b p icount address size))) ->
  forall calls accesses b,
    Forall Q calls ->
    P accesses b ->
    P (accesses ++ Props.accepted (fst (inserts b calls)))
      (snd (inserts b calls)).
Proof.
  intros Hstep calls.
  induction calls as [| c calls IH]; intros accesses b Hcalls Hb.
  - simpl. rewrite app_nil_r. exact Hb.
  - apply Forall_cons in Hcalls as [Hc Hcalls].
    destruct c as [[[p icount] address] size].
    rewrite inserts_cons. cbn [fst snd].
    match goal with
    | |- context [Props.accepted (?r :: ?rs)] =>
        change (Props.accepted (r :: rs)) with (Props.accepted ([r] ++ rs))
    end.
    rewrite accepted_app, List.app_assoc.
    apply IH; [exact Hcalls |]. apply Hstep; assumption.
Qed.

Lemma erase_all_incl overlaps m x : x ∈ erase_all overlaps m -> x ∈ m.
Proof.
  unfold erase_all. revert m.
  induction overlaps as [| o overlaps IH]; intros m Hx; simpl in *.
  - exact Hx.
  - eapply erase_elem, IH, Hx.
Qed.

(** What an accepted insert writes besides the chunk map. *)
Lemma insert_inserted_fields b p icount address size access b' :
  insert b p icount address size = (Inserted access, b') ->
  access_count_ b' = wrap64 (access_count_ b + 1)
  /\ Slice.transition_last_ (slice_ b') = icount
  /\ (Slice.access_chunks_ (slice_ b) = [] ->
      Slice.transition_first_ (slice_ b') = icount)
  /\ (Slice.access_chunks_ (slice_ b) <> [] ->
      Slice.transition_first_ (slice_ b') = Slice.transition_first_ (slice_ b)
      /\ Slice.transition_last_ (slice_ b) <= icount).
Proof.
  unfold insert. intros H.
  repeat case_match; simplify_eq; simpl in *.
  all: repeat match goal with
       | H : negb _ && _ = false |- _ => apply andb_false_iff in H as [H | H]
       | H : negb _ = false |- _ => apply negb_false_iff in H
       | H : (_ <? _) = false |- _ => apply Z.ltb_ge in H
       end.
  all: repeat match goal with
       | H : StdMap.empty ?m = true |- _ =>
           destruct m; [clear H | discriminate H]
       | H : StdMap.empty ?m = false |- _ =>
           destruct m; [discriminate H | clear H]
       end.
  all: repeat split; try reflexivity; try congruence; try (intros; lia).
  all: intros; try contradiction; try discriminate.
Qed.

(** A chunk of the map an accepted insert leaves is the merged chunk or a
    chunk that was there before. *)
Lemma insert_inserted_origin b p icount address size access b' e :
  insert b p icount address size = (Inserted access, b') ->
  e ∈ Slice.access_chunks_ (slice_ b') ->
  e ∈ Slice.access_chunks_ (slice_ b)
  \/ snd e = merge_all (Chunk.make p icount address (wrap32 size))
               (find_overlaps (Chunk.make p icount address (wrap32 size))
                  address (Slice.access_chunks_ (slice_ b))).
Proof.
  intros Hi He. apply insert_inserted_map in Hi as (_ & _ & Hm).
  rewrite Hm in He. apply insert_elem in He as [-> | He].
  - right. reflexivity.
  - left. eapply erase_all_incl, He.
Qed.

Lemma traversal_elem m n :
  n ∈ Props.traversal m <-> exists e, e ∈ m /\ n ∈ Chunk.accesses (snd e).
Proof.
  induction m as [| e m IH].
  - split; [intros H; apply elem_of_nil in H; contradiction |].
    intros (e & He & _). apply elem_of_nil in He. contradiction.
  - rewrite traversal_cons, elem_of_app, IH. split.
    + intros [H | (e' & He' & H)].
      * exists e. split; [left | exact H].
      * exists e'. split; [right; exact He' | exact H].
    + intros (e' & He' & H). apply elem_of_cons in He' as [-> | He'].
      * left. exact H.
      * right. exists e'. split; assumption.
Qed.

(** The nodes an accepted insert leaves in the map are the new node and
    nodes that were there before. *)
Lemma insert_inserted_nodes b p icount address size access b' n :
  insert b p icount address size = (Inserted access, b') ->
  n ∈ Props.traversal (Slice.access_chunks_ (slice_ b')) ->
  n = access \/ n ∈ Props.traversal (Slice.access_chunks_ (slice_ b)).
Proof.
  intros Hi Hn. apply traversal_elem in Hn as (e & He & Hn).
  pose proof (insert_inserted _ _ _ _ _ _ _ Hi) as (Hacc & _).
  destruct (insert_inserted_origin _ _ _ _ _ _ _ e Hi He) as [Hold | Hnew].
  - right. apply traversal_elem. exists e. split; assumption.
  - rewrite Hnew, merge_all_accesses in Hn.
    apply elem_of_app in Hn as [Hn | Hn].
    + left. apply list_elem_of_singleton in Hn. congruence.
    + right. apply traversal_elem in Hn as (o & Ho & Hn).
      apply traversal_elem. exists o. split; [| exact Hn].
      eapply find_overlaps_elem, Ho.
Qed.

(** A refusal writes [transition_first_] only on an empty map. *)
Lemma insert_refused_first b p icount address size b' :
  insert b p icount address size = (Refused, b') ->
  Slice.access_chunks_ (slice_ b) <> [] ->
  Slice.transition_first_ (slice_ b') = Slice.transition_first_ (slice_ b).
Proof.
  unfold insert. intros H Hne.
  repeat case_match; simplify_eq; simpl in *; try reflexivity.
  all: match goal with
       | H : StdMap.empty ?m = true |- _ =>
           destruct m; [contradiction | discriminate H]
       end.
Qed.

(** *** Transitions *)

Lemma wrap64_succ n : wrap64 (wrap64 n + 1) = wrap64 (n + 1).
Proof. unfold wrap64. rewrite Zplus_mod_idemp_l. reflexivity. Qed.

Lemma sorted_snoc l x :
  StronglySorted Z.le l -> Forall (fun y => y <= x) l ->
  StronglySorted Z.le (l ++ [x]).
Proof.
  intros Hl Hx. apply StronglySorted_app_2.
  - intros x1 x2 H1 H2. apply list_elem_of_singleton in H2 as ->.
    rewrite Forall_forall in Hx. apply Hx, H1.
  - exact Hl.
  - repeat constructor.
Qed.

Lemma insert_transitions_kept accesses b p icount address size :
  transitions_kept accesses b ->
  transitions_kept
    (accesses ++ Props.accepted [fst (insert b p icount address size)])
    (snd (insert b p icount address size)).
Proof.
  intros (Hempty & Hle & Hsorted & Hbound & Hcount).
  destruct (insert b p icount address size) as [r b'] eqn:Hi. simpl.
  destruct r as [access | |].
  - pose proof (insert_inserted _ _ _ _ _ _ _ Hi) as (Hacc & Hlast & Hne).
    pose proof (insert_inserted_fields _ _ _ _ _ _ _ Hi)
      as (Hc & _ & Hfirst0 & Hfirst1).
    assert (Hold : Forall (fun n => ChunkAccess.transition n <= icount) accesses).
    { destruct (Slice.access_chunks_ (slice_ b)) as [| e m] eqn:Hm.
      - rewrite (Hempty eq_refl). constructor.
      - destruct Hfirst1 as [_ Hlt]; [discriminate |].
        eapply Forall_impl; [exact Hle |]. simpl. intros n Hn. lia. }
    assert (Hfirst : Slice.transition_first_ (slice_ b') <= icount).
    { destruct (Slice.access_chunks_ (slice_ b)) as [| e m] eqn:Hm.
      - rewrite (Hfirst0 eq_refl). lia.
      - destruct Hfirst1 as [-> Hlt]; [discriminate |].
        destruct Hbound as [Hfl _]; [discriminate |]. lia. }
    unfold transitions_kept. split; [intros; contradiction |].
    split; [| split; [| split]].
    + rewrite Hlast. apply Forall_app. split; [exact Hold |].
      constructor; [| constructor]. rewrite Hacc. simpl. lia.
    + rewrite map_app. apply sorted_snoc; [exact Hsorted |].
      rewrite Forall_map. rewrite Hacc. simpl. exact Hold.
    + intros _. split; [rewrite Hlast; exact Hfirst |].
      intros n Hn. unfold Slice.transition_first, Slice.transition_last.
      rewrite Hlast.
      destruct (insert_inserted_nodes _ _ _ _ _ _ _ n Hi Hn) as [-> | Hn'].
      * rewrite Hacc. simpl. lia.
      * destruct (Slice.access_chunks_ (slice_ b)) as [| e m] eqn:Hm.
        -- apply elem_of_nil in Hn'. contradiction.
        -- destruct Hfirst1 as [Heq Hlt]; [discriminate |]. rewrite Heq.
           destruct Hbound as [_ Hb]; [discriminate |].
           destruct (Hb n) as [H1 H2]; [rewrite Hm; exact Hn' |].
           unfold Slice.transition_first, Slice.transition_last in *. lia.
    + rewrite Hc, Hcount, length_app. simpl.
      rewrite wrap64_succ. f_equal. lia.
  - pose proof (insert_refused _ _ _ _ _ _ Hi) as (Hm & Hc & Hlast).
    pose proof (insert_refused_first _ _ _ _ _ _ Hi) as Hfirst.
    unfold transitions_kept. rewrite app_nil_r, Hm, Hlast, Hc.
    split; [exact Hempty |]. split; [exact Hle |]. split; [exact Hsorted |].
    split; [| exact Hcount].
    intros Hne. specialize (Hfirst Hne). destruct (Hbound Hne) as [Hfl Hb].
    split; [rewrite Hfirst; exact Hfl |].
    intros n Hn. rewrite Hm in Hn. specialize (Hb n Hn).
    unfold Slice.transition_first, Slice.transition_last in *.
    rewrite Hfirst, Hlast. exact Hb.
  - pose proof (insert_invalid _ _ _ _ _ _ Hi) as (Hs & Hc).
    unfold transitions_kept. rewrite app_nil_r, Hs, Hc.
    split; [exact Hempty |]. split; [exact Hle |]. split; [exact Hsorted |].
    split; [exact Hbound | exact Hcount].
Qed.

Lemma reached_transitions_kept overlap touch transitions count calls :
  transitions_kept
    (Props.accepted
       (fst (inserts (Props.configure overlap touch transitions count) calls)))
    (snd (inserts (Props.configure overlap touch transitions count) calls)).
Proof.
  apply (inserts_preserve_accepted
           (fun accesses b => transitions_kept accesses b) (fun _ => True)
           ltac:(intros; apply insert_transitions_kept; assumption)
           calls []).
  - apply Forall_forall. intros; exact I.
  - unfold transitions_kept. simpl.
    split; [reflexivity |]. split; [constructor |]. split; [constructor |].
    split; [intros Hne; contradiction | reflexivity].
Qed.

Lemma merge_loop_nonempty touch_limit current rest :
  merge_loop touch_limit current rest <> [].
Proof.
  revert current. induction rest as [| next rest IH]; intros current; simpl.
  - discriminate.
  - destruct (_ && _); [apply IH | discriminate].
Qed.

Lemma build_fields b :
  Slice.transition_first (build b) = Slice.transition_first_ (slice_ b)
  /\ Slice.transition_last (build b) = Slice.transition_last_ (slice_ b)
  /\ (Slice.access_chunks_ (build b) = []
      <-> Slice.access_chunks_ (slice_ b) = []).
Proof.
  unfold build, merge.
  destruct (Slice.access_chunks_ (slice_ b)) as [| current rest] eqn:Hm.
  - rewrite Hm. repeat split; auto.
  - simpl. split; [reflexivity |]. split; [reflexivity |].
    split; [| discriminate].
    intros H. apply merge_loop_nonempty in H. contradiction.
Qed.

(** X5: after any sequence of inserts on a configured builder, every access
    stored in the built slice carries a transition between the slice's
    [transition_first] and [transition_last], and the former is not above
    the latter when the slice is not empty. *)
Theorem slice_bounds_its_transitions overlap touch transitions count calls :
  let s := build (snd (inserts (Props.configure overlap touch transitions count)
                               calls)) in
  transitions_bounded s
  /\ (Slice.empty s = false ->
      Slice.transition_first s <= Slice.transition_last s).
Proof.
  intros s.
  pose proof (reached_transitions_kept overlap touch transitions count calls)
    as (_ & _ & _ & Hb & _).
  set (b := snd (inserts (Props.configure overlap touch transitions count) calls)) in *.
  pose proof (build_fields b) as (Hf & Hl & He).
  split.
  - intros n Hn. subst s. rewrite build_traversal in Hn. rewrite Hf, Hl.
    destruct (Slice.access_chunks_ (slice_ b)) as [| e m] eqn:Hm.
    + apply elem_of_nil in Hn. contradiction.
    + destruct Hb as [_ Hb]; [discriminate |]. apply Hb. rewrite Hm. exact Hn.
  - subst s. unfold Slice.empty. intros Hne. rewrite Hf, Hl.
    apply Hb. intros Hm. apply He in Hm. rewrite Hm in Hne. discriminate.
Qed.

Lemma slice_bounds_its_transitions_witness :
  Slice.transition_first
    (build (snd (inserts (Props.configure None None None None)
                   [(0%nat, 3, 10, 5); (1%nat, 7, 12, 5)])))
  <= Slice.transition_last
       (build (snd (inserts (Props.configure None None None None)
                      [(0%nat, 3, 10, 5); (1%nat, 7, 12, 5)]))).
Proof.
  apply (proj2 (slice_bounds_its_transitions None None None None
                  [(0%nat, 3, 10, 5); (1%nat, 7, 12, 5)])).
  vm_compute. reflexivity.
Defined.

(** X6: the accesses a builder accepts, in arrival order, carry
    non-decreasing transitions, whatever calls were refused or thrown in
    between. *)
Theorem accepted_transitions_never_decrease overlap touch transitions count calls :
  StronglySorted Z.le
    (map ChunkAccess.transition
       (Props.accepted
          (fst (inserts (Props.configure overlap touch transitions count)
                        calls)))).
Proof.
  pose proof (reached_transitions_kept overlap touch transitions count calls)
    as (_ & _ & H & _).
  exact H.
Qed.

(** *** Sizes *)

Lemma wrap64_add n m : wrap64 (wrap64 n + wrap64 m) = wrap64 (n + m).
Proof. unfold wrap64. rewrite <- Zplus_mod. reflexivity. Qed.

Lemma make_counted p icount address size :
  counted (Chunk.make p icount address size).
Proof. unfold counted. simpl. split; [discriminate | reflexivity]. Qed.

Lemma merge_in_counted c other :
  counted c -> counted other -> counted (Chunk.merge_in c other).
Proof.
  unfold counted, Chunk.merge_in, Chunk.accesses, Chunk.size. simpl.
  intros [Hc1 Hc2] [Ho1 Ho2]. split.
  - destruct (Chunk.accesses_ c); [contradiction | discriminate].
  - rewrite Hc2, Ho2, wrap64_add, length_app, Nat2Z.inj_add. reflexivity.
Qed.

Lemma merge_all_counted c overlaps :
  counted c -> Forall (fun e => counted (snd e)) overlaps ->
  counted (merge_all c overlaps).
Proof.
  unfold merge_all. revert c.
  induction overlaps as [| o overlaps IH]; intros c Hc Ho; simpl.
  - exact Hc.
  - apply Forall_cons in Ho as [Ho1 Ho2].
    apply IH; [apply merge_in_counted; assumption | exact Ho2].
Qed.

Lemma insert_counted b p icount address size :
  Forall (fun e => counted (snd e)) (Slice.access_chunks_ (slice_ b)) ->
  Forall (fun e => counted (snd e))
         (Slice.access_chunks_ (slice_ (snd (insert b p icount address size)))).
Proof.
  intros Hb.
  destruct (insert b p icount address size) as [r b'] eqn:Hi. simpl.
  destruct r as [access | |].
  - apply insert_inserted_map in Hi as (_ & _ & ->).
    apply insert_Forall.
    + simpl. apply merge_all_counted; [apply make_counted |].
      apply Forall_forall. intros o Ho. rewrite Forall_forall in Hb.
      eapply Hb, find_overlaps_elem, Ho.
    + apply erase_all_Forall, Hb.
  - apply insert_refused in Hi as (-> & _). exact Hb.
  - apply insert_invalid in Hi as (-> & _). exact Hb.
Qed.

Lemma merge_loop_Forall (P : Chunk.t -> Prop) touch_limit current rest :
  (forall c other, P c -> P other ->
     Chunk.is_contiguous c other = true -> P (Chunk.merge_in c other)) ->
  Forall (fun e => P (snd e)) (current :: rest) ->
  Forall (fun e => P (snd e)) (merge_loop touch_limit current rest).
Proof.
  intros Hmerge. revert current.
  induction rest as [| next rest IH]; intros current H; simpl.
  - exact H.
  - apply Forall_cons in H as [Hc H]. pose proof H as H'.
    apply Forall_cons in H' as [Hn Hr].
    destruct (Chunk.is_contiguous (snd current) (snd next)) eqn:Hcontig; simpl.
    + destruct (negb _).
      * apply IH. constructor; [| exact Hr]. simpl.
        apply Hmerge; assumption.
      * constructor; [exact Hc | apply IH, H].
    + constructor; [exact Hc | apply IH, H].
Qed.

Lemma build_Forall (P : Chunk.t -> Prop) b :
  (forall c other, P c -> P other ->
     Chunk.is_contiguous c other = true -> P (Chunk.merge_in c other)) ->
  Forall (fun e => P (snd e)) (Slice.access_chunks_ (slice_ b)) ->
  Forall (fun e => P (snd e)) (Slice.access_chunks_ (build b)).
Proof.
  intros Hmerge. unfold build, merge.
  destruct (Slice.access_chunks_ (slice_ b)) as [| current rest] eqn:Hm.
  - rewrite Hm. intros H. exact H.
  - simpl. apply merge_loop_Forall, Hmerge.
Qed.

Lemma reached_counted overlap touch transitions count calls :
  Forall (fun e => counted (snd e))
    (Slice.access_chunks_
       (build (snd (inserts (Props.configure overlap touch transitions count)
                            calls)))).
Proof.
  apply build_Forall.
  - intros c other Hc Ho _. apply merge_in_counted; assumption.
  - apply (inserts_preserve
             (fun b => Forall (fun e => counted (snd e))
                              (Slice.access_chunks_ (slice_ b)))).
    + intros. apply insert_counted. assumption.
    + constructor.
Qed.

(** X7: after any sequence of inserts and [build()], every chunk of the
    slice holds at least one access and its [size()] is the number of nodes
    of its list, on 64 bits. *)
Theorem chunk_size_counts_its_accesses overlap touch transitions count calls c :
  c ∈ Slice.chunks
        (build (snd (inserts (Props.configure overlap touch transitions count)
                             calls))) ->
  Chunk.accesses c <> []
  /\ Chunk.size c = wrap64 (Z.of_nat (length (Chunk.accesses c))).
Proof.
  intros Hc. unfold Slice.chunks, StdMap.chunks in Hc.
  apply list_elem_of_In, in_map_iff in Hc as (e & <- & He).
  pose proof (reached_counted overlap touch transitions count calls) as H.
  rewrite Forall_forall in H. apply (H e). apply list_elem_of_In. exact He.
Qed.

Lemma chunk_size_counts_its_accesses_witness :
  Chunk.accesses
    (Chunk.Build 10 16
       [ChunkAccess.make 1%nat 1 12 5; ChunkAccess.make 0%nat 0 10 5] 2) <> []
  /\ Chunk.size
       (Chunk.Build 10 16
          [ChunkAccess.make 1%nat 1 12 5; ChunkAccess.make 0%nat 0 10 5] 2)
     = wrap64 (Z.of_nat (length (Chunk.accesses
         (Chunk.Build 10 16
            [ChunkAccess.make 1%nat 1 12 5; ChunkAccess.make 0%nat 0 10 5] 2)))).
Proof.
  apply (chunk_size_counts_its_accesses None None None None
           [(0%nat, 0, 10, 5); (1%nat, 1, 12, 5)]).
  vm_compute. left.
Defined.

Lemma access_count_traversal m :
  Forall (fun e => counted (snd e)) m ->
  forall n,
    foldl (fun count c => wrap64 (count + Chunk.size (snd c))) (wrap64 n) m
    = wrap64 (n + Z.of_nat (length (Props.traversal m))).
Proof.
  induction m as [| e m IH]; intros H n; simpl.
  - rewrite Z.add_0_r. reflexivity.
  - apply Forall_cons in H as [[_ He] H].
    rewrite traversal_cons, length_app, Nat2Z.inj_add.
    rewrite He, wrap64_add, IH by exact H. f_equal. lia.
Qed.

(** X8: the builder's [access_count()] is the number of accesses it has
    accepted, on 64 bits; when every access ends below [u64_max] and sizes
    fit 32 bits, the built slice's [access_count()], which sums the chunk
    sizes, is that same number. *)
Theorem access_counts_agree overlap touch transitions count calls :
  let b := snd (inserts (Props.configure overlap touch transitions count) calls) in
  let rs := fst (inserts (Props.configure overlap touch transitions count) calls) in
  access_count b = wrap64 (Z.of_nat (length (Props.accepted rs)))
  /\ (Forall Props.below_max calls ->
      Slice.access_count (build b) = access_count b).
Proof.
  intros b rs.
  pose proof (reached_transitions_kept overlap touch transitions count calls)
    as (_ & _ & _ & _ & Hcount).
  pose proof (reached_counted overlap touch transitions count calls) as Hcounted.
  fold b in Hcount, Hcounted. fold rs in Hcount.
  split; [exact Hcount |].
  intros Hcalls.
  pose proof (inserts_holds calls []
                (Props.configure overlap touch transitions count) Hcalls
                ltac:(repeat split; constructor)) as (_ & _ & Hp).
  fold b in Hp. fold rs in Hp. simpl in Hp.
  unfold Slice.access_count, access_count.
  change 0 with (wrap64 0).
  rewrite (access_count_traversal _ Hcounted), build_traversal, Hcount.
  rewrite Hp. reflexivity.
Qed.

(** *** The touch limit *)

Lemma merge_loop_touch_limit l current rest (orig : list Chunk.t) :
  (snd current ∈ orig \/ Chunk.size (snd current) <= l) ->
  Forall (fun e => snd e ∈ orig) rest ->
  Forall (fun e => snd e ∈ orig \/ Chunk.size (snd e) <= l)
         (merge_loop (Some l) current rest).
Proof.
  revert current. induction rest as [| next rest IH]; intros current Hc Hr; simpl.
  - constructor; [exact Hc | constructor].
  - apply Forall_cons in Hr as [Hn Hr].
    destruct (Chunk.is_contiguous (snd current) (snd next)); simpl.
    + destruct (Z.ltb_spec l
                  (wrap64 (Chunk.size (snd current) + Chunk.size (snd next))));
        simpl.
      * constructor; [exact Hc |]. apply IH; [left; exact Hn | exact Hr].
      * apply IH; [| exact Hr]. right. simpl. unfold Chunk.size at 1. simpl.
        assumption.
    + constructor; [exact Hc |]. apply IH; [left; exact Hn | exact Hr].
Qed.

(** X9: with [chunk_size_touch_limit(l)], every chunk of the slice that
    [build()] returns is a chunk the builder already held, or holds at most
    [l] accesses: the post-processing merge never crosses the limit. *)
Theorem build_respects_touch_limit b l c :
  chunk_size_touch_limit_ b = Some l ->
  c ∈ Slice.chunks (build b) ->
  c ∈ Slice.chunks (slice_ b) \/ Chunk.size c <= l.
Proof.
  intros Hl Hc. unfold Slice.chunks, StdMap.chunks, build, merge in *.
  destruct (Slice.access_chunks_ (slice_ b)) as [| current rest] eqn:Hm.
  - rewrite Hm in Hc. left. exact Hc.
  - simpl in Hc. rewrite Hl in Hc.
    apply list_elem_of_In, in_map_iff in Hc as (e & <- & He).
    assert (HF : Forall (fun e => snd e ∈ map snd (current :: rest)
                                  \/ Chunk.size (snd e) <= l)
                        (merge_loop (Some l) current rest)).
    { apply merge_loop_touch_limit.
      - left. simpl. left.
      - apply Forall_forall. intros x Hx. simpl. right.
        apply list_elem_of_In, in_map, list_elem_of_In, Hx. }
    rewrite Forall_forall in HF. apply (HF e), list_elem_of_In, He.
Qed.

Lemma build_respects_touch_limit_witness :
  Chunk.Build 0 19 [ChunkAccess.make 0%nat 0 0 10;
                    ChunkAccess.make 1%nat 1 10 10] 2
    ∈ Slice.chunks
        (slice_ (snd (inserts (chunk_size_touch_limit 2 init)
                        [(0%nat, 0, 0, 10); (1%nat, 1, 10, 10);
                         (2%nat, 2, 20, 10)])))
  \/ Chunk.size
       (Chunk.Build 0 19 [ChunkAccess.make 0%nat 0 0 10;
                          ChunkAccess.make 1%nat 1 10 10] 2) <= 2.
Proof.
  apply (build_respects_touch_limit
           (snd (inserts (chunk_size_touch_limit 2 init)
                   [(0%nat, 0, 0, 10); (1%nat, 1, 10, 10); (2%nat, 2, 20, 10)]))).
  - vm_compute. reflexivity.
  - vm_compute. left.
Defined.

End BuilderFacts.


(** ** Order, coverage and the transition limit *)

Section SliceFacts.
Import SliceBuilder.

Lemma access_counts_agree_witness :
  Slice.access_count
    (build (snd (inserts (Props.configure None None None None)
                   [(0%nat, 0, 10, 5); (1%nat, 1, 12, 5); (2%nat, 2, 100, 4)])))
  = access_count
      (snd (inserts (Props.configure None None None None)
              [(0%nat, 0, 10, 5); (1%nat, 1, 12, 5); (2%nat, 2, 100, 4)])).
Proof.
  apply (proj2 (access_counts_agree None None None None
                  [(0%nat, 0, 10, 5); (1%nat, 1, 12, 5); (2%nat, 2, 100, 4)])).
  repeat (constructor; [unfold Props.below_max, u64_max; lia |]).
  constructor.
Defined.

Lemma merged_head_separated current next rest :
  separated (current :: next :: rest) ->
  separated ((fst current, Chunk.merge_in (snd current) (snd next)) :: rest).
Proof.
  unfold separated. intros H.
  apply StronglySorted_cons in H as [H1 H2].
  apply StronglySorted_cons in H2 as [H3 H4].
  apply Forall_cons in H1 as [_ H1].
  apply StronglySorted_cons. split; [| exact H4].
  rewrite Forall_forall in *. intros x Hx.
  specialize (H1 x Hx). specialize (H3 x Hx).
  unfold ends_before, Chunk.merge_in, Chunk.address_last in *.
  simpl in *. lia.
Qed.

Lemma merge_loop_keyed touch_limit current rest :
  keyed (current :: rest) -> separated (current :: rest) ->
  keyed (merge_loop touch_limit current rest).
Proof.
  unfold keyed. revert current.
  induction rest as [| next rest IH]; intros current Hk Hs; simpl.
  - exact Hk.
  - pose proof Hk as Hk'. apply Forall_cons in Hk' as [[Hkc Hbc] Hk'].
    pose proof Hk' as Hk''. apply Forall_cons in Hk'' as [[Hkn Hbn] Hkr].
    destruct (_ && _).
    + apply IH; [| apply merged_head_separated, Hs].
      constructor; [| exact Hkr]. simpl.
      split; [| apply merge_in_bounded; assumption].
      unfold separated in Hs. apply StronglySorted_cons in Hs as [Hs _].
      apply Forall_inv in Hs.
      unfold ends_before, bounded, Chunk.merge_in, Chunk.address_first in *.
      simpl. lia.
    + constructor; [split; assumption |].
      apply IH; [exact Hk' |].
      unfold separated in *. apply StronglySorted_cons in Hs as [_ Hs]. exact Hs.
Qed.

Lemma build_keyed b :
  keyed (Slice.access_chunks_ (slice_ b)) ->
  separated (Slice.access_chunks_ (slice_ b)) ->
  keyed (Slice.access_chunks_ (build b)).
Proof.
  unfold build, merge.
  destruct (Slice.access_chunks_ (slice_ b)) as [| current rest] eqn:Hm.
  - rewrite Hm. intros H _. exact H.
  - simpl. apply merge_loop_keyed.
Qed.

Lemma separated_first_addresses m :
  keyed m -> separated m ->
  StronglySorted Z.lt (map Chunk.address_first (StdMap.chunks m)).
Proof.
  unfold keyed, separated, StdMap.chunks.
  induction m as [| e m IH]; simpl; [constructor |].
  rewrite Forall_cons, !StronglySorted_cons. intros [[_ Hb] Hm] [H1 H2].
  split; [| apply IH; assumption].
  rewrite !Forall_map. rewrite Forall_forall in *. intros x Hx. simpl.
  specialize (H1 x Hx). unfold ends_before, bounded in *. lia.
Qed.

(** X10: when every access ends below [u64_max] and sizes fit 32 bits,
    iterating over the slice that [build()] returns visits chunks of
    strictly ascending [address_first], and every chunk sits in the map
    under its own [address_first]. *)
Theorem built_chunks_ascend overlap touch transitions count calls :
  Forall Props.below_max calls ->
  let s := build (snd (inserts (Props.configure overlap touch transitions count)
                               calls)) in
  StronglySorted Z.lt (map Chunk.address_first (Slice.chunks s))
  /\ Forall (fun e => fst e = Chunk.address_first (snd e))
            (Slice.access_chunks_ s).
Proof.
  intros Hcalls s.
  pose proof (inserts_keep_separated calls
                (Props.configure overlap touch transitions count) Hcalls
                ltac:(split; constructor)) as [Hk Hs].
  assert (Hkb : keyed (Slice.access_chunks_ s))
    by (apply build_keyed; assumption).
  assert (Hsb : separated (Slice.access_chunks_ s))
    by (apply build_separated; assumption).
  split.
  - apply separated_first_addresses; assumption.
  - eapply Forall_impl; [exact Hkb |]. simpl. intros e [He _]. exact He.
Qed.

Lemma built_chunks_ascend_witness :
  StronglySorted Z.lt
    (map Chunk.address_first
       (Slice.chunks
          (build (snd (inserts (Props.configure None None None None)
                         [(0%nat, 0, 100, 4); (1%nat, 1, 10, 5);
                          (2%nat, 2, 12, 5)])))))
  /\ Forall (fun e => fst e = Chunk.address_first (snd e))
       (Slice.access_chunks_
          (build (snd (inserts (Props.configure None None None None)
                         [(0%nat, 0, 100, 4); (1%nat, 1, 10, 5);
                          (2%nat, 2, 12, 5)])))).
Proof.
  apply (built_chunks_ascend None None None None
           [(0%nat, 0, 100, 4); (1%nat, 1, 10, 5); (2%nat, 2, 12, 5)]).
  repeat (constructor; [unfold Props.below_max, u64_max; lia |]).
  constructor.
Defined.

(** *** Coverage *)

Lemma merge_in_tight c other :
  bounded c -> bounded other ->
  Props.share_address c other \/ Chunk.is_contiguous c other = true ->
  tight c -> tight other -> tight (Chunk.merge_in c other).
Proof.
  intros Hc Ho H Htc Hto x.
  rewrite (merge_in_covers c other x Hc Ho H), (Htc x), (Hto x).
  unfold Chunk.accesses, Chunk.merge_in. simpl. split.
  - intros [(n & Hn & Hx) | (n & Hn & Hx)]; exists n;
      (split; [apply elem_of_app; auto | exact Hx]).
  - intros (n & Hn & Hx). apply elem_of_app in Hn as [Hn | Hn];
      [left | right]; exists n; split; assumption.
Qed.

Lemma merge_all_tight c overlaps :
  bounded c -> tight c ->
  Forall (fun o => bounded (snd o) /\ tight (snd o)
                   /\ Props.share_address c (snd o)) overlaps ->
  tight (merge_all c overlaps).
Proof.
  unfold merge_all. revert c.
  induction overlaps as [| o overlaps IH]; intros c Hc Ht Ho; simpl.
  - exact Ht.
  - apply Forall_cons in Ho as [(Hbo & Hto & Hso) Ho].
    apply IH.
    + apply merge_in_bounded; assumption.
    + apply merge_in_tight; auto.
    + eapply Forall_impl; [exact Ho |]. simpl.
      intros o' (Hb' & Ht' & y & Hy1 & Hy2).
      split; [exact Hb' |]. split; [exact Ht' |].
      exists y. split; [| exact Hy2].
      apply (merge_in_covers c (snd o) y Hc Hbo (or_introl Hso)).
      left. exact Hy1.
Qed.

Lemma make_tight p icount address size :
  0 <= address -> 1 <= size < 2 ^ 32 -> address + size - 1 < u64_max ->
  tight (Chunk.make p icount address (wrap32 size)).
Proof.
  intros Ha Hs Hlast x.
  unfold Chunk.covers, Chunk.make, Chunk.address_first, Chunk.address_last,
    Chunk.accesses, access_covers. simpl.
  rewrite wrap32_small by lia. rewrite wrap64_small by lia. split.
  - intros Hx. eexists. split; [left |]. simpl. exact Hx.
  - intros (n & Hn & Hx). apply list_elem_of_singleton in Hn as ->.
    simpl in Hx. exact Hx.
Qed.

Lemma insert_tight b p icount address size :
  Props.below_max (p, icount, address, size) ->
  Forall (fun e => bounded (snd e) /\ tight (snd e))
         (Slice.access_chunks_ (slice_ b)) ->
  Forall (fun e => bounded (snd e) /\ tight (snd e))
         (Slice.access_chunks_ (slice_ (snd (insert b p icount address size)))).
Proof.
  intros (Ha & Hs & Hlast) Hb.
  destruct (insert b p icount address size) as [r b'] eqn:Hi. simpl.
  destruct r as [access | |].
  - apply insert_inserted_map in Hi as (Hnz & _ & ->).
    destruct (make_bounded p icount address size Ha ltac:(lia) Hlast)
      as [Hc _].
    pose proof (make_tight p icount address size Ha ltac:(lia) Hlast) as Ht.
    set (c := Chunk.make p icount address (wrap32 size)) in *.
    set (m := Slice.access_chunks_ (slice_ b)) in *.
    assert (Ho : Forall (fun o => bounded (snd o) /\ tight (snd o)
                                  /\ Props.share_address c (snd o))
                        (find_overlaps c address m)).
    { apply Forall_forall. intros o Ho. rewrite Forall_forall in Hb.
      destruct (Hb o (find_overlaps_elem _ _ _ _ Ho)) as [Hbo Hto].
      split; [exact Hbo |]. split; [exact Hto |].
      apply find_overlaps_overlap in Ho.
      apply overlaps_below_max in Ho as (y & Hy1 & Hy2); [| exact Hbo | exact Hc].
      exists y. split; assumption. }
    apply insert_Forall.
    + simpl. split; [| apply merge_all_tight; assumption].
      apply merge_all_bounded; [exact Hc |].
      eapply Forall_impl; [exact Ho |]. simpl. intros o [H _]. exact H.
    + apply erase_all_Forall, Hb.
  - apply insert_refused in Hi as (-> & _). exact Hb.
  - apply insert_invalid in Hi as (-> & _). exact Hb.
Qed.

Lemma inserts_tight calls :
  forall b,
    Forall Props.below_max calls ->
    Forall (fun e => bounded (snd e) /\ tight (snd e))
           (Slice.access_chunks_ (slice_ b)) ->
    Forall (fun e => bounded (snd e) /\ tight (snd e))
           (Slice.access_chunks_ (slice_ (snd (inserts b calls)))).
Proof.
  induction calls as [| call calls IH]; intros b Hcalls Hb.
  - exact Hb.
  - apply Forall_cons in Hcalls as [Hcall Hcalls].
    destruct call as [[[p icount] address] size].
    rewrite inserts_cons. cbn [fst snd]. apply IH; [exact Hcalls |].
    apply insert_tight; assumption.
Qed.

(** X11: when every access ends below [u64_max] and sizes fit 32 bits, the
    range of every chunk of the built slice is exactly the union of the
    bytes of its accesses: each access lies inside its chunk, and each
    address of the chunk belongs to at least one of its accesses. *)
Theorem chunk_range_is_union_of_accesses overlap touch transitions count calls c :
  Forall Props.below_max calls ->
  c ∈ Slice.chunks
        (build (snd (inserts (Props.configure overlap touch transitions count)
                             calls))) ->
  forall x,
    Chunk.covers c x
    <-> exists n, n ∈ Chunk.accesses c /\ access_covers n x.
Proof.
  intros Hcalls Hc.
  unfold Slice.chunks, StdMap.chunks in Hc.
  apply list_elem_of_In, in_map_iff in Hc as (e & <- & He).
  assert (H : Forall (fun e => bounded (snd e) /\ tight (snd e))
                (Slice.access_chunks_
                   (build (snd (inserts (Props.configure overlap touch
                                           transitions count) calls))))).
  { apply (build_Forall (fun c => bounded c /\ tight c)).
    - intros a b [Hba Hta] [Hbb Htb] Hcontig.
      split; [apply merge_in_bounded; assumption |].
      apply merge_in_tight; auto.
    - apply inserts_tight; [exact Hcalls | constructor]. }
  rewrite Forall_forall in H.
  destruct (H e) as [_ Ht]; [apply list_elem_of_In, He |]. exact Ht.
Qed.

Lemma chunk_range_is_union_of_accesses_witness :
  Chunk.covers
    (Chunk.Build 10 16
       [ChunkAccess.make 1%nat 1 12 5; ChunkAccess.make 0%nat 0 10 5] 2) 16
  <-> exists n,
        n ∈ Chunk.accesses
              (Chunk.Build 10 16
                 [ChunkAccess.make 1%nat 1 12 5;
                  ChunkAccess.make 0%nat 0 10 5] 2)
        /\ access_covers n 16.
Proof.
  refine (chunk_range_is_union_of_accesses None None None None
            [(0%nat, 0, 10, 5); (1%nat, 1, 12, 5)]
            (Chunk.Build 10 16
               [ChunkAccess.make 1%nat 1 12 5; ChunkAccess.make 0%nat 0 10 5] 2)
            _ _ 16).
  - repeat (constructor; [unfold Props.below_max, u64_max; lia |]).
    constructor.
  - vm_compute. left.
Defined.

(** *** The transition limit *)

(** X12: with [transition_limit(l)], [l] at least 1, the non-empty slice
    that [build()] returns spans at most [l] transitions:
    [transition_last - transition_first + 1], computed on 64 bits as line
    143 does, is at most [l]. *)
Theorem built_slice_within_transition_limit overlap touch count calls l :
  1 <= l ->
  let s := build (snd (inserts (Props.configure overlap touch (Some l) count)
                               calls)) in
  Slice.empty s = false ->
  wrap64 (Slice.transition_last s - Slice.transition_first s + 1) <= l.
Proof.
  intros Hl s Hne.
  pose proof (reached_within_transition_limit overlap touch (Some l) count calls)
    as Hw.
  pose proof (reached_limits overlap touch (Some l) count calls) as [_ Hlim].
  set (b := snd (inserts (Props.configure overlap touch (Some l) count) calls)) in *.
  pose proof (build_fields b) as (Hf & Hla & He).
  subst s. rewrite Hf, Hla.
  unfold within_transition_limit in Hw. rewrite Hlim in Hw. simpl in Hw.
  apply Z.ltb_ge, Hw.
  - intros k Hk. injection Hk as <-. exact Hl.
  - intros Hm. apply He in Hm. unfold Slice.empty in Hne.
    rewrite Hm in Hne. discriminate.
Qed.

Lemma built_slice_within_transition_limit_witness :
  wrap64
    (Slice.transition_last
       (build (snd (inserts (Props.configure None None (Some 2) None)
                      [(0%nat, 0, 10, 10); (1%nat, 1, 10, 10);
                       (2%nat, 2, 10, 10)])))
     - Slice.transition_first
         (build (snd (inserts (Props.configure None None (Some 2) None)
                        [(0%nat, 0, 10, 10); (1%nat, 1, 10, 10);
                         (2%nat, 2, 10, 10)])))
     + 1) <= 2.
Proof.
  apply (built_slice_within_transition_limit None None None
           [(0%nat, 0, 10, 10); (1%nat, 1, 10, 10); (2%nat, 2, 10, 10)] 2).
  - lia.
  - vm_compute. reflexivity.
Defined.

End SliceFacts.


(** * The writer *)

(** ** The sample runtime keeps the promises of the library *)

Section RuntimeFacts.

Lemma after_highest_fresh : Runtime.fresh_addresses sample_runtime.
Proof.
  intros clock live. simpl. unfold after_highest.
  apply max_list_not_elem_of_gt. apply Nat.lt_succ_diag_r.
Qed.

Lemma sort_insert_perm {A} (comp : A -> A -> bool) x l :
  sort_insert comp x l ≡ₚ x :: l.
Proof.
  induction l as [| y l IH]; simpl.
  - reflexivity.
  - destruct (comp x y); [reflexivity |].
    rewrite IH. apply Permutation_swap.
Qed.

Lemma insertion_sort_perm {A} (comp : A -> A -> bool) l :
  insertion_sort comp l ≡ₚ l.
Proof.
  unfold insertion_sort.
  assert (H : forall acc,
            foldl (fun sorted x => sort_insert comp x sorted) acc l ≡ₚ acc ++ l).
  { induction l as [| x l IH]; intros acc; simpl.
    - rewrite app_nil_r. reflexivity.
    - rewrite IH, sort_insert_perm. apply Permutation_middle. }
  apply (H []).
Qed.

Lemma sort_insert_sorted {A} (comp : A -> A -> bool) x l :
  Runtime.strict_weak_order comp ->
  StronglySorted (fun a b => comp b a = false) l ->
  StronglySorted (fun a b => comp b a = false) (sort_insert comp x l).
Proof.
  intros (Hirr & Htrans & _).
  induction l as [| y l IH]; intros Hl; simpl.
  - repeat constructor.
  - apply StronglySorted_inv in Hl as [Hl Hy].
    destruct (comp x y) eqn:Hxy.
    + constructor; [constructor; assumption |].
      assert (Hafter : forall z, comp z x = true -> comp z y = true)
        by (intros z Hz; eapply Htrans; eassumption).
      constructor.
      * destruct (comp y x) eqn:Hyx; [| reflexivity].
        rewrite <- (Hirr y). symmetry. apply Hafter, Hyx.
      * eapply Forall_impl; [exact Hy |]. simpl. intros z Hz.
        destruct (comp z x) eqn:Hzx; [| reflexivity].
        rewrite <- Hz. symmetry. apply Hafter, Hzx.
    + constructor; [apply IH, Hl |].
      apply Forall_forall. intros z Hz.
      rewrite sort_insert_perm in Hz.
      apply elem_of_cons in Hz as [-> | Hz]; [exact Hxy |].
      rewrite Forall_forall in Hy. apply Hy, Hz.
Qed.

Lemma insertion_sort_sorted {A} (comp : A -> A -> bool) l :
  Runtime.strict_weak_order comp ->
  StronglySorted (fun a b => comp b a = false) (insertion_sort comp l).
Proof.
  intros Hcomp. unfold insertion_sort.
  assert (H : forall acc,
            StronglySorted (fun a b => comp b a = false) acc ->
            StronglySorted (fun a b => comp b a = false)
              (foldl (fun sorted x => sort_insert comp x sorted) acc l)).
  { induction l as [| x l IH]; intros acc Hacc; simpl.
    - exact Hacc.
    - apply IH, sort_insert_sorted; assumption. }
  apply H. constructor.
Qed.

Lemma insertion_sort_sorts : Runtime.sorts sample_runtime.
Proof.
  intros comp l Hcomp. simpl. split.
  - apply insertion_sort_perm.
  - apply insertion_sort_sorted, Hcomp.
Qed.

(** The lambda of [insert_chunks] is a comparator that [std::sort]
    accepts. *)
Lemma address_first_above_order : Runtime.strict_weak_order address_first_above.
Proof.
  unfold Runtime.strict_weak_order, address_first_above.
  split; [| split].
  - intros a. apply Z.ltb_irrefl.
  - intros a b c H1 H2. apply Z.ltb_lt in H1, H2. apply Z.ltb_lt. lia.
  - intros a b c H1 H2. apply Z.ltb_ge in H1, H2. apply Z.ltb_ge. lia.
Qed.

Lemma sorted_weaken {A} (R S : A -> A -> Prop) l :
  (forall a b, R a b -> S a b) -> StronglySorted R l -> StronglySorted S l.
Proof.
  intros HRS. induction 1 as [| a l Hl IH Ha]; constructor.
  - exact IH.
  - eapply Forall_impl; [exact Ha |]. intros b. apply HRS.
Qed.

(** What the [std::sort] call of [insert_chunks] leaves. *)
Lemma sorted_chunk_list rt l :
  Runtime.sorts rt ->
  Runtime.sort rt address_first_above l ≡ₚ l
  /\ StronglySorted
       (fun a b => Chunk.address_first (ChunkWithDescription.chunk b)
                   <= Chunk.address_first (ChunkWithDescription.chunk a))
       (Runtime.sort rt address_first_above l).
Proof.
  intros Hrt. destruct (Hrt _ l address_first_above_order) as [Hperm Hsorted].
  split; [exact Hperm |].
  eapply sorted_weaken; [| exact Hsorted].
  unfold address_first_above. intros a b H. simpl in H. apply Z.ltb_ge, H.
Qed.

End RuntimeFacts.

(** ** The rows of the chunks table *)

Section ChunkRows.

Lemma foldl_pointwise {A B} (f g : A -> B -> A) l :
  (forall a b, f a b = g a b) -> forall a, foldl f a l = foldl g a l.
Proof.
  intros H. induction l as [| b l IH]; intros a; simpl.
  - reflexivity.
  - rewrite H. apply IH.
Qed.

Lemma insert_chunks_fold rt db read_slice write_slice slice_id :
  insert_chunks rt db read_slice write_slice slice_id
  = foldl (chunk_step slice_id) (∅, db)
      (Runtime.sort rt address_first_above (chunk_list read_slice write_slice)).
Proof.
  unfold insert_chunks. apply foldl_pointwise.
  intros [m db0] it. reflexivity.
Qed.

Lemma row_at_app {A} (table table' : list A) rowid x :
  row_at table rowid = Some x -> row_at (table ++ table') rowid = Some x.
Proof.
  unfold row_at. destruct (rowid <? 1); [discriminate |].
  intros H. apply lookup_app_l_Some. exact H.
Qed.

Lemma row_at_last {A} (table : list A) x :
  row_at (table ++ [x]) (Z.of_nat (length (table ++ [x]))) = Some x.
Proof.
  unfold row_at. rewrite length_app. simpl.
  destruct (Z.ltb_spec (Z.of_nat (length table + 1)) 1) as [H | H]; [lia |].
  replace (Z.to_nat (Z.of_nat (length table + 1) - 1)) with (length table) by lia.
  rewrite lookup_app_r by lia. rewrite Nat.sub_diag. reflexivity.
Qed.

Lemma emplace_fold chunk_id (l : list ChunkAccess.t) :
  forall (m : ChunkAccessToRowId) p v,
    foldl (fun m a => emplace (ChunkAccess.self a) chunk_id m) m l !! p = Some v ->
    m !! p = Some v
    \/ (v = chunk_id /\ exists n, n ∈ l /\ ChunkAccess.self n = p).
Proof.
  induction l as [| a l IH]; intros m p v H; simpl in H.
  - left. exact H.
  - apply IH in H as [H | (-> & n & Hn & Hp)].
    + unfold emplace in H.
      destruct (m !! ChunkAccess.self a) eqn:Ha; [left; exact H |].
      destruct (decide (ChunkAccess.self a = p)) as [<- | Hne].
      * rewrite lookup_insert_eq in H. injection H as <-.
        right. split; [reflexivity |]. exists a. split; [left | reflexivity].
      * rewrite lookup_insert_ne in H by exact Hne. left. exact H.
    + right. split; [reflexivity |]. exists n. split; [right; exact Hn | exact Hp].
Qed.

Lemma emplace_fold_keys chunk_id (l : list ChunkAccess.t) :
  forall m : ChunkAccessToRowId,
    (forall p, is_Some (m !! p) ->
       is_Some (foldl (fun m a => emplace (ChunkAccess.self a) chunk_id m) m l !! p))
    /\ (forall n, n ∈ l ->
          is_Some (foldl (fun m a => emplace (ChunkAccess.self a) chunk_id m) m l
                   !! ChunkAccess.self n)).
Proof.
  induction l as [| a l IH]; intros m; simpl.
  - split; [intros p Hp; exact Hp |].
    intros n Hn. apply elem_of_nil in Hn. contradiction.
  - destruct (IH (emplace (ChunkAccess.self a) chunk_id m)) as [Hkeep Hnew].
    assert (Hstep : forall p, is_Some (m !! p) ->
                      is_Some (emplace (ChunkAccess.self a) chunk_id m !! p)).
    { intros p Hp. unfold emplace.
      destruct (m !! ChunkAccess.self a) eqn:Ha; [exact Hp |].
      destruct (decide (ChunkAccess.self a = p)) as [<- | Hne].
      - rewrite lookup_insert_eq. eexists. reflexivity.
      - rewrite lookup_insert_ne by exact Hne. exact Hp. }
    split.
    + intros p Hp. apply Hkeep, Hstep, Hp.
    + intros n Hn. apply elem_of_cons in Hn as [-> | Hn]; [| apply Hnew, Hn].
      apply Hkeep. unfold emplace.
      destruct (m !! ChunkAccess.self a) eqn:Ha.
      * rewrite Ha. eexists. reflexivity.
      * rewrite lookup_insert_eq. eexists. reflexivity.
Qed.

(** The chunk rows a flush appends, and where the map of node addresses
    points. *)
Lemma chunk_fold slice_id l :
  forall m db m' db',
    foldl (chunk_step slice_id) (m, db) l = (m', db') ->
    Db.slices db' = Db.slices db
    /\ Db.accesses db' = Db.accesses db
    /\ Db.chunks db' = Db.chunks db ++ map (chunk_row slice_id) l
    /\ forall p chunk_id,
         m' !! p = Some chunk_id ->
         m !! p = Some chunk_id
         \/ exists it n,
              it ∈ l /\ n ∈ Chunk.accesses (ChunkWithDescription.chunk it)
              /\ ChunkAccess.self n = p
              /\ row_at (Db.chunks db') chunk_id = Some (chunk_row slice_id it).
Proof.
  induction l as [| it l IH]; intros m db m' db' H; simpl in H.
  - injection H as <- <-. rewrite app_nil_r.
    repeat split; try reflexivity. intros p chunk_id Hp. left. exact Hp.
  - apply IH in H as (Hs & Ha & Hc & Hm). simpl in Hs, Ha, Hc.
    split; [exact Hs |]. split; [exact Ha |].
    split; [rewrite Hc, <- List.app_assoc; reflexivity |].
    intros p chunk_id Hp.
    destruct (Hm p chunk_id Hp) as [H | (it' & n & Hit & Hn & Hself & Hrow)].
    + apply emplace_fold in H as [H | (-> & n & Hn & Hself)]; [left; exact H |].
      right. exists it, n. split; [left |]. split; [exact Hn |].
      split; [exact Hself |].
      rewrite Hc. apply row_at_app. apply row_at_last.
    + right. exists it', n. split; [right; exact Hit |].
      repeat split; assumption.
Qed.

(** After the loop of [insert_chunks], the map has an entry for every node
    of every chunk of the list. *)
Lemma chunk_fold_keys slice_id l :
  forall m db,
    (forall p, is_Some (m !! p) ->
       is_Some (fst (foldl (chunk_step slice_id) (m, db) l) !! p))
    /\ (forall it n,
          it ∈ l -> n ∈ Chunk.accesses (ChunkWithDescription.chunk it) ->
          is_Some (fst (foldl (chunk_step slice_id) (m, db) l)
                   !! ChunkAccess.self n)).
Proof.
  induction l as [| it l IH]; intros m db; simpl.
  - split; [intros p Hp; exact Hp |].
    intros it n Hit. apply elem_of_nil in Hit. contradiction.
  - match goal with
    | |- context [foldl (chunk_step slice_id) (?m1, ?db1) l] =>
        destruct (IH m1 db1) as [Hkeep Hnew];
        destruct (emplace_fold_keys
                    (Z.of_nat (length (Db.chunks db1)))
                    (Chunk.accesses (ChunkWithDescription.chunk it)) m)
          as [Hkeep1 Hnew1]
    end.
    split.
    + intros p Hp. apply Hkeep, Hkeep1, Hp.
    + intros it' n Hit Hn. apply elem_of_cons in Hit as [-> | Hit].
      * apply Hkeep, Hnew1, Hn.
      * eapply Hnew; eassumption.
Qed.

Lemma chunk_list_elem read_slice write_slice it :
  it ∈ chunk_list read_slice write_slice ->
  (ChunkWithDescription.operation it = operation_byte Read
   /\ ChunkWithDescription.chunk it ∈ Slice.chunks read_slice)
  \/ (ChunkWithDescription.operation it = operation_byte Write
      /\ ChunkWithDescription.chunk it ∈ Slice.chunks write_slice).
Proof.
  unfold chunk_list. intros H. apply elem_of_app in H as [H | H];
    apply list_elem_of_fmap in H as (c & -> & Hc); [left | right];
    split; [reflexivity | exact Hc | reflexivity | exact Hc].
Qed.

Lemma sorted_map_rows slice_id l :
  StronglySorted
    (fun a b => Chunk.address_first (ChunkWithDescription.chunk b)
                <= Chunk.address_first (ChunkWithDescription.chunk a)) l ->
  StronglySorted
    (fun r r' => ChunkRow.phy_first r' <= ChunkRow.phy_first r)
    (map (chunk_row slice_id) l).
Proof.
  induction 1 as [| a l Hl IH Ha]; simpl; constructor.
  - exact IH.
  - apply Forall_forall. intros r Hr.
    apply list_elem_of_fmap in Hr as (b & -> & Hb).
    rewrite Forall_forall in Ha. simpl. apply Ha, Hb.
Qed.

(** X16: [insert_chunks] appends one row per chunk of the read slice and of
    the write slice, each with the slice id, the range and the operation of
    its chunk, and it writes these rows by descending first address: no
    row has a [phy_first] above that of a row written before it in the same
    flush. This holds for whatever order [std::sort] leaves among chunks of
    equal first address. *)
Theorem chunk_rows_descend rt db read_slice write_slice slice_id :
  Runtime.sorts rt ->
  exists rows,
    Db.chunks (snd (insert_chunks rt db read_slice write_slice slice_id))
    = Db.chunks db ++ rows
    /\ rows ≡ₚ map (chunk_row slice_id) (chunk_list read_slice write_slice)
    /\ StronglySorted
         (fun r r' => ChunkRow.phy_first r' <= ChunkRow.phy_first r) rows.
Proof.
  intros Hrt.
  destruct (sorted_chunk_list rt (chunk_list read_slice write_slice) Hrt)
    as [Hperm Hsorted].
  exists (map (chunk_row slice_id)
            (Runtime.sort rt address_first_above
               (chunk_list read_slice write_slice))).
  split; [| split].
  - rewrite insert_chunks_fold.
    destruct (foldl (chunk_step slice_id) (∅, db)
                (Runtime.sort rt address_first_above
                   (chunk_list read_slice write_slice)))
      as [m db'] eqn:Hf.
    apply chunk_fold in Hf as (_ & _ & Hc & _). exact Hc.
  - apply Permutation_map, Hperm.
  - apply sorted_map_rows, Hsorted.
Qed.

Lemma chunk_rows_descend_witness :
  exists rows,
    Db.chunks
      (snd (insert_chunks sample_runtime Db.create
              (SliceBuilder.build
                 (snd (SliceBuilder.inserts DbWriter.fresh_builder
                         [(0%nat, 0, 10, 4); (1%nat, 1, 100, 4)])))
              (SliceBuilder.build
                 (snd (SliceBuilder.inserts DbWriter.fresh_builder
                         [(2%nat, 1, 10, 8)])))
              1))
    = Db.chunks Db.create ++ rows
    /\ rows
       ≡ₚ map (chunk_row 1)
            (chunk_list
               (SliceBuilder.build
                  (snd (SliceBuilder.inserts DbWriter.fresh_builder
                          [(0%nat, 0, 10, 4); (1%nat, 1, 100, 4)])))
               (SliceBuilder.build
                  (snd (SliceBuilder.inserts DbWriter.fresh_builder
                          [(2%nat, 1, 10, 8)]))))
    /\ StronglySorted
         (fun r r' => ChunkRow.phy_first r' <= ChunkRow.phy_first r) rows.
Proof.
  apply (chunk_rows_descend sample_runtime). apply insertion_sort_sorts.
Defined.

End ChunkRows.

(** ** Flushes and rejected accesses *)

Section WriterFacts.

Lemma insert_slices_done rt w w' :
  DbWriter.insert_slices rt w = (Done, w') ->
  DbWriter.current_access_list_ w' = []
  /\ DbWriter.heap_clock w' = DbWriter.heap_clock w.
Proof.
  unfold DbWriter.insert_slices.
  destruct (DbWriter.current_access_list_ w) as [| i log] eqn:Hlog.
  - intros H. injection H as <-. rewrite Hlog. split; reflexivity.
  - destruct (DbWriter.read_slice_builder_ w) as [read_builder |]; [| discriminate].
    destruct (DbWriter.write_slice_builder_ w) as [write_builder |]; [| discriminate].
    destruct (insert_slice _ _ _) as [e | [slice_id db1]]; [discriminate |].
    destruct (insert_chunks _ _ _ _ _) as [m db2].
    destruct (insert_accesses db2 _ (i :: log) m) as [[| e] db3];
      [| discriminate].
    intros H. injection H as <-. simpl. split; reflexivity.
Qed.

(** X13: a flush with an empty access log returns at once and leaves the
    writer as it is; a flush that returned has emptied the log, so flushing
    again changes nothing. *)
Theorem flush_twice_is_flush_once rt w w' :
  DbWriter.insert_slices rt w = (Done, w') ->
  DbWriter.current_access_list_ w' = []
  /\ DbWriter.insert_slices rt w' = (Done, w').
Proof.
  intros H. apply insert_slices_done in H as (Hlog & _).
  split; [exact Hlog |].
  unfold DbWriter.insert_slices. rewrite Hlog. reflexivity.
Qed.

Lemma flush_twice_is_flush_once_witness :
  DbWriter.current_access_list_
    (snd (DbWriter.insert_slices sample_runtime
            (snd (DbWriter.pushes sample_runtime DbWriter.create
                    [MemoryAccess.make 0 10 6666 10 true Write;
                     MemoryAccess.make 1 100 156 10 false Read])))) = []
  /\ DbWriter.insert_slices sample_runtime
       (snd (DbWriter.insert_slices sample_runtime
               (snd (DbWriter.pushes sample_runtime DbWriter.create
                       [MemoryAccess.make 0 10 6666 10 true Write;
                        MemoryAccess.make 1 100 156 10 false Read]))))
     = (Done,
        snd (DbWriter.insert_slices sample_runtime
               (snd (DbWriter.pushes sample_runtime DbWriter.create
                       [MemoryAccess.make 0 10 6666 10 true Write;
                        MemoryAccess.make 1 100 156 10 false Read])))).
Proof.
  apply (flush_twice_is_flush_once sample_runtime
           (snd (DbWriter.pushes sample_runtime DbWriter.create
                   [MemoryAccess.make 0 10 6666 10 true Write;
                    MemoryAccess.make 1 100 156 10 false Read]))).
  vm_compute. reflexivity.
Defined.

(** X14: [push] answers an access with the runtime error "Execute access is
    not supported" exactly when its operation is Execute, and then the
    writer is left as it was: nothing is inserted, logged or flushed. *)
Theorem push_rejects_execute_only rt w access :
  (MemoryAccess.operation access = Execute ->
   DbWriter.push rt w access = (Throw runtime_error_execute, w))
  /\ (fst (DbWriter.push rt w access) = Throw runtime_error_execute ->
      MemoryAccess.operation access = Execute).
Proof.
  split.
  - intros Hop. unfold DbWriter.push, DbWriter.builder_insert, DbWriter.builder.
    rewrite Hop. reflexivity.
  - destruct (MemoryAccess.operation access) eqn:Hop; [reflexivity | | |].
    all: unfold DbWriter.push.
    all: destruct (DbWriter.builder_insert rt w access) as [e | [r w1]] eqn:H1.
    all: try (unfold DbWriter.builder_insert, DbWriter.builder in H1;
              rewrite Hop in H1; repeat case_match; simplify_eq;
              simpl; discriminate).
    all: destruct r; simpl; try discriminate.
    all: destruct (DbWriter.insert_slices rt w1) as [[| e] w2] eqn:H2; simpl.
    all: try (apply insert_slices_throw in H2 as [-> | [-> | [-> | ->]]];
              discriminate).
    all: destruct (DbWriter.builder_insert rt (DbWriter.create_slices w2) access)
           as [e | [r w3]] eqn:H3.
    all: try (unfold DbWriter.builder_insert, DbWriter.builder in H3;
              rewrite Hop in H3; repeat case_match; simplify_eq;
              simpl; discriminate).
    all: destruct r; simpl; discriminate.
Qed.

Lemma push_rejects_execute_only_witness :
  DbWriter.push sample_runtime DbWriter.create
    (MemoryAccess.make 0 10 6666 10 true Execute)
  = (Throw runtime_error_execute, DbWriter.create).
Proof.
  apply (proj1 (push_rejects_execute_only sample_runtime DbWriter.create
                  (MemoryAccess.make 0 10 6666 10 true Execute))).
  reflexivity.
Defined.

End WriterFacts.

(** ** The open batch *)

Section BatchInvariant.

Import DbWriter.

Lemma merge_in_contained c other :
  contained c -> contained other -> contained (Chunk.merge_in c other).
Proof.
  unfold contained, Chunk.merge_in, Chunk.accesses, Chunk.address_first,
    Chunk.address_last. simpl.
  intros Hc Ho n Hn. apply elem_of_app in Hn as [Hn | Hn].
  - specialize (Hc n Hn). lia.
  - specialize (Ho n Hn). lia.
Qed.

Lemma merge_all_contained c overlaps :
  contained c -> Forall (fun e => contained (snd e)) overlaps ->
  contained (merge_all c overlaps).
Proof.
  unfold merge_all. revert c.
  induction overlaps as [| o overlaps IH]; intros c Hc Ho; simpl.
  - exact Hc.
  - apply Forall_cons in Ho as [Ho1 Ho2].
    apply IH; [apply merge_in_contained; assumption | exact Ho2].
Qed.

Lemma make_contained p icount address size :
  is_u64 address -> is_u32 size -> size <> 0 ->
  (wrap64 (address - 1 + size) <? address) = false ->
  contained (Chunk.make p icount address (wrap32 size)).
Proof.
  unfold is_u64, is_u32. intros Ha Hs Hnz Hw.
  assert (Hlast : address + size - 1 <= u64_max).
  { destruct (Z_le_gt_dec (address + size - 1) u64_max) as [H | H]; [exact H |].
    assert (Hwrap : (wrap64 (address - 1 + size) <? address) = true).
    { apply wrap_check; [exact Ha | unfold u64_max; lia | lia]. }
    congruence. }
  unfold contained, Chunk.make, Chunk.accesses, Chunk.address_first,
    Chunk.address_last. simpl.
  intros n Hn. apply list_elem_of_singleton in Hn as ->. simpl.
  rewrite wrap32_small by lia. rewrite wrap64_small by lia. lia.
Qed.

Lemma insert_contained b p icount address size :
  is_u64 address -> is_u32 size ->
  Forall (fun e => contained (snd e))
         (Slice.access_chunks_ (SliceBuilder.slice_ b)) ->
  Forall (fun e => contained (snd e))
         (Slice.access_chunks_
            (SliceBuilder.slice_ (snd (SliceBuilder.insert b p icount address size)))).
Proof.
  intros Ha Hs Hb.
  destruct (SliceBuilder.insert b p icount address size) as [r b'] eqn:Hi. simpl.
  destruct r as [access | |].
  - apply insert_inserted_map in Hi as (Hnz & Hw & ->).
    apply insert_Forall.
    + simpl. apply merge_all_contained.
      * apply make_contained; assumption.
      * apply Forall_forall. intros o Ho. rewrite Forall_forall in Hb.
        eapply Hb, find_overlaps_elem, Ho.
    + apply erase_all_Forall, Hb.
  - apply insert_refused in Hi as (-> & _). exact Hb.
  - apply insert_invalid in Hi as (-> & _). exact Hb.
Qed.

(** *** Sound builders *)

Lemma builder_sound_fresh : builder_sound fresh_builder.
Proof.
  unfold builder_sound. split; [| split].
  - exists []. unfold holds. simpl. repeat split; constructor.
  - constructor.
  - exists []. unfold transitions_kept. simpl.
    split; [reflexivity |]. split; [constructor |]. split; [constructor |].
    split; [intros H; contradiction | reflexivity].
Qed.

Lemma insert_sound b p icount address size :
  Props.below_max (p, icount, address, size) ->
  builder_sound b ->
  builder_sound (snd (SliceBuilder.insert b p icount address size)).
Proof.
  intros Hbelow ((acc & Hholds) & Hcont & (acc' & Hkept)).
  pose proof Hbelow as (Ha & Hs & Hlast).
  split; [| split].
  - eexists. apply insert_holds; eassumption.
  - apply insert_contained; [| | exact Hcont].
    + unfold is_u64, u64_max in *. lia.
    + unfold is_u32. exact Hs.
  - eexists. apply insert_transitions_kept. exact Hkept.
Qed.

(** An accepted insert adds its node to the nodes of the builder, and drops
    none of them. *)
Lemma insert_sound_nodes b p icount address size access b' :
  Props.below_max (p, icount, address, size) ->
  builder_sound b ->
  SliceBuilder.insert b p icount address size = (Inserted access, b') ->
  access = ChunkAccess.make p icount address size
  /\ nodes b' ≡ₚ nodes b ++ [access].
Proof.
  intros Hbelow ((acc & Hholds) & _) Hi.
  pose proof Hbelow as (Ha & Hs & Hlast).
  pose proof (insert_holds acc b p icount address size Hbelow Hholds) as Hnew.
  rewrite Hi in Hnew. simpl in Hnew.
  destruct Hholds as (_ & _ & Hperm). destruct Hnew as (_ & _ & Hperm').
  split.
  - apply insert_inserted in Hi as (-> & _).
    rewrite wrap32_small by exact Hs. reflexivity.
  - unfold nodes. rewrite Hperm', Hperm. reflexivity.
Qed.

Lemma insert_refused_nodes b p icount address size b' :
  SliceBuilder.insert b p icount address size = (Refused, b') ->
  nodes b' = nodes b.
Proof.
  intros Hi. apply insert_refused in Hi as (Hm & _).
  unfold nodes. rewrite Hm. reflexivity.
Qed.

(** *** Pointers and nodes *)

Lemma slice_nodes_build b : slice_nodes (SliceBuilder.build b) = nodes b.
Proof. apply build_traversal. Qed.

Lemma deref_node heap n :
  NoDup (map ChunkAccess.self heap) -> n ∈ heap ->
  deref heap (ChunkAccess.self n) = Some n.
Proof.
  unfold deref. induction heap as [| a heap IH]; intros Hnd Hn.
  - apply elem_of_nil in Hn. contradiction.
  - simpl in Hnd. apply NoDup_cons in Hnd as [Ha Hnd]. simpl.
    destruct (Nat.eqb_spec (ChunkAccess.self a) (ChunkAccess.self n)) as [Heq | Hne].
    + apply elem_of_cons in Hn as [-> | Hn]; [reflexivity |].
      exfalso. apply Ha. rewrite Heq.
      apply list_elem_of_fmap. exists n. split; [reflexivity | exact Hn].
    + apply elem_of_cons in Hn as [-> | Hn]; [contradiction |].
      apply IH; assumption.
Qed.

Lemma same_address heap n n' :
  NoDup (map ChunkAccess.self heap) -> n ∈ heap -> n' ∈ heap ->
  ChunkAccess.self n = ChunkAccess.self n' -> n = n'.
Proof.
  intros Hnd Hn Hn' Heq.
  pose proof (deref_node heap n Hnd Hn) as H.
  pose proof (deref_node heap n' Hnd Hn') as H'.
  rewrite Heq in H. congruence.
Qed.

(** A live node belongs to one builder only. *)
Lemma one_builder (l1 l2 : list ChunkAccess.t) n :
  NoDup (map ChunkAccess.self (l1 ++ l2)) -> n ∈ l1 -> n ∈ l2 -> False.
Proof.
  rewrite map_app. intros Hnd H1 H2.
  apply NoDup_app in Hnd as (_ & Hdisj & _).
  apply (Hdisj (ChunkAccess.self n)); apply list_elem_of_fmap; exists n;
    split; try reflexivity; assumption.
Qed.

(** A node of a builder is a node of a chunk of the built slice. *)
Lemma built_chunk_of_node b n :
  n ∈ nodes b ->
  exists c, c ∈ Slice.chunks (SliceBuilder.build b) /\ n ∈ Chunk.accesses c.
Proof.
  unfold nodes. rewrite <- build_traversal. intros Hn.
  apply traversal_elem in Hn as (e & He & Hn).
  exists (snd e). split; [| exact Hn].
  unfold Slice.chunks, StdMap.chunks. apply list_elem_of_fmap.
  exists e. split; [reflexivity | exact He].
Qed.

(** A node of a chunk of the built slice, for a sound builder. *)
Lemma built_node b c n :
  builder_sound b ->
  c ∈ Slice.chunks (SliceBuilder.build b) ->
  n ∈ Chunk.accesses c ->
  n ∈ nodes b
  /\ Slice.empty (SliceBuilder.build b) = false
  /\ Chunk.address_first c <= ChunkAccess.address n
  /\ ChunkAccess.address n + ChunkAccess.size n - 1 <= Chunk.address_last c
  /\ Slice.transition_first (SliceBuilder.build b) <= ChunkAccess.transition n
  /\ ChunkAccess.transition n <= Slice.transition_last (SliceBuilder.build b).
Proof.
  intros (_ & Hc & acc & Ht) Hin Hn.
  unfold Slice.chunks, StdMap.chunks in Hin.
  apply list_elem_of_fmap in Hin as (entry & -> & Hentry).
  assert (Hnode : n ∈ nodes b).
  { unfold nodes. rewrite <- build_traversal.
    apply traversal_elem. exists entry. split; assumption. }
  split; [exact Hnode |].
  pose proof (build_fields b) as (Hf & Hl & Hempty).
  assert (Hne : Slice.access_chunks_ (SliceBuilder.slice_ b) <> []).
  { intros Hnil. apply Hempty in Hnil. rewrite Hnil in Hentry.
    apply elem_of_nil in Hentry. contradiction. }
  split.
  { unfold Slice.empty, StdMap.empty.
    destruct (Slice.access_chunks_ (SliceBuilder.build b)) eqn:Hb;
      [| reflexivity].
    apply elem_of_nil in Hentry. contradiction. }
  assert (Hcont : contained (snd entry)).
  { pose proof (build_Forall contained b
                  (fun c other Hc' Ho _ => merge_in_contained c other Hc' Ho) Hc)
      as Hall.
    rewrite Forall_forall in Hall. apply Hall, Hentry. }
  destruct (Hcont n Hn) as (Hlo & Hhi).
  split; [exact Hlo |]. split; [exact Hhi |].
  destruct Ht as (_ & _ & _ & Hbound & _).
  destruct (Hbound Hne) as (_ & Hb). rewrite Hf, Hl.
  apply Hb. exact Hnode.
Qed.

Lemma live_builders w rb wb :
  read_slice_builder_ w = Some rb -> write_slice_builder_ w = Some wb ->
  live w = map ChunkAccess.self (nodes rb ++ nodes wb).
Proof. unfold live. intros -> ->. reflexivity. Qed.

(** *** The access log *)

Lemma logged_later w w' e a :
  (forall b,
     builder (MemoryAccess.operation a) w = inr (Some b) ->
     exists b',
       builder (MemoryAccess.operation a) w' = inr (Some b')
       /\ forall n, n ∈ nodes b -> n ∈ nodes b') ->
  logged w e a -> logged w' e a.
Proof.
  intros Hw (Hv & Hva & Hop & b & n & Hb & Hn & Hrest).
  destruct (Hw b Hb) as (b' & Hb' & Hnodes).
  split; [exact Hv |]. split; [exact Hva |]. split; [exact Hop |].
  exists b', n. split; [exact Hb' |]. split; [apply Hnodes, Hn | exact Hrest].
Qed.

Lemma batch_open_create_slices w :
  current_access_list_ w = [] -> batch_open (create_slices w) [].
Proof.
  intros Hlog. exists fresh_builder, fresh_builder. simpl.
  split; [reflexivity |]. split; [reflexivity |].
  split; [apply builder_sound_fresh |]. split; [apply builder_sound_fresh |].
  split; [constructor |]. rewrite Hlog. constructor.
Qed.

Lemma batch_open_create : batch_open create [].
Proof. apply batch_open_create_slices. reflexivity. Qed.

(** An accepted insert, and the entry that [push] logs for it. *)
Lemma builder_insert_inserted_batch rt w batch access inserted_access w1 :
  Runtime.fresh_addresses rt ->
  access_below_max access ->
  batch_open w batch ->
  builder_insert rt w access = inr (Inserted inserted_access, w1) ->
  batch_open (push_back (info_of inserted_access access) w1) (batch ++ [access])
  /\ db_ w1 = db_ w.
Proof.
  intros Hfresh Hbelow (rb & wb & Hrb & Hwb & Hr & Hw & Hnd & Hlog).
  pose proof (Hfresh (heap_clock w) (live w)) as Hp.
  unfold builder_insert.
  set (p := Runtime.allocate rt (heap_clock w) (live w)) in *.
  rewrite (live_builders w rb wb Hrb Hwb) in Hnd, Hp.
  destruct (MemoryAccess.operation access) eqn:Hop; simpl; try discriminate.
  - (* Write *)
    rewrite Hwb.
    destruct (SliceBuilder.insert wb _ _ _ _) as [r b'] eqn:Hi.
    intros H. injection H as -> <-. simpl. split; [| reflexivity].
    match type of Hi with
    | SliceBuilder.insert ?b ?p ?i ?a ?s = _ =>
        pose proof (insert_sound b p i a s Hbelow Hw) as Hsound;
        destruct (insert_sound_nodes b p i a s _ _ Hbelow Hw Hi) as (Hacc & Hperm)
    end.
    rewrite Hi in Hsound. simpl in Hsound.
    exists rb, b'. simpl.
    split; [exact Hrb |]. split; [reflexivity |].
    split; [exact Hr |]. split; [exact Hsound |]. split.
    + rewrite (live_builders _ rb b') by (simpl; auto).
      rewrite Hperm, List.app_assoc, map_app. simpl.
      apply NoDup_app. split; [exact Hnd |]. split.
      * intros x Hx Hx'. apply list_elem_of_singleton in Hx'. subst x.
        apply Hp. rewrite Hacc in Hx. exact Hx.
      * apply NoDup_singleton.
    + apply Forall2_app.
      * eapply Forall2_impl; [exact Hlog |]. intros e a. apply logged_later.
        destruct (MemoryAccess.operation a); simpl; try discriminate.
        -- intros b Hb. exists b'. split; [reflexivity |].
           rewrite Hwb in Hb. injection Hb as <-.
           intros n Hn. rewrite Hperm. apply elem_of_app. left. exact Hn.
        -- intros b Hb. exists b. split; [exact Hb | auto].
      * constructor; [| constructor].
        unfold logged, info_of. simpl. rewrite Hop. simpl.
        split; [reflexivity |]. split; [reflexivity |]. split; [reflexivity |].
        exists b', inserted_access. split; [reflexivity |].
        split; [rewrite Hperm; apply elem_of_app; right; left |].
        rewrite Hacc. simpl. repeat split; reflexivity.
  - (* Read *)
    rewrite Hrb.
    destruct (SliceBuilder.insert rb _ _ _ _) as [r b'] eqn:Hi.
    intros H. injection H as -> <-. simpl. split; [| reflexivity].
    match type of Hi with
    | SliceBuilder.insert ?b ?p ?i ?a ?s = _ =>
        pose proof (insert_sound b p i a s Hbelow Hr) as Hsound;
        destruct (insert_sound_nodes b p i a s _ _ Hbelow Hr Hi) as (Hacc & Hperm)
    end.
    rewrite Hi in Hsound. simpl in Hsound.
    exists b', wb. simpl.
    split; [reflexivity |]. split; [exact Hwb |].
    split; [exact Hsound |]. split; [exact Hw |]. split.
    + rewrite (live_builders _ b' wb) by (simpl; auto).
      rewrite Hperm.
      rewrite <- List.app_assoc.
      rewrite (Permutation_app_comm [inserted_access]).
      rewrite List.app_assoc, map_app. simpl.
      apply NoDup_app. split; [exact Hnd |]. split.
      * intros x Hx Hx'. apply list_elem_of_singleton in Hx'. subst x.
        apply Hp. rewrite Hacc in Hx. exact Hx.
      * apply NoDup_singleton.
    + apply Forall2_app.
      * eapply Forall2_impl; [exact Hlog |]. intros e a. apply logged_later.
        destruct (MemoryAccess.operation a); simpl; try discriminate.
        -- intros b Hb. exists b. split; [exact Hb | auto].
        -- intros b Hb. exists b'. split; [reflexivity |].
           rewrite Hrb in Hb. injection Hb as <-.
           intros n Hn. rewrite Hperm. apply elem_of_app. left. exact Hn.
      * constructor; [| constructor].
        unfold logged, info_of. simpl. rewrite Hop. simpl.
        split; [reflexivity |]. split; [reflexivity |]. split; [reflexivity |].
        exists b', inserted_access. split; [reflexivity |].
        split; [rewrite Hperm; apply elem_of_app; right; left |].
        rewrite Hacc. simpl. repeat split; reflexivity.
Qed.

(** A refused insert leaves the open batch as it is. *)
Lemma builder_insert_refused_batch rt w batch access w1 :
  batch_open w batch ->
  builder_insert rt w access = inr (Refused, w1) ->
  batch_open w1 batch /\ db_ w1 = db_ w.
Proof.
  intros (rb & wb & Hrb & Hwb & Hr & Hw & Hnd & Hlog).
  rewrite (live_builders w rb wb Hrb Hwb) in Hnd.
  unfold builder_insert.
  destruct (MemoryAccess.operation access) eqn:Hop; simpl; try discriminate.
  - rewrite Hwb.
    destruct (SliceBuilder.insert wb _ _ _ _) as [r b'] eqn:Hi.
    intros H. injection H as -> <-. simpl. split; [| reflexivity].
    pose proof (insert_refused_nodes _ _ _ _ _ _ Hi) as Hnodes.
    exists rb, b'. simpl.
    split; [exact Hrb |]. split; [reflexivity |]. split; [exact Hr |].
    split.
    { destruct Hw as ((acc & Hh) & Hc & (acc' & Hk)).
      pose proof (insert_refused _ _ _ _ _ _ Hi) as (Hm & _).
      split; [| split].
      - exists acc. unfold holds. rewrite Hm. exact Hh.
      - rewrite Hm. exact Hc.
      - eexists.
        match type of Hi with
        | SliceBuilder.insert ?b ?p ?i ?a ?s = _ =>
            pose proof (insert_transitions_kept acc' b p i a s Hk) as Hk'
        end.
        rewrite Hi in Hk'. exact Hk'. }
    split.
    + rewrite (live_builders _ rb b') by (simpl; auto). rewrite Hnodes. exact Hnd.
    + eapply Forall2_impl; [exact Hlog |]. intros e a. apply logged_later.
      destruct (MemoryAccess.operation a); simpl; try discriminate.
      * intros b Hb. exists b'. split; [reflexivity |].
        rewrite Hwb in Hb. injection Hb as <-. rewrite Hnodes. auto.
      * intros b Hb. exists b. split; [exact Hb | auto].
  - rewrite Hrb.
    destruct (SliceBuilder.insert rb _ _ _ _) as [r b'] eqn:Hi.
    intros H. injection H as -> <-. simpl. split; [| reflexivity].
    pose proof (insert_refused_nodes _ _ _ _ _ _ Hi) as Hnodes.
    exists b', wb. simpl.
    split; [reflexivity |]. split; [exact Hwb |].
    split.
    { destruct Hr as ((acc & Hh) & Hc & (acc' & Hk)).
      pose proof (insert_refused _ _ _ _ _ _ Hi) as (Hm & _).
      split; [| split].
      - exists acc. unfold holds. rewrite Hm. exact Hh.
      - rewrite Hm. exact Hc.
      - eexists.
        match type of Hi with
        | SliceBuilder.insert ?b ?p ?i ?a ?s = _ =>
            pose proof (insert_transitions_kept acc' b p i a s Hk) as Hk'
        end.
        rewrite Hi in Hk'. exact Hk'. }
    split; [exact Hw |]. split.
    + rewrite (live_builders _ b' wb) by (simpl; auto). rewrite Hnodes. exact Hnd.
    + eapply Forall2_impl; [exact Hlog |]. intros e a. apply logged_later.
      destruct (MemoryAccess.operation a); simpl; try discriminate.
      * intros b Hb. exists b. split; [exact Hb | auto].
      * intros b Hb. exists b'. split; [reflexivity |].
        rewrite Hrb in Hb. injection Hb as <-. rewrite Hnodes. auto.
Qed.

(** *** The flush of an open batch *)

Lemma insert_slice_row db read_slice write_slice slice_id db' :
  insert_slice db read_slice write_slice = inr (slice_id, db') ->
  Db.chunks db' = Db.chunks db
  /\ Db.accesses db' = Db.accesses db
  /\ exists sr,
       Db.slices db' = Db.slices db ++ [sr]
       /\ row_at (Db.slices db') slice_id = Some sr
       /\ (Slice.empty read_slice = false ->
           SliceRow.transition_first sr <= Slice.transition_first read_slice
           /\ Slice.transition_last read_slice <= SliceRow.transition_last sr)
       /\ (Slice.empty write_slice = false ->
           SliceRow.transition_first sr <= Slice.transition_first write_slice
           /\ Slice.transition_last write_slice <= SliceRow.transition_last sr).
Proof.
  unfold insert_slice.
  destruct (Slice.empty read_slice) eqn:Hr;
    destruct (Slice.empty write_slice) eqn:Hw; simpl; [discriminate | | |].
  all: intros H; injection H as <- <-; simpl.
  all: split; [reflexivity |]; split; [reflexivity |].
  all: eexists; split; [reflexivity |]; split; [apply row_at_last |].
  all: simpl; split; intros; try discriminate; lia.
Qed.

Lemma row_consistent_grows db db' r :
  (exists l, Db.chunks db' = Db.chunks db ++ l) ->
  (exists l, Db.slices db' = Db.slices db ++ l) ->
  row_consistent db r -> row_consistent db' r.
Proof.
  intros (lc & Hc) (ls & Hs) (cr & sr & H1 & H2 & H).
  exists cr, sr. rewrite Hc, Hs.
  split; [apply row_at_app, H1 |]. split; [apply row_at_app, H2 | exact H].
Qed.

(** The loop of [insert_accesses], when each entry of the log is found and
    read as [found] says. *)
Lemma insert_accesses_rows heap (m : ChunkAccessToRowId)
    (P : AccessRow.t -> Prop) log batch :
  Forall2 (fun e a =>
             exists chunk_id node,
               m !! AccessInfo.chunk_access e = Some chunk_id
               /\ deref heap (AccessInfo.chunk_access e) = Some node
               /\ Props.row_attributes (access_row chunk_id node e)
                  = Props.access_attributes a
               /\ P (access_row chunk_id node e))
          log batch ->
  forall db,
    exists db' rows,
      insert_accesses db heap log m = (Done, db')
      /\ Db.slices db' = Db.slices db
      /\ Db.chunks db' = Db.chunks db
      /\ Db.accesses db' = Db.accesses db ++ rows
      /\ map Props.row_attributes rows = map Props.access_attributes batch
      /\ Forall P rows.
Proof.
  induction 1 as [| e a log batch (chunk_id & node & Hm & Hd & Hattr & HP) Hrest IH];
    intros db; simpl.
  - exists db, []. rewrite app_nil_r. repeat split; constructor.
  - rewrite Hm, Hd.
    destruct (IH (Db.insert_into_accesses (access_row chunk_id node e) db))
      as (db' & rows & Hrun & Hs & Hc & Ha & Hmap & Hall).
    exists db', (access_row chunk_id node e :: rows).
    split; [exact Hrun |]. split; [exact Hs |]. split; [exact Hc |].
    split; [rewrite Ha; simpl; rewrite <- List.app_assoc; reflexivity |].
    split; [simpl; rewrite Hattr, Hmap; reflexivity |].
    constructor; assumption.
Qed.

(** The flush of an open batch returns: it appends one slice row, the chunk
    rows, and one access row per access of the batch, in push order, with
    the attributes of the access; each of these rows is consistent. *)
Lemma flush_batch rt w batch :
  Runtime.sorts rt ->
  batch_open w batch ->
  exists w',
    insert_slices rt w = (Done, w')
    /\ current_access_list_ w' = []
    /\ (exists l, Db.chunks (db_ w') = Db.chunks (db_ w) ++ l)
    /\ (exists l, Db.slices (db_ w') = Db.slices (db_ w) ++ l)
    /\ exists rows,
         Db.accesses (db_ w') = Db.accesses (db_ w) ++ rows
         /\ map Props.row_attributes rows = map Props.access_attributes batch
         /\ Forall (row_consistent (db_ w')) rows.
Proof.
  intros Hrt (rb & wb & Hrb & Hwb & Hr & Hw & Hnd & Hlog).
  rewrite (live_builders w rb wb Hrb Hwb) in Hnd.
  unfold insert_slices. rewrite Hrb, Hwb.
  destruct (current_access_list_ w) as [| e0 log0] eqn:Hl.
  { inversion Hlog; subst. exists w. rewrite Hl.
    split; [reflexivity |]. split; [reflexivity |].
    split; [exists []; rewrite app_nil_r; reflexivity |].
    split; [exists []; rewrite app_nil_r; reflexivity |].
    exists []. rewrite app_nil_r. repeat split; constructor. }
  rewrite <- Hl in *.
  rewrite !slice_nodes_build.
  set (read_slice := SliceBuilder.build rb) in *.
  set (write_slice := SliceBuilder.build wb) in *.
  (* every logged pointer is the address of a node of its builder *)
  assert (Hnode : forall e a,
            logged w e a ->
            exists n,
              ChunkAccess.self n = AccessInfo.chunk_access e
              /\ ChunkAccess.transition n = MemoryAccess.transition_id a
              /\ ChunkAccess.address n = MemoryAccess.physical_address a
              /\ ChunkAccess.size n = MemoryAccess.size a
              /\ ((AccessInfo.operation e = operation_byte Read /\ n ∈ nodes rb)
                  \/ (AccessInfo.operation e = operation_byte Write
                      /\ n ∈ nodes wb))).
  { intros e a (_ & _ & Hop & b & n & Hb & Hn & Hself & Ht & Ha & Hs).
    exists n. split; [exact Hself |]. split; [exact Ht |].
    split; [exact Ha |]. split; [exact Hs |].
    destruct (MemoryAccess.operation a); simpl in Hb; try discriminate.
    - right. rewrite Hwb in Hb. injection Hb as <-. split; assumption.
    - left. rewrite Hrb in Hb. injection Hb as <-. split; assumption. }
  (* the slice row *)
  assert (Hne : Slice.empty read_slice = false \/ Slice.empty write_slice = false).
  { assert (He0 : exists a0, logged w e0 a0).
    { rewrite Hl in Hlog. inversion Hlog; subst. eexists. eassumption. }
    destruct He0 as (a0 & He0).
    destruct (Hnode e0 a0 He0) as (n & _ & _ & _ & _ & [[_ Hn] | [_ Hn]]);
      [left | right].
    - apply built_chunk_of_node in Hn as (c & Hc & Hn).
      apply (built_node rb c n Hr Hc Hn).
    - apply built_chunk_of_node in Hn as (c & Hc & Hn).
      apply (built_node wb c n Hw Hc Hn). }
  destruct (insert_slice (db_ w) read_slice write_slice)
    as [ex | [slice_id db1]] eqn:Hslice.
  { exfalso. unfold insert_slice in Hslice.
    destruct (Slice.empty read_slice); destruct (Slice.empty write_slice);
      simpl in Hslice; try discriminate.
    destruct Hne; discriminate. }
  apply insert_slice_row in Hslice
    as (Hc1 & Ha1 & sr & Hs1 & Hsr & Hread & Hwrite).
  (* the chunk rows *)
  destruct (sorted_chunk_list rt (chunk_list read_slice write_slice) Hrt)
    as [Hperm _].
  rewrite insert_chunks_fold.
  pose proof (chunk_fold_keys slice_id
                (Runtime.sort rt address_first_above
                   (chunk_list read_slice write_slice)) ∅ db1)
    as [_ Hkeys].
  destruct (foldl (chunk_step slice_id) (∅, db1)
              (Runtime.sort rt address_first_above
                 (chunk_list read_slice write_slice)))
    as [m db2] eqn:Hchunks.
  simpl in Hkeys.
  apply chunk_fold in Hchunks as (Hs2 & Ha2 & Hc2 & Hm).
  (* the access rows *)
  assert (Hfound :
    Forall2 (fun e a =>
               exists chunk_id node,
                 m !! AccessInfo.chunk_access e = Some chunk_id
                 /\ deref (nodes rb ++ nodes wb) (AccessInfo.chunk_access e)
                    = Some node
                 /\ Props.row_attributes (access_row chunk_id node e)
                    = Props.access_attributes a
                 /\ row_consistent db2 (access_row chunk_id node e))
            (current_access_list_ w) batch).
  { eapply Forall2_impl; [exact Hlog |]. intros e a Hea.
    pose proof Hea as (Hv & Hva & Hop & _).
    destruct (Hnode e a Hea) as (n & Hself & Ht & Ha & Hs & Hwhere).
    assert (Hheap : n ∈ nodes rb ++ nodes wb).
    { apply elem_of_app. destruct Hwhere as [[_ H] | [_ H]]; auto. }
    assert (Hkey : is_Some (m !! ChunkAccess.self n)).
    { destruct Hwhere as [[_ Hn] | [_ Hn]];
        apply built_chunk_of_node in Hn as (c & Hc & Hn).
      - apply (Hkeys (ChunkWithDescription.make (operation_byte Read) c));
          [| exact Hn].
        rewrite Hperm. unfold chunk_list. apply elem_of_app. left.
        apply list_elem_of_fmap. exists c. split; [reflexivity | exact Hc].
      - apply (Hkeys (ChunkWithDescription.make (operation_byte Write) c));
          [| exact Hn].
        rewrite Hperm. unfold chunk_list. apply elem_of_app. right.
        apply list_elem_of_fmap. exists c. split; [reflexivity | exact Hc]. }
    destruct Hkey as [chunk_id Hid].
    exists chunk_id, n. rewrite <- Hself.
    split; [exact Hid |].
    split; [apply deref_node; assumption |].
    split.
    { unfold Props.row_attributes, Props.access_attributes, access_row. simpl.
      rewrite Ht, Ha, Hs, Hv, Hva, Hop. reflexivity. }
    destruct (Hm _ _ Hid) as [Hempty | (it & n' & Hit & Hn' & Hself' & Hrow)].
    { rewrite lookup_empty in Hempty. discriminate. }
    rewrite Hperm in Hit. apply chunk_list_elem in Hit as [(Hopit & Hit) | (Hopit & Hit)].
    - destruct (built_node rb _ n' Hr Hit Hn')
        as (Hnode' & Hnonempty & Hlo & Hhi & Htf & Htl).
      assert (Heq : n' = n).
      { apply (same_address (nodes rb ++ nodes wb)); try assumption.
        apply elem_of_app. left. exact Hnode'. }
      subst n'.
      assert (Hopr : AccessInfo.operation e = operation_byte Read).
      { destruct Hwhere as [[H _] | [_ Hn]]; [exact H |].
        exfalso. eapply one_builder; eassumption. }
      destruct (Hread Hnonempty) as (Hf & Hla).
      exists (chunk_row slice_id it), sr.
      split; [exact Hrow |].
      split; [rewrite Hs2; exact Hsr |].
      unfold chunk_row, access_row. simpl.
      split; [congruence |].
      unfold read_slice, write_slice in *. repeat split; try assumption; lia.
    - destruct (built_node wb _ n' Hw Hit Hn')
        as (Hnode' & Hnonempty & Hlo & Hhi & Htf & Htl).
      assert (Heq : n' = n).
      { apply (same_address (nodes rb ++ nodes wb)); try assumption.
        apply elem_of_app. right. exact Hnode'. }
      subst n'.
      assert (Hopw : AccessInfo.operation e = operation_byte Write).
      { destruct Hwhere as [[_ Hn] | [H _]]; [| exact H].
        exfalso. eapply one_builder; eassumption. }
      destruct (Hwrite Hnonempty) as (Hf & Hla).
      exists (chunk_row slice_id it), sr.
      split; [exact Hrow |].
      split; [rewrite Hs2; exact Hsr |].
      unfold chunk_row, access_row. simpl.
      split; [congruence |].
      unfold read_slice, write_slice in *. repeat split; try assumption; lia. }
  destruct (insert_accesses_rows _ _ _ _ _ Hfound db2)
    as (db3 & rows & Hrun & Hs3 & Hc3 & Ha3 & Hattr & Hall).
  rewrite Hrun. eexists. split; [reflexivity |]. simpl.
  split; [reflexivity |].
  split; [exists (map (chunk_row slice_id)
                    (Runtime.sort rt address_first_above
                       (chunk_list read_slice write_slice)));
          rewrite Hc3, Hc2, Hc1; reflexivity |].
  split; [exists [sr]; rewrite Hs3, Hs2, Hs1; reflexivity |].
  exists rows. split; [rewrite Ha3, Ha2, Ha1; reflexivity |].
  split; [exact Hattr |].
  eapply Forall_impl; [exact Hall |]. intros r. apply row_consistent_grows.
  - exists []. rewrite app_nil_r. exact Hc3.
  - exists []. rewrite app_nil_r. exact Hs3.
Qed.

(** *** Pushes *)

Lemma persisted_create : persisted create [].
Proof.
  exists [], []. split; [reflexivity |]. split; [reflexivity |].
  split; [constructor | apply batch_open_create].
Qed.

Lemma push_persisted rt w accesses access w' :
  Runtime.fresh_addresses rt -> Runtime.sorts rt ->
  access_below_max access ->
  persisted w accesses ->
  push rt w access = (Done, w') ->
  persisted w' (accesses ++ [access]).
Proof.
  intros Hfresh Hsorts Hbelow (flushed & batch & -> & Hrows & Hcons & Hopen).
  unfold push.
  destruct (builder_insert rt w access) as [ex | [r w1]] eqn:Hb; [discriminate |].
  destruct r as [inserted_access | |]; [| | discriminate].
  - intros H. injection H as <-.
    destruct (builder_insert_inserted_batch _ _ _ _ _ _ Hfresh Hbelow Hopen Hb)
      as (Hopen' & Hdb).
    exists flushed, (batch ++ [access]). simpl. rewrite Hdb.
    split; [rewrite List.app_assoc; reflexivity |].
    split; [exact Hrows |]. split; [exact Hcons | exact Hopen'].
  - destruct (builder_insert_refused_batch _ _ _ _ _ Hopen Hb) as (Hopen1 & Hdb1).
    destruct (flush_batch rt w1 batch Hsorts Hopen1)
      as (w2 & Hflush & Hlog2 & Hchunks & Hslices & rows & Hrows2 & Hattr & Hnew).
    rewrite Hflush.
    pose proof (batch_open_create_slices w2 Hlog2) as Hopen3.
    destruct (builder_insert rt (create_slices w2) access) as [ex | [r w3]] eqn:Hb3;
      [discriminate |].
    destruct r as [inserted_access | |]; [| discriminate | discriminate].
    intros H. injection H as <-.
    destruct (builder_insert_inserted_batch _ _ _ _ _ _ Hfresh Hbelow Hopen3 Hb3)
      as (Hopen' & Hdb3).
    exists (flushed ++ batch), [access]. simpl. rewrite Hdb3. simpl.
    split; [reflexivity |].
    split; [rewrite Hrows2, Hdb1, !map_app, Hrows, Hattr; reflexivity |].
    split; [| exact Hopen'].
    rewrite Hrows2. apply Forall_app. split; [| exact Hnew].
    rewrite Hdb1. eapply Forall_impl; [exact Hcons |].
    intros r. apply row_consistent_grows; rewrite <- Hdb1; assumption.
Qed.

Lemma pushes_persisted rt accesses :
  Runtime.fresh_addresses rt -> Runtime.sorts rt ->
  Forall access_below_max accesses ->
  forall pushed w w',
    persisted w pushed ->
    pushes rt w accesses = (Done, w') ->
    persisted w' (pushed ++ accesses).
Proof.
  intros Hfresh Hsorts.
  induction accesses as [| a accesses IH]; intros Hall pushed w w' Hw; simpl.
  - intros H. injection H as <-. rewrite app_nil_r. exact Hw.
  - apply Forall_cons in Hall as [Ha Hall].
    destruct (push rt w a) as [o w1] eqn:Hp. destruct o as [| ex]; [| discriminate].
    intros H. rewrite (List.app_assoc pushed [a] accesses : pushed ++ a :: accesses = _).
    eapply IH; [exact Hall | | exact H].
    eapply push_persisted; eassumption.
Qed.

(** The last flush of a writer whose pushes all returned. *)
Lemma take_persisted rt accesses w :
  Runtime.fresh_addresses rt -> Runtime.sorts rt ->
  Forall access_below_max accesses ->
  pushes rt create accesses = (Done, w) ->
  exists flushed batch w',
    accesses = flushed ++ batch
    /\ length (current_access_list_ w) = length batch
    /\ map Props.row_attributes (Db.accesses (db_ w))
       = map Props.access_attributes flushed
    /\ insert_slices rt w = (Done, w')
    /\ (exists rows,
          Db.accesses (db_ w') = Db.accesses (db_ w) ++ rows
          /\ map Props.row_attributes rows = map Props.access_attributes batch)
    /\ Forall (row_consistent (db_ w')) (Db.accesses (db_ w')).
Proof.
  intros Hfresh Hsorts Hall Hp.
  pose proof (pushes_persisted rt accesses Hfresh Hsorts Hall [] create w
                persisted_create Hp)
    as (flushed & batch & Heq & Hrows & Hcons & Hopen).
  simpl in Heq.
  destruct (flush_batch rt w batch Hsorts Hopen)
    as (w' & Hflush & _ & Hchunks & Hslices & rows & Hrows' & Hattr & Hnew).
  exists flushed, batch, w'.
  split; [exact Heq |].
  split.
  { destruct Hopen as (_ & _ & _ & _ & _ & _ & _ & Hlog).
    eapply Forall2_length, Hlog. }
  split; [exact Hrows |]. split; [exact Hflush |].
  split; [exists rows; split; assumption |].
  rewrite Hrows'. apply Forall_app. split; [| exact Hnew].
  eapply Forall_impl; [exact Hcons |].
  intros r. apply row_consistent_grows; assumption.
Qed.

(** What [push] can throw on an open batch. *)
Lemma push_throws rt w batch access e :
  Runtime.sorts rt ->
  batch_open w batch ->
  fst (push rt w access) = Throw e ->
  e = invalid_argument
  \/ (e = runtime_error_execute /\ MemoryAccess.operation access = Execute)
  \/ (e = logic_error_unknown_access
      /\ exists byte, MemoryAccess.operation access = Unknown byte).
Proof.
  intros Hsorts Hopen. unfold push.
  destruct (builder_insert rt w access) as [ex | [r w1]] eqn:Hb.
  - simpl. intros H. injection H as <-.
    destruct Hopen as (rb & wb & Hrb & Hwb & _).
    unfold builder_insert in Hb.
    destruct (MemoryAccess.operation access) eqn:Hop; simpl in Hb.
    + injection Hb as <-. right. left. split; reflexivity.
    + rewrite Hwb in Hb. destruct (SliceBuilder.insert _ _ _ _ _). discriminate.
    + rewrite Hrb in Hb. destruct (SliceBuilder.insert _ _ _ _ _). discriminate.
    + injection Hb as <-. right. right. split; [reflexivity |]. eexists. reflexivity.
  - destruct r as [inserted_access | |]; simpl.
    + discriminate.
    + destruct (builder_insert_refused_batch _ _ _ _ _ Hopen Hb) as (Hopen1 & _).
      destruct (flush_batch rt w1 batch Hsorts Hopen1) as (w2 & Hflush & _).
      rewrite Hflush.
      destruct (builder_insert rt (create_slices w2) access) as [ex | [r w3]] eqn:Hb3.
      * exfalso. unfold builder_insert in Hb, Hb3.
        destruct (MemoryAccess.operation access); simpl in Hb, Hb3;
          try discriminate.
        all: destruct (SliceBuilder.insert fresh_builder _ _ _ _); discriminate.
      * apply builder_insert_create_slices in Hb3 as (p & Hb3).
        destruct (fresh_builder_insert p
                    (MemoryAccess.transition_id access)
                    (MemoryAccess.physical_address access)
                    (MemoryAccess.size access)) as [Hf | Hf];
          rewrite Hf in Hb3; subst r; simpl.
        -- intros H. injection H as <-. left. reflexivity.
        -- discriminate.
    + intros H. injection H as <-. left. reflexivity.
Qed.

End BatchInvariant.

(** ** The database below the top of the address space *)

Section BelowMax.

Import DbWriter.

(** X15: referential integrity of the database the writer hands out. For
    every runtime, after pushes on a new writer that all returned, of
    accesses that end below [u64_max] with sizes of 32 bits, [take] returns
    a database in which every row of [accesses] points to an existing row
    of [chunks] of the same operation whose physical range contains the
    bytes of the access, and that row points to an existing row of [slices]
    whose transitions bound the transition of the access. *)
Theorem taken_database_is_consistent rt accesses w :
  Runtime.fresh_addresses rt -> Runtime.sorts rt ->
  Forall access_below_max accesses ->
  pushes rt create accesses = (Done, w) ->
  exists db,
    take rt w = (Done, db)
    /\ Forall (row_consistent db) (Db.accesses db).
Proof.
  intros Hfresh Hsorts Hall Hp.
  destruct (take_persisted rt accesses w Hfresh Hsorts Hall Hp)
    as (_ & _ & w' & _ & _ & _ & Hflush & _ & Hcons).
  exists (db_ w'). unfold take. rewrite Hflush. split; [reflexivity | exact Hcons].
Qed.

Lemma taken_database_is_consistent_witness :
  exists db,
    take sample_runtime
      (snd (pushes sample_runtime create
              [MemoryAccess.make 0 10 6666 10 true Write;
               MemoryAccess.make 1 14 156 10 false Read;
               MemoryAccess.make 1 18 156 4 false Write]))
    = (Done, db)
    /\ Forall (row_consistent db) (Db.accesses db).
Proof.
  refine (taken_database_is_consistent sample_runtime
            [MemoryAccess.make 0 10 6666 10 true Write;
             MemoryAccess.make 1 14 156 10 false Read;
             MemoryAccess.make 1 18 156 4 false Write]
            (snd (pushes sample_runtime create
                    [MemoryAccess.make 0 10 6666 10 true Write;
                     MemoryAccess.make 1 14 156 10 false Read;
                     MemoryAccess.make 1 18 156 4 false Write]))
            after_highest_fresh insertion_sort_sorts _ _).
  - repeat (constructor;
            [unfold access_below_max, u64_max; simpl; lia |]).
    constructor.
  - vm_compute. reflexivity.
Defined.

(** X17: the logic errors of the flush and of the retry are out of reach
    below [u64_max]. For every runtime, after pushes on a new writer that
    all returned, of accesses that end below [u64_max] with sizes of 32
    bits, [take] returns, and a further push of any access either returns
    or throws the invalid argument of [SliceBuilder::insert], the runtime
    error of an Execute access, or the logic error of an operation byte
    that is no enumerator: it meets neither an empty pair of slices, nor a
    logged access missing from the chunks, nor a builder that refuses on an
    empty slice. *)
Theorem no_logic_error_below_u64_max rt accesses w :
  Runtime.fresh_addresses rt -> Runtime.sorts rt ->
  Forall access_below_max accesses ->
  pushes rt create accesses = (Done, w) ->
  fst (take rt w) = Done
  /\ forall access e,
       fst (push rt w access) = Throw e ->
       e = invalid_argument
       \/ (e = runtime_error_execute /\ MemoryAccess.operation access = Execute)
       \/ (e = logic_error_unknown_access
           /\ exists byte, MemoryAccess.operation access = Unknown byte).
Proof.
  intros Hfresh Hsorts Hall Hp. split.
  - destruct (take_persisted rt accesses w Hfresh Hsorts Hall Hp)
      as (_ & _ & w' & _ & _ & _ & Hflush & _).
    unfold take. rewrite Hflush. reflexivity.
  - pose proof (pushes_persisted rt accesses Hfresh Hsorts Hall [] create w
                  persisted_create Hp)
      as (_ & batch & _ & _ & _ & Hopen).
    intros access e. eapply push_throws; eassumption.
Qed.

Lemma no_logic_error_below_u64_max_witness :
  fst (take sample_runtime
         (snd (pushes sample_runtime create
                 [MemoryAccess.make 0 10 6666 10 true Write;
                  MemoryAccess.make 1 14 156 10 false Read;
                  MemoryAccess.make 1 18 156 4 false Write])))
  = Done.
Proof.
  refine (proj1 (no_logic_error_below_u64_max sample_runtime
                   [MemoryAccess.make 0 10 6666 10 true Write;
                    MemoryAccess.make 1 14 156 10 false Read;
                    MemoryAccess.make 1 18 156 4 false Write]
                   (snd (pushes sample_runtime create
                           [MemoryAccess.make 0 10 6666 10 true Write;
                            MemoryAccess.make 1 14 156 10 false Read;
                            MemoryAccess.make 1 18 156 4 false Write]))
                   after_highest_fresh insertion_sort_sorts _ _)).
  - repeat (constructor;
            [unfold access_below_max, u64_max; simpl; lia |]).
    constructor.
  - vm_compute. reflexivity.
Defined.

(** X18: the round trip of the attributes, where the code keeps it. For
    every runtime, after pushes on a new writer that all returned, of
    accesses that end below [u64_max] with sizes of 32 bits, [take] returns
    a database whose [accesses] table has exactly one row per pushed access,
    in push order, and the row of an access carries its transition, its
    physical address, its size, its operation byte, and its virtual address
    in [linear] when [has_virtual_address] is set, NULL otherwise. *)
Theorem round_trip_below_u64_max rt accesses w :
  Runtime.fresh_addresses rt -> Runtime.sorts rt ->
  Forall access_below_max accesses ->
  pushes rt create accesses = (Done, w) ->
  exists db,
    take rt w = (Done, db)
    /\ map Props.row_attributes (Db.accesses db)
       = map Props.access_attributes accesses.
Proof.
  intros Hfresh Hsorts Hall Hp.
  destruct (take_persisted rt accesses w Hfresh Hsorts Hall Hp)
    as (flushed & batch & w' & -> & _ & Hrows & Hflush & (rows & Hrows' & Hattr) & _).
  exists (db_ w'). unfold take. rewrite Hflush. split; [reflexivity |].
  rewrite Hrows', !map_app, Hrows, Hattr. reflexivity.
Qed.

Lemma round_trip_below_u64_max_witness :
  exists db,
    take sample_runtime
      (snd (pushes sample_runtime create
              [MemoryAccess.make 0 10 6666 10 true Write;
               MemoryAccess.make 1 100 156 10 false Read]))
    = (Done, db)
    /\ map Props.row_attributes (Db.accesses db)
       = map Props.access_attributes
           [MemoryAccess.make 0 10 6666 10 true Write;
            MemoryAccess.make 1 100 156 10 false Read].
Proof.
  refine (round_trip_below_u64_max sample_runtime
            [MemoryAccess.make 0 10 6666 10 true Write;
             MemoryAccess.make 1 100 156 10 false Read]
            (snd (pushes sample_runtime create
                    [MemoryAccess.make 0 10 6666 10 true Write;
                     MemoryAccess.make 1 100 156 10 false Read]))
            after_highest_fresh insertion_sort_sorts _ _).
  - repeat (constructor;
            [unfold access_below_max, u64_max; simpl; lia |]).
    constructor.
  - vm_compute. reflexivity.
Defined.

(** X19: the rows of a flush, where the code keeps their order. For every
    runtime, after pushes on a new writer that all returned, of accesses
    that end below [u64_max] with sizes of 32 bits, the pushed accesses
    split into those whose rows are in the table, in push order, and the
    batch of the access log; the next flush returns and appends to the
    [accesses] table exactly one row per access of the batch, in push
    order, with the attributes of that access. *)
Theorem flush_appends_batch_in_push_order rt accesses w :
  Runtime.fresh_addresses rt -> Runtime.sorts rt ->
  Forall access_below_max accesses ->
  pushes rt create accesses = (Done, w) ->
  exists flushed batch w' rows,
    accesses = flushed ++ batch
    /\ length (current_access_list_ w) = length batch
    /\ map Props.row_attributes (Db.accesses (db_ w))
       = map Props.access_attributes flushed
    /\ insert_slices rt w = (Done, w')
    /\ Db.accesses (db_ w') = Db.accesses (db_ w) ++ rows
    /\ map Props.row_attributes rows = map Props.access_attributes batch.
Proof.
  intros Hfresh Hsorts Hall Hp.
  destruct (take_persisted rt accesses w Hfresh Hsorts Hall Hp)
    as (flushed & batch & w' & Heq & Hlen & Hrows & Hflush
        & (rows & Hrows' & Hattr) & _).
  exists flushed, batch, w', rows. repeat split; assumption.
Qed.

Lemma flush_appends_batch_in_push_order_witness :
  exists flushed batch w' rows,
    [MemoryAccess.make 0 10 6666 10 true Write;
     MemoryAccess.make 1 100 156 10 false Write] = flushed ++ batch
    /\ length (current_access_list_
                 (snd (pushes sample_runtime create
                         [MemoryAccess.make 0 10 6666 10 true Write;
                          MemoryAccess.make 1 100 156 10 false Write])))
       = length batch
    /\ map Props.row_attributes
         (Db.accesses
            (db_ (snd (pushes sample_runtime create
                         [MemoryAccess.make 0 10 6666 10 true Write;
                          MemoryAccess.make 1 100 156 10 false Write]))))
       = map Props.access_attributes flushed
    /\ insert_slices sample_runtime
         (snd (pushes sample_runtime create
                 [MemoryAccess.make 0 10 6666 10 true Write;
                  MemoryAccess.make 1 100 156 10 false Write]))
       = (Done, w')
    /\ Db.accesses (db_ w')
       = Db.accesses
           (db_ (snd (pushes sample_runtime create
                        [MemoryAccess.make 0 10 6666 10 true Write;
                         MemoryAccess.make 1 100 156 10 false Write])))
         ++ rows
    /\ map Props.row_attributes rows = map Props.access_attributes batch.
Proof.
  refine (flush_appends_batch_in_push_order sample_runtime
            [MemoryAccess.make 0 10 6666 10 true Write;
             MemoryAccess.make 1 100 156 10 false Write]
            (snd (pushes sample_runtime create
                    [MemoryAccess.make 0 10 6666 10 true Write;
                     MemoryAccess.make 1 100 156 10 false Write]))
            after_highest_fresh insertion_sort_sorts _ _).
  - repeat (constructor;
            [unfold access_below_max, u64_max; simpl; lia |]).
    constructor.
  - vm_compute. reflexivity.
Defined.

End BelowMax.

(** ** The writer at the top of the address space *)

Section DroppedNode.

Import DbWriter.

(** An accepted insert links the new access first, before the nodes of the
    chunks it absorbs. *)
Lemma insert_links_new_access_first b p icount address size access b' :
  SliceBuilder.insert b p icount address size = (Inserted access, b') ->
  let c := Chunk.make p icount address (wrap32 size) in
  let overlaps :=
    SliceBuilder.find_overlaps c address
      (Slice.access_chunks_ (SliceBuilder.slice_ b)) in
  Chunk.accesses (merge_all c overlaps) = access :: Props.traversal overlaps.
Proof.
  intros Hi. apply insert_inserted in Hi as (-> & _).
  cbv zeta. rewrite merge_all_accesses. reflexivity.
Qed.

(** Two reads of the byte at [u64_max], whatever the runtime: the second
    insert misses the overlap, line 192 of slice.h finds the key taken and
    the node is freed with the temporary pair, yet its address is returned
    and logged. Both pushes return; the flush does not find the second
    pointer among the nodes of the chunks and throws. *)
Lemma dropped_node_not_flushed rt :
  Runtime.fresh_addresses rt -> Runtime.sorts rt ->
  fst (pushes rt create [read_top_0; read_top_1]) = Done
  /\ fst (take rt (snd (pushes rt create [read_top_0; read_top_1])))
     = Throw logic_error_missing_access.
Proof.
  intros Hfresh Hsorts.
  split; [vm_compute; reflexivity |].
  pose proof (Hfresh 1%nat [Runtime.allocate rt 0%nat []]) as Hp2.
  set (p1 := Runtime.allocate rt 0%nat []) in *.
  set (p2 := Runtime.allocate rt 1%nat [p1]) in *.
  assert (Hw : snd (pushes rt create [read_top_0; read_top_1])
               = {| db_ := Db.create;
                    read_slice_builder_ :=
                      Some (snd (SliceBuilder.inserts fresh_builder
                                   [(p1, 0, u64_max, 1); (p2, 1, u64_max, 1)]));
                    write_slice_builder_ := Some fresh_builder;
                    current_access_list_ :=
                      [AccessInfo.make p1 false 0 4; AccessInfo.make p2 true 7 4];
                    heap_clock := 2 |}).
  { vm_compute. reflexivity. }
  rewrite Hw. clear Hw.
  unfold take, insert_slices.
  cbn [current_access_list_ read_slice_builder_ write_slice_builder_ db_].
  set (read_builder := snd (SliceBuilder.inserts fresh_builder
                               [(p1, 0, u64_max, 1); (p2, 1, u64_max, 1)])).
  assert (Hslice : insert_slice Db.create (SliceBuilder.build read_builder)
                     (SliceBuilder.build fresh_builder)
                   = inr (1, Db.Build [SliceRow.make 0 1] [] [])).
  { vm_compute. reflexivity. }
  rewrite Hslice. cbn iota beta.
  rewrite insert_chunks_fold.
  assert (Hlist : chunk_list (SliceBuilder.build read_builder)
                    (SliceBuilder.build fresh_builder)
                  = [ChunkWithDescription.make 4
                       (Chunk.Build u64_max u64_max
                          [ChunkAccess.make p1 0 u64_max 1] 1)]).
  { vm_compute. reflexivity. }
  rewrite Hlist.
  destruct (Hsorts address_first_above
              [ChunkWithDescription.make 4
                 (Chunk.Build u64_max u64_max [ChunkAccess.make p1 0 u64_max 1] 1)]
              address_first_above_order) as [Hperm _].
  apply Permutation_singleton_r in Hperm. rewrite Hperm.
  clear Hperm Hlist Hslice.
  assert (Hheap : slice_nodes (SliceBuilder.build read_builder)
                  ++ slice_nodes (SliceBuilder.build fresh_builder)
                  = [ChunkAccess.make p1 0 u64_max 1]).
  { vm_compute. reflexivity. }
  rewrite Hheap. clear Hheap.
  assert (Hne : p1 <> p2).
  { intros Heq. apply Hp2. rewrite <- Heq. left. }
  cbn [foldl chunk_step ChunkWithDescription.chunk Chunk.accesses
       Chunk.accesses_ ChunkAccess.self].
  unfold emplace. rewrite lookup_empty.
  cbn [insert_accesses AccessInfo.chunk_access].
  rewrite lookup_insert_eq.
  unfold deref. cbn [find ChunkAccess.self]. rewrite Nat.eqb_refl.
  rewrite lookup_insert_ne by exact Hne. rewrite lookup_empty.
  reflexivity.
Qed.

(** C7 fails at the top of the address space. Whatever the runtime, after
    two reads of the byte at [u64_max] both pushes return and the flush of
    [take] throws the logic error of [insert_accesses]: no row is committed
    for them. When the address of the freed node is handed out again, here
    to the node of a third access, [take] returns, and the row at the place
    of the second access carries the transition, the address and the size
    of the third: no row of the table has the attributes of the second
    access. *)
Theorem round_trip_lost_at_u64_max :
  (forall rt,
     Runtime.fresh_addresses rt -> Runtime.sorts rt ->
     fst (pushes rt create [read_top_0; read_top_1]) = Done
     /\ fst (take rt (snd (pushes rt create [read_top_0; read_top_1])))
        = Throw logic_error_missing_access)
  /\ fst (pushes sample_runtime create [read_top_0; read_top_1; write_low_2])
     = Done
  /\ exists db,
       take sample_runtime
         (snd (pushes sample_runtime create
                 [read_top_0; read_top_1; write_low_2]))
       = (Done, db)
       /\ map Props.row_attributes (Db.accesses db)
          = [(0, u64_max, None, 1, 4); (2, 100, Some 7, 4, 4);
             (2, 100, None, 4, 2)]
       /\ Forall (fun r => Props.row_attributes r
                           <> Props.access_attributes read_top_1)
                 (Db.accesses db).
Proof.
  split; [exact dropped_node_not_flushed |].
  split; [vm_compute; reflexivity |].
  eexists. split; [vm_compute; reflexivity |].
  split; [vm_compute; reflexivity |].
  repeat (constructor; [vm_compute; discriminate |]). constructor.
Qed.

Lemma round_trip_lost_at_u64_max_witness :
  fst (pushes sample_runtime create [read_top_0; read_top_1]) = Done
  /\ fst (take sample_runtime
            (snd (pushes sample_runtime create [read_top_0; read_top_1])))
     = Throw logic_error_missing_access.
Proof.
  exact (proj1 round_trip_lost_at_u64_max sample_runtime
           after_highest_fresh insertion_sort_sorts).
Defined.


End DroppedNode.

